(** * Verification of the copy-trading bots: tick-array bitmap engine,
    confirmation polling, pricing helpers, 128-bit codec, swap payloads
    and the websocket orchestrator.

  Conventions of the embedding.

  - A JavaScript [number] that holds a tick index, a tick spacing, a retry
    counter or a token amount is an integer of [Z]; on the integers the
    source works with (below 2^53) the floating-point operations
    [Math.floor(a / b)], [a % b], [Math.abs] are exact, and they are
    written here as [Z.div] (floor), [Z.rem] (sign of the dividend) and
    [Z.abs].
  - A [BigInt] is an integer of [Z]; [<<], [>>], [&], [|] on BigInt are the
    two's complement operations [Z.shiftl], [Z.shiftr], [Z.land], [Z.lor]
    (a negative shift count reverses the direction in both worlds).
  - A [number] that holds a price or a reserve is a finite double, written
    as the rational of [Q] it denotes: every operation of the pricing
    helpers rounds its exact result to the nearest double ([Double.round]),
    and a run that leaves the finite doubles ends in [None].  The budget of
    the orchestrator (amount per buy, limit, spent total) is kept in
    rationals that are compared and added exactly.
  - A [Buffer] is a [list byte].
  - A thrown exception is an explicit [Throw] outcome; a loop whose exit
    depends on data takes a [fuel] argument and answers [None] when the
    fuel runs out, so that termination is a theorem and not a convention. *)

From Stdlib Require Import ZArith List Bool Lia String Ascii.
From Stdlib Require Import QArith Qround Qabs Qpower Lqa.
From Stdlib Require PrimFloat FloatOps SpecFloat.
From Stdlib Require Strings.Byte.
Import ListNotations.

Local Open Scope Z_scope.

(** ** Outcomes of JavaScript code that may throw *)

Inductive js (A : Type) : Type :=
| Ret (a : A)
| Throw.
Arguments Ret {A} a.
Arguments Throw {A}.

Definition js_bind {A B : Type} (m : js A) (k : A -> js B) : js B :=
  match m with
  | Ret a => k a
  | Throw => Throw
  end.

Declare Scope js_scope.
Delimit Scope js_scope with js.
Notation "x <- m ;; k" := (js_bind m (fun x => k))
  (at level 61, m at next level, right associativity) : js_scope.
Notation "' pat <- m ;; k" := (js_bind m (fun x => match x with pat => k end))
  (at level 61, pat pattern, m at next level, right associativity) : js_scope.

(** [arr[i]] on a JavaScript array: [undefined] (here [None]) out of range. *)
Definition js_index {A : Type} (arr : list A) (i : Z) : option A :=
  if i <? 0 then None else nth_error arr (Z.to_nat i).

(** [x.toString(2).length] for a BigInt [x]. *)
Definition toString2_length (x : Z) : Z :=
  match x with
  | Z0 => 1
  | Zpos _ => Z.log2 x + 1
  | Zneg _ => Z.log2 (- x) + 2
  end.

(** ** The tick-array bitmap engine (part_001) *)

Module TickArrayBitmap.

Definition MIN_TICK : Z := -443636.
Definition MAX_TICK : Z := 443636.
Definition TICK_ARRAY_SIZE : Z := 60.
Definition TICK_ARRAY_BITMAP_SIZE : Z := 512.
Definition TOTAL_BITS : Z := 1024.
Definition U1024_MASK : Z := Z.shiftl 1 TOTAL_BITS - 1.

(** The extension bitmap: the positive and the negative side, each a list of
  segments, each segment a list of 64-bit words. *)
Definition Extension : Type := (list (list Z) * list (list Z))%type.

(* 19. tickCount *)
Definition tickCount (tickSpacing : Z) : Z := TICK_ARRAY_SIZE * tickSpacing.

(* 20. getArrayStartIndex *)
Definition getArrayStartIndex (tickIndex tickSpacing : Z) : Z :=
  let ticksInArray := tickCount tickSpacing in
  let start := tickIndex / ticksInArray in
  let start :=
    if (tickIndex <? 0) && negb (Z.rem tickIndex ticksInArray =? 0)
    then start - 1 else start in
  start * ticksInArray.

(* 11. u1024FromList *)
Fixpoint u1024FromList_loop (words : list Z) (i : Z) (value : Z) : Z :=
  match words with
  | [] => value
  | w :: rest => u1024FromList_loop rest (i + 1) (Z.lor value (Z.shiftl w (64 * i)))
  end.

Definition u1024FromList (words : list Z) : Z :=
  Z.land (u1024FromList_loop words 0 0) U1024_MASK.

(* 12. maxTickInTickarrayBitmap *)
Definition maxTickInTickarrayBitmap (tickSpacing : Z) : Z :=
  tickSpacing * TICK_ARRAY_SIZE * TICK_ARRAY_BITMAP_SIZE.

(* 13. mostSignificantBit *)
Definition mostSignificantBit (x : Z) : option Z :=
  if x =? 0 then None else Some (TOTAL_BITS - toString2_length x).

(* 14. leastSignificantBit *)
Definition leastSignificantBit (x : Z) : option Z :=
  if x =? 0 then None else Some (toString2_length (Z.land x (- x)) - 1).

(* 15. nextInitializedTickArrayStartIndexInBitmap *)
Definition nextInitializedTickArrayStartIndexInBitmap
    (bitMap lastTickArrayStartIndex tickSpacing : Z) (zeroForOne : bool)
    : bool * Z :=
  let bitMap := Z.land bitMap U1024_MASK in
  let tickBoundary := maxTickInTickarrayBitmap tickSpacing in
  let nextTickArrayStartIndex :=
    if zeroForOne then lastTickArrayStartIndex - tickCount tickSpacing
    else lastTickArrayStartIndex + tickCount tickSpacing in
  if (nextTickArrayStartIndex <? - tickBoundary)
     || (nextTickArrayStartIndex >=? tickBoundary)
  then (false, lastTickArrayStartIndex)
  else
    let multiplier := tickSpacing * TICK_ARRAY_SIZE in
    let compressed := nextTickArrayStartIndex / multiplier + 512 in
    let compressed :=
      if (nextTickArrayStartIndex <? 0)
         && negb (Z.rem nextTickArrayStartIndex multiplier =? 0)
      then compressed - 1 else compressed in
    let bitPos := Z.abs compressed in
    if zeroForOne then
      let shiftAmount := TOTAL_BITS - bitPos - 1 in
      let offsetBitMap := Z.land (Z.shiftl bitMap shiftAmount) U1024_MASK in
      match mostSignificantBit offsetBitMap with
      | Some nextBit => (true, (bitPos - nextBit - 512) * multiplier)
      | None => (false, - tickBoundary)
      end
    else
      let offsetBitMap := Z.shiftr bitMap bitPos in
      match leastSignificantBit offsetBitMap with
      | Some nextBit => (true, (bitPos + nextBit - 512) * multiplier)
      | None => (false, tickBoundary - tickCount tickSpacing)
      end.

(* 18. getBitmap: the offset and the selected segment, [None] for the
   [undefined] an out-of-range array read gives. *)
Definition getBitmap (tickIndex tickSpacing : Z)
    (positiveBitmap negativeBitmap : list (list Z)) : Z * option (list Z) :=
  let ticksInOneBitmap := tickSpacing * TICK_ARRAY_SIZE * TICK_ARRAY_BITMAP_SIZE in
  let offset := Z.abs tickIndex / ticksInOneBitmap - 1 in
  let offset :=
    if (tickIndex <? 0) && (Z.rem (Z.abs tickIndex) ticksInOneBitmap =? 0)
    then offset - 1 else offset in
  if tickIndex <? 0 then (offset, js_index negativeBitmap offset)
  else (offset, js_index positiveBitmap offset).

(* 17. nextInitializedTickArrayInBitmap and its local helpers *)
Definition u512IsZero (x : Z) : bool := x =? 0.

Definition u512LeadingZeros (x : Z) : Z :=
  if x =? 0 then 512 else 512 - toString2_length x.

Definition u512TrailingZeros (x : Z) : Z :=
  if x =? 0 then 512 else toString2_length (Z.land x (- x)) - 1.

Definition calcTickArrayOffsetInBitmap (tickArrayStartIndex tickSpacing : Z) : Z :=
  let m := Z.rem (Z.abs tickArrayStartIndex)
                 (tickSpacing * TICK_ARRAY_SIZE * TICK_ARRAY_BITMAP_SIZE) in
  let offset := m / (TICK_ARRAY_SIZE * tickSpacing) in
  if (tickArrayStartIndex <? 0) && negb (m =? 0)
  then TICK_ARRAY_BITMAP_SIZE - offset else offset.

Definition getBitmapTickBoundary (tickArrayStartIndex tickSpacing : Z) : Z * Z :=
  let ticksInOneBitmap := tickSpacing * TICK_ARRAY_SIZE * TICK_ARRAY_BITMAP_SIZE in
  let m := Z.abs tickArrayStartIndex / ticksInOneBitmap in
  let m :=
    if (tickArrayStartIndex <? 0)
       && negb (Z.rem (Z.abs tickArrayStartIndex) ticksInOneBitmap =? 0)
    then m + 1 else m in
  let minValue := ticksInOneBitmap * m in
  if tickArrayStartIndex <? 0
  then (- minValue, - minValue + ticksInOneBitmap)
  else (minValue, minValue + ticksInOneBitmap).

Fixpoint u512FromParts_loop (parts : list Z) (i : Z) (value : Z) : Z :=
  match parts with
  | [] => value
  | w :: rest =>
      u512FromParts_loop rest (i + 1) (Z.lor value (Z.shiftl w ((7 - i) * 64)))
  end.

Definition nextInitializedTickArrayInBitmap
    (tickarrayBitmap : option (list Z))
    (nextTickArrayStartIndex tickSpacing : Z) (zeroForOne : bool)
    : js (bool * Z) :=
  let '(bitmapMinBoundary, bitmapMaxBoundary) :=
    getBitmapTickBoundary nextTickArrayStartIndex tickSpacing in
  let tickArrayOffset :=
    calcTickArrayOffsetInBitmap nextTickArrayStartIndex tickSpacing in
  match tickarrayBitmap with
  | None => Throw (* reading [.length] of [undefined] *)
  | Some parts =>
    let u512TickarrayBitmap := u512FromParts_loop parts 0 0 in
    if zeroForOne then
      let offsetBitMap :=
        Z.land (Z.shiftl u512TickarrayBitmap
                         (TICK_ARRAY_BITMAP_SIZE - 1 - tickArrayOffset))
               (Z.shiftl 1 TICK_ARRAY_BITMAP_SIZE - 1) in
      let nextBit :=
        if u512IsZero offsetBitMap then None
        else Some (u512LeadingZeros offsetBitMap) in
      match nextBit with
      | Some nextBit =>
          Ret (true, nextTickArrayStartIndex - nextBit * tickCount tickSpacing)
      | None => Ret (false, bitmapMinBoundary)
      end
    else
      let offsetBitMap := Z.shiftr u512TickarrayBitmap tickArrayOffset in
      let nextBit :=
        if u512IsZero offsetBitMap then None
        else Some (u512TrailingZeros offsetBitMap) in
      match nextBit with
      | Some nextBit =>
          Ret (true, nextTickArrayStartIndex + nextBit * tickCount tickSpacing)
      | None => Ret (false, bitmapMaxBoundary - tickCount tickSpacing)
      end
  end.

(* 16. nextInitializedTickArrayFromOneBitmap *)
Definition nextInitializedTickArrayFromOneBitmap
    (lastTickArrayStartIndex tickSpacing : Z) (zeroForOne : bool)
    (tickarrayBitmapExtension : Extension) : js (bool * Z) :=
  let multiplier := tickCount tickSpacing in
  let nextTickArrayStartIndex :=
    if zeroForOne then lastTickArrayStartIndex - multiplier
    else lastTickArrayStartIndex + multiplier in
  let minTickArrayStartIndex := getArrayStartIndex MIN_TICK tickSpacing in
  let maxTickArrayStartIndex := getArrayStartIndex MAX_TICK tickSpacing in
  if (nextTickArrayStartIndex <? minTickArrayStartIndex)
     || (nextTickArrayStartIndex >? maxTickArrayStartIndex)
  then Ret (false, nextTickArrayStartIndex)
  else
    let '(positiveBitmap, negativeBitmap) := tickarrayBitmapExtension in
    let '(_, tickarrayBitmap) :=
      getBitmap nextTickArrayStartIndex tickSpacing positiveBitmap negativeBitmap in
    nextInitializedTickArrayInBitmap
      tickarrayBitmap nextTickArrayStartIndex tickSpacing zeroForOne.

(** One pass of the body of the [while (true)] loop of
  [nextInitializedTickArrayStartIndex]: it returns, throws, or goes round
  again with a new [lastTickArrayStartIndex].  (The counter [iteration]
  of the source is incremented and never read; it is left out.) *)
Inductive Pass : Type :=
| Return (result : option Z)
| Again (lastTickArrayStartIndex : Z).

Definition scanPass (tickArrayBitmap : list Z)
    (tickarrayBitmapExtension : Extension)
    (lastTickArrayStartIndex tickSpacing : Z) (zeroForOne : bool) : js Pass :=
  let '(found, startIndex) :=
    nextInitializedTickArrayStartIndexInBitmap
      (u1024FromList tickArrayBitmap) lastTickArrayStartIndex tickSpacing zeroForOne in
  if found then Ret (Return (Some startIndex))
  else
    let lastTickArrayStartIndex := startIndex in
    ('(found2, startIndex2) <-
       nextInitializedTickArrayFromOneBitmap
         lastTickArrayStartIndex tickSpacing zeroForOne tickarrayBitmapExtension ;;
     if found2 then Ret (Return (Some startIndex2))
     else
       let lastTickArrayStartIndex := startIndex2 in
       if (lastTickArrayStartIndex <? MIN_TICK)
          || (lastTickArrayStartIndex >? MAX_TICK)
       then Ret (Return None)
       else Ret (Again lastTickArrayStartIndex))%js.

Fixpoint scanLoop (fuel : nat) (tickArrayBitmap : list Z)
    (tickarrayBitmapExtension : Extension)
    (lastTickArrayStartIndex tickSpacing : Z) (zeroForOne : bool)
    : option (js (option Z)) :=
  match fuel with
  | O => None
  | S fuel' =>
      match scanPass tickArrayBitmap tickarrayBitmapExtension
                     lastTickArrayStartIndex tickSpacing zeroForOne with
      | Throw => Some Throw
      | Ret (Return result) => Some (Ret result)
      | Ret (Again last') =>
          scanLoop fuel' tickArrayBitmap tickarrayBitmapExtension
                   last' tickSpacing zeroForOne
      end
  end.

(* 10. nextInitializedTickArrayStartIndex.  [None]: the fuel ran out before
   the loop left; [Some (Ret (Some i))]: returned [i]; [Some (Ret None)]:
   returned [null]; [Some Throw]: threw. *)
Definition nextInitializedTickArrayStartIndex (fuel : nat)
    (tickArrayBitmap : list Z) (tickarrayBitmapExtension : Extension)
    (lastTickArrayStartIndex tickSpacing : Z) (zeroForOne : bool)
    : option (js (option Z)) :=
  let lastTickArrayStartIndex :=
    getArrayStartIndex lastTickArrayStartIndex tickSpacing in
  scanLoop fuel tickArrayBitmap tickarrayBitmapExtension
           lastTickArrayStartIndex tickSpacing zeroForOne.

(** The indices the loop goes through: [scans_to ... last final] when the
  passes from [last] on each ask for another pass, up to the pass that
  starts at [final]. *)
Inductive scans_to (tickArrayBitmap : list Z)
    (tickarrayBitmapExtension : Extension) (tickSpacing : Z)
    (zeroForOne : bool) : Z -> Z -> Prop :=
| scans_here (last : Z) :
    scans_to tickArrayBitmap tickarrayBitmapExtension tickSpacing zeroForOne
             last last
| scans_again (last next final : Z) :
    scanPass tickArrayBitmap tickarrayBitmapExtension last tickSpacing
             zeroForOne = Ret (Again next) ->
    scans_to tickArrayBitmap tickarrayBitmapExtension tickSpacing zeroForOne
             next final ->
    scans_to tickArrayBitmap tickarrayBitmapExtension tickSpacing zeroForOne
             last final.

(** The distance still to go before the scanned index leaves the tick bounds
  in the direction of the search; it bounds the number of passes. *)
Definition remaining (zeroForOne : bool) (last : Z) : Z :=
  if zeroForOne then last - MIN_TICK else MAX_TICK - last.

Definition scan_fuel_bound : nat := Z.to_nat (MAX_TICK - MIN_TICK + 2).

End TickArrayBitmap.

(** ** More of the tick-array bitmap engine (part_001) *)

(** An unsigned 64-bit word, as the bitmap words are on chain. *)
Definition u64 (w : Z) : Prop := 0 <= w < 2 ^ 64.

Module TickArrayLookup.
Import TickArrayBitmap.

(* 8. bitmapListToU1024 *)
Fixpoint bitmapListToU1024_loop (bitmapList : list Z) (i : Z) (result : Z) : Z :=
  match bitmapList with
  | [] => result
  | w :: rest => bitmapListToU1024_loop rest (i + 1) (result + Z.shiftl w (64 * i))
  end.

Definition bitmapListToU1024 (bitmapList : list Z) : js Z :=
  if negb (Nat.eqb (List.length bitmapList) 16) then Throw
  else Ret (bitmapListToU1024_loop bitmapList 0 0).

(* 9. checkCurrentTickArrayIsInitialized *)
Definition checkCurrentTickArrayIsInitialized
    (bitMap tickCurrent tickSpacing : Z) : bool * Z :=
  let multiplier := tickSpacing * TICK_ARRAY_SIZE in
  let compressed := tickCurrent / multiplier + 512 in
  let compressed :=
    if (tickCurrent <? 0) && negb (Z.rem tickCurrent multiplier =? 0)
    then compressed - 1 else compressed in
  let bitPos := Z.abs compressed in
  let mask := Z.shiftl 1 bitPos in
  let masked := Z.land bitMap mask in
  let initialized := negb (masked =? 0) in
  let resultTick := (compressed - 512) * multiplier in
  (initialized, resultTick).

(* 6. isOverflowDefaultTickarrayBitmap and its local helper *)
Definition tickArrayStartIndexRange (tickSpacing : Z) : Z * Z :=
  let maxTickBoundary := tickSpacing * TICK_ARRAY_SIZE * TICK_ARRAY_BITMAP_SIZE in
  let minTickBoundary := - maxTickBoundary in
  let maxTickBoundary' :=
    if maxTickBoundary >? MAX_TICK
    then getArrayStartIndex MAX_TICK tickSpacing + tickCount tickSpacing
    else maxTickBoundary in
  let minTickBoundary' :=
    if minTickBoundary <? MIN_TICK
    then getArrayStartIndex MIN_TICK tickSpacing
    else minTickBoundary in
  (minTickBoundary', maxTickBoundary').

Fixpoint isOverflow_loop (tickIndices : list Z) (tickSpacing minBound maxBound : Z)
    : bool :=
  match tickIndices with
  | [] => false
  | tickIndex :: rest =>
      let tickArrayStartIndex := getArrayStartIndex tickIndex tickSpacing in
      if (tickArrayStartIndex >=? maxBound) || (tickArrayStartIndex <? minBound)
      then true
      else isOverflow_loop rest tickSpacing minBound maxBound
  end.

Definition isOverflowDefaultTickarrayBitmap (tickIndices : list Z)
    (tickSpacing : Z) : bool :=
  let '(minBound, maxBound) := tickArrayStartIndexRange tickSpacing in
  isOverflow_loop tickIndices tickSpacing minBound maxBound.

(* 7. checkTickArrayIsInitialized; its local [calcTickArrayOffsetInBitmap] is
   the text of the one above, under other variable names. *)
Definition checkTickArrayIsInitialized (tickArrayStartIndex tickSpacing : Z)
    (tickarrayBitmapExtension : Extension) : js (bool * Z) :=
  let '(positiveBitmap, negativeBitmap) := tickarrayBitmapExtension in
  let '(_, bitmap) :=
    getBitmap tickArrayStartIndex tickSpacing positiveBitmap negativeBitmap in
  let tickArrayOffset :=
    calcTickArrayOffsetInBitmap tickArrayStartIndex tickSpacing in
  match bitmap with
  | None => Throw (* reading [.length] of [undefined] *)
  | Some parts =>
      let u512 := u512FromParts_loop parts 0 0 in
      let bit := Z.land (Z.shiftr u512 tickArrayOffset) 1 in
      let initialized := bit =? 1 in
      Ret (initialized, tickArrayStartIndex)
  end.

(* 5. getFirstInitializedTickArray *)
Definition getFirstInitializedTickArray (fuel : nat)
    (tickCurrent tickSpacing : Z) (tickArrayBitmap : list Z)
    (tickarrayBitmapExtension : Extension) (zeroForOne : bool)
    : option (js (bool * Z)) :=
  let tickArrayStartIndex := getArrayStartIndex tickCurrent tickSpacing in
  let current : js (bool * Z) :=
    if isOverflowDefaultTickarrayBitmap [tickCurrent] tickSpacing
    then checkTickArrayIsInitialized tickArrayStartIndex tickSpacing
                                     tickarrayBitmapExtension
    else (u1024Bitmap <- bitmapListToU1024 tickArrayBitmap ;;
          Ret (checkCurrentTickArrayIsInitialized u1024Bitmap tickCurrent
                                                  tickSpacing))%js in
  match current with
  | Throw => Some Throw
  | Ret (true, startIndex) => Some (Ret (true, startIndex))
  | Ret (false, _) =>
      match nextInitializedTickArrayStartIndex fuel tickArrayBitmap
              tickarrayBitmapExtension tickArrayStartIndex tickSpacing
              zeroForOne with
      | None => None
      | Some Throw => Some Throw
      | Some (Ret nextStartIndex) =>
          Some (Ret (false, match nextStartIndex with
                            | None => tickArrayStartIndex
                            | Some next => next
                            end))
      end
  end.

(* 4. nextInitializedTick *)
Record Tick : Type := { liquidity_gross : Z }.

Record TickArray : Type := {
  start_tick_index : Z;
  ticks : list Tick
}.

(* while (offsetInArray >= 0) { ...; offsetInArray-- } *)
Fixpoint nextInitializedTick_down (fuel : nat) (ticks : list Tick)
    (offsetInArray : Z) : option (option Tick) :=
  match fuel with
  | O => None
  | S fuel' =>
      if offsetInArray >=? 0 then
        match js_index ticks offsetInArray with
        | Some tick =>
            if negb (liquidity_gross tick =? 0) then Some (Some tick)
            else nextInitializedTick_down fuel' ticks (offsetInArray - 1)
        | None => nextInitializedTick_down fuel' ticks (offsetInArray - 1)
        end
      else Some None
  end.

(* while (offsetInArray < ticks.length) { ...; offsetInArray++ } *)
Fixpoint nextInitializedTick_up (fuel : nat) (ticks : list Tick)
    (offsetInArray : Z) : option (option Tick) :=
  match fuel with
  | O => None
  | S fuel' =>
      if offsetInArray <? Z.of_nat (List.length ticks) then
        match js_index ticks offsetInArray with
        | Some tick =>
            if negb (liquidity_gross tick =? 0) then Some (Some tick)
            else nextInitializedTick_up fuel' ticks (offsetInArray + 1)
        | None => nextInitializedTick_up fuel' ticks (offsetInArray + 1)
        end
      else Some None
  end.

Definition nextInitializedTick (fuel : nat)
    (currentTickIndex tickSpacing : Z) (zeroForOne : bool)
    (tickArrayCurrent : TickArray) : option (option Tick) :=
  let currentTickArrayStartIndex :=
    getArrayStartIndex currentTickIndex tickSpacing in
  let startTickIndex := start_tick_index tickArrayCurrent in
  if negb (currentTickArrayStartIndex =? startTickIndex) then Some None
  else
    let offsetInArray := (currentTickIndex - startTickIndex) / tickSpacing in
    if zeroForOne
    then nextInitializedTick_down fuel (ticks tickArrayCurrent) offsetInArray
    else nextInitializedTick_up fuel (ticks tickArrayCurrent) (offsetInArray + 1).

End TickArrayLookup.

(** ** Buffers and the bn.js operations the sources use *)

Definition Buffer : Type := list Byte.byte.

Definition byte_of_Z (z : Z) : Byte.byte :=
  match Byte.of_N (Z.to_N (z mod 256)) with
  | Some b => b
  | None => Byte.x00
  end.

Definition byte_to_Z (b : Byte.byte) : Z := Z.of_N (Byte.to_N b).

(** [buffer.slice(start, end)] for non-negative bounds. *)
Definition slice (buffer : Buffer) (start stop : nat) : Buffer :=
  firstn (stop - start) (skipn start buffer).

Definition hexDigit (c : ascii) : option Z :=
  let n := Z.of_N (N_of_ascii c) in
  if (48 <=? n) && (n <=? 57) then Some (n - 48)
  else if (97 <=? n) && (n <=? 102) then Some (n - 87)
  else if (65 <=? n) && (n <=? 70) then Some (n - 55)
  else None.

(** [Buffer.from(s, 'hex')]: two digits a byte, stopping at the first pair
  that is not hexadecimal. *)
Fixpoint Buffer_from_hex (s : string) : Buffer :=
  match s with
  | String a (String b rest) =>
      match hexDigit a, hexDigit b with
      | Some h, Some l => byte_of_Z (16 * h + l) :: Buffer_from_hex rest
      | _, _ => []
      end
  | _ => []
  end.

Module BN.

(** A [BN] is an integer; the operations below are the ones of bn.js with
  the assertions it makes (an assertion that fails throws). *)

(* new BN(number): bn.js refuses numbers from 2^53 on. *)
Definition of_number (n : Z) : js Z :=
  if Z.abs n <? 2 ^ 53 then Ret n else Throw.

(* new BN(bytes, 'le') *)
Fixpoint of_bytes_le (bytes : Buffer) : Z :=
  match bytes with
  | [] => 0
  | b :: rest => byte_to_Z b + 256 * of_bytes_le rest
  end.

Definition byteLength (n : Z) : Z :=
  if n =? 0 then 0 else Z.log2 (Z.abs n) / 8 + 1.

Fixpoint to_bytes_le (len : nat) (n : Z) : Buffer :=
  match len with
  | O => []
  | S len' => byte_of_Z n :: to_bytes_le len' (n / 256)
  end.

(* num.toArrayLike(Buffer, 'le', length) *)
Definition toArrayLike_le (n : Z) (len : nat) : js Buffer :=
  if (byteLength n <=? Z.of_nat len) && (0 <? Z.of_nat len)
  then Ret (to_bytes_le len (Z.abs n))
  else Throw.

(* num.maskn(bits), num.shrn(bits): both assert a non-negative number. *)
Definition maskn (n : Z) (bits : Z) : js Z :=
  if n <? 0 then Throw else Ret (Z.land n (Z.ones bits)).

Definition shrn (n : Z) (bits : Z) : js Z :=
  if n <? 0 then Throw else Ret (Z.shiftr n bits).

Definition shln (n : Z) (bits : Z) : Z := Z.shiftl n bits.

Definition add (a b : Z) : Z := a + b.

End BN.

(** ** The 128-bit codec (layouts/cpmm.ts and raydium/cpmm.ts, same text) *)

Module UInt128.

Definition decodeUInt128 (buffer : Buffer) : Z :=
  let low := BN.of_bytes_le (slice buffer 0 8) in
  let high := BN.of_bytes_le (slice buffer 8 16) in
  BN.add (BN.shln high 64) low.

Definition encodeUInt128 (num : Z) : js Buffer :=
  (lowWord <- BN.maskn num 64 ;;
   low <- BN.toArrayLike_le lowWord 8 ;;
   highWord <- BN.shrn num 64 ;;
   high <- BN.toArrayLike_le highWord 8 ;;
   Ret (low ++ high))%js.

End UInt128.

(** ** Swap instructions (utils/tick_array_bitmap_ext.ts, second file) *)

Module PoolUtils.

(** A public key is its base-58 text. *)
Definition PublicKey : Type := string.

Record AccountMeta : Type := {
  pubkey : PublicKey;
  isSigner : bool;
  isWritable : bool
}.

Record TransactionInstruction : Type := {
  keys : list AccountMeta;
  programId : PublicKey;
  data : Buffer
}.

Inductive Direction : Type := BUY | SELL.

(** The address fields of [ClmmPoolKeys] and its numeric fields that the
  instruction builder can see. *)
Record ClmmPoolKeys : Type := {
  poolState : PublicKey;
  ammConfig : PublicKey;
  owner : PublicKey;
  tokenMint0 : PublicKey;
  tokenMint1 : PublicKey;
  tokenVault0 : PublicKey;
  tokenVault1 : PublicKey;
  observationKey : PublicKey;
  currentTickArray : PublicKey;
  nextTickArray1 : PublicKey;
  nextTickArray2 : PublicKey;
  bitmapExtension : PublicKey;
  mintDecimals0 : Z;
  mintDecimals1 : Z;
  tickSpacing : Z;
  liquidity : Z;
  sqrtPriceX64 : Z;
  tickCurrent : Z;
  status : Z
}.

Definition TOKEN_PROGRAM_ID : PublicKey :=
  "TokenkegQfeZyiNwAJbNbGKPFXCWuBvf9Ss623VQ5DA"%string.
Definition TOKEN_2022_PROGRAM_ID : PublicKey :=
  "TokenzQdBNbLqP5VEhdkAS6EPFLC1PHnBqCXEpPxuEb"%string.
Definition MEMO_PROGRAM_V2 : PublicKey :=
  "MemoSq4gqABAXKb96qnH8TysNcWxMyWCqXgDLGmfcHr"%string.

Definition packU64 (value : Z) : js Buffer :=
  if negb ((0 <=? value) && (value <? 2 ^ 64)) then Throw
  else (bn <- BN.of_number value ;; BN.toArrayLike_le bn 8)%js.

Definition Buffer_alloc (size : nat) (fill : Byte.byte) : Buffer := repeat fill size.

Definition makeClmmSwapInstruction (amount : Z)
    (tokenAccountIn tokenAccountOut : PublicKey) (poolKeys : ClmmPoolKeys)
    (payer : PublicKey) (action : Direction) : js TransactionInstruction :=
  let '(inputVault, outputVault, inputMint, outputMint) :=
    match action with
    | BUY => (tokenVault0 poolKeys, tokenVault1 poolKeys,
              tokenMint0 poolKeys, tokenMint1 poolKeys)
    | SELL => (tokenVault1 poolKeys, tokenVault0 poolKeys,
               tokenMint1 poolKeys, tokenMint0 poolKeys)
    end in
  let keys := [
    {| pubkey := payer; isSigner := true; isWritable := true |};
    {| pubkey := ammConfig poolKeys; isSigner := false; isWritable := false |};
    {| pubkey := poolState poolKeys; isSigner := false; isWritable := true |};
    {| pubkey := tokenAccountIn; isSigner := false; isWritable := true |};
    {| pubkey := tokenAccountOut; isSigner := false; isWritable := true |};
    {| pubkey := inputVault; isSigner := false; isWritable := true |};
    {| pubkey := outputVault; isSigner := false; isWritable := true |};
    {| pubkey := observationKey poolKeys; isSigner := false; isWritable := true |};
    {| pubkey := TOKEN_PROGRAM_ID; isSigner := false; isWritable := false |};
    {| pubkey := TOKEN_2022_PROGRAM_ID; isSigner := false; isWritable := false |};
    {| pubkey := MEMO_PROGRAM_V2; isSigner := false; isWritable := false |};
    {| pubkey := inputMint; isSigner := false; isWritable := false |};
    {| pubkey := outputMint; isSigner := false; isWritable := false |};
    {| pubkey := currentTickArray poolKeys; isSigner := false; isWritable := true |};
    {| pubkey := bitmapExtension poolKeys; isSigner := false; isWritable := true |};
    {| pubkey := nextTickArray1 poolKeys; isSigner := false; isWritable := true |};
    {| pubkey := nextTickArray2 poolKeys; isSigner := false; isWritable := true |}
  ] in
  let discriminator := Buffer_from_hex "2b04ed0b1ac91e62" in
  (amountBytes <- packU64 amount ;;
   thresholdBytes <- packU64 0 ;;
   let data :=
     discriminator ++ amountBytes ++ thresholdBytes
       ++ Buffer_alloc 16 Byte.x00 ++ [Byte.x01] in
   Ret {| keys := keys;
          programId := "CAMMCzo5YL8w4VFF8KVHrK22GGUsp5VTaW7grrKgrWqK"%string;
          data := data |})%js.

(** The payload the specification describes, field by field. *)
Definition clmm_swap_data (amount : Z) : Buffer :=
  [Byte.x2b; Byte.x04; Byte.xed; Byte.x0b;
   Byte.x1a; Byte.xc9; Byte.x1e; Byte.x62]     (* the discriminator *)
  ++ BN.to_bytes_le 8 amount                    (* the amount *)
  ++ repeat Byte.x00 8                          (* the other-amount threshold *)
  ++ repeat Byte.x00 16                         (* 16 zero bytes *)
  ++ [Byte.x01].                                (* the is-base-input flag *)

End PoolUtils.

(** ** The other swap instructions (utils/tick_array_bitmap_ext.ts, second
  file) and the 64-bit packer of the bonding-curve engine (part_003, second
  file) *)

Module SwapInstructions.
Import PoolUtils.
Local Open Scope string_scope.

Definition RAYDIUM_AMM_V4 : PublicKey :=
  "675kPX9MHTjS2zt1qfr1NYHuzeLXfQM9H24wFSUt1Mp8".
Definition RAYDIUM_CPMM : PublicKey :=
  "CPMMoo8L3F4NbTegBCKVNunggL7H1ZpdTHKxQB5qKP1C".
Definition RAYDIUM_CLMM : PublicKey :=
  "CAMMCzo5YL8w4VFF8KVHrK22GGUsp5VTaW7grrKgrWqK".

Record AmmV4PoolKeys : Type := {
  ammId : PublicKey;
  baseMint : PublicKey;
  quoteMint : PublicKey;
  baseDecimals : Z;
  quoteDecimals : Z;
  openOrders : PublicKey;
  targetOrders : PublicKey;
  baseVault : PublicKey;
  quoteVault : PublicKey;
  marketId : PublicKey;
  marketAuthority : PublicKey;
  marketBaseVault : PublicKey;
  marketQuoteVault : PublicKey;
  bids : PublicKey;
  asks : PublicKey;
  eventQueue : PublicKey;
  rayAuthorityV4 : PublicKey;
  openBookProgram : PublicKey;
  tokenProgramId : PublicKey
}.

(** The address fields of [CpmmPoolKeys]; its numeric fields are not read
  by the instruction builder. *)
Record CpmmPoolKeys : Type := {
  poolState : PublicKey;
  raydiumVaultAuth2 : PublicKey;
  ammConfig : PublicKey;
  poolCreator : PublicKey;
  token0Vault : PublicKey;
  token1Vault : PublicKey;
  lpMint : PublicKey;
  token0Mint : PublicKey;
  token1Mint : PublicKey;
  token0Program : PublicKey;
  token1Program : PublicKey;
  observationKey : PublicKey
}.

Local Open Scope list_scope.

Definition makeAmmV4SwapInstruction (amountIn minimumAmountOut : Z)
    (tokenAccountIn tokenAccountOut : PublicKey) (poolKeys : AmmV4PoolKeys)
    (owner : PublicKey) : js TransactionInstruction :=
  let keys := [
    {| pubkey := tokenProgramId poolKeys; isSigner := false; isWritable := false |};
    {| pubkey := ammId poolKeys; isSigner := false; isWritable := true |};
    {| pubkey := rayAuthorityV4 poolKeys; isSigner := false; isWritable := false |};
    {| pubkey := openOrders poolKeys; isSigner := false; isWritable := true |};
    {| pubkey := targetOrders poolKeys; isSigner := false; isWritable := true |};
    {| pubkey := baseVault poolKeys; isSigner := false; isWritable := true |};
    {| pubkey := quoteVault poolKeys; isSigner := false; isWritable := true |};
    {| pubkey := openBookProgram poolKeys; isSigner := false; isWritable := false |};
    {| pubkey := marketId poolKeys; isSigner := false; isWritable := true |};
    {| pubkey := bids poolKeys; isSigner := false; isWritable := true |};
    {| pubkey := asks poolKeys; isSigner := false; isWritable := true |};
    {| pubkey := eventQueue poolKeys; isSigner := false; isWritable := true |};
    {| pubkey := marketBaseVault poolKeys; isSigner := false; isWritable := true |};
    {| pubkey := marketQuoteVault poolKeys; isSigner := false; isWritable := true |};
    {| pubkey := marketAuthority poolKeys; isSigner := false; isWritable := false |};
    {| pubkey := tokenAccountIn; isSigner := false; isWritable := true |};
    {| pubkey := tokenAccountOut; isSigner := false; isWritable := true |};
    {| pubkey := owner; isSigner := true; isWritable := false |}
  ] in
  (amountInBytes <- packU64 amountIn ;;
   minimumAmountOutBytes <- packU64 minimumAmountOut ;;
   let data := [Byte.x09] ++ amountInBytes ++ minimumAmountOutBytes in
   Ret {| keys := keys; programId := RAYDIUM_AMM_V4; data := data |})%js.

Definition makeCpmmSwapInstruction (amountIn minimumAmountOut : Z)
    (tokenAccountIn tokenAccountOut : PublicKey) (poolKeys : CpmmPoolKeys)
    (owner : PublicKey) (action : Direction) : js TransactionInstruction :=
  let '(inputVault, outputVault, inputTokenProgram, outputTokenProgram,
        inputTokenMint, outputTokenMint) :=
    match action with
    | BUY => (token0Vault poolKeys, token1Vault poolKeys,
              token0Program poolKeys, token1Program poolKeys,
              token0Mint poolKeys, token1Mint poolKeys)
    | SELL => (token1Vault poolKeys, token0Vault poolKeys,
               token1Program poolKeys, token0Program poolKeys,
               token1Mint poolKeys, token0Mint poolKeys)
    end in
  let keys := [
    {| pubkey := owner; isSigner := true; isWritable := true |};
    {| pubkey := raydiumVaultAuth2 poolKeys; isSigner := false; isWritable := false |};
    {| pubkey := ammConfig poolKeys; isSigner := false; isWritable := false |};
    {| pubkey := poolState poolKeys; isSigner := false; isWritable := true |};
    {| pubkey := tokenAccountIn; isSigner := false; isWritable := true |};
    {| pubkey := tokenAccountOut; isSigner := false; isWritable := true |};
    {| pubkey := inputVault; isSigner := false; isWritable := true |};
    {| pubkey := outputVault; isSigner := false; isWritable := true |};
    {| pubkey := inputTokenProgram; isSigner := false; isWritable := false |};
    {| pubkey := outputTokenProgram; isSigner := false; isWritable := false |};
    {| pubkey := inputTokenMint; isSigner := false; isWritable := false |};
    {| pubkey := outputTokenMint; isSigner := false; isWritable := false |};
    {| pubkey := observationKey poolKeys; isSigner := false; isWritable := true |}
  ] in
  (amountInBytes <- packU64 amountIn ;;
   minimumAmountOutBytes <- packU64 minimumAmountOut ;;
   let data :=
     Buffer_from_hex "8fbe5adac41e33de" ++ amountInBytes
       ++ minimumAmountOutBytes in
   Ret {| keys := keys; programId := RAYDIUM_CPMM; data := data |})%js.

(** The same pool seen from its other side: the token 0 and token 1
  fields exchanged. *)
Definition mirrorCpmm (poolKeys : CpmmPoolKeys) : CpmmPoolKeys :=
  {| poolState := poolState poolKeys;
     raydiumVaultAuth2 := raydiumVaultAuth2 poolKeys;
     ammConfig := ammConfig poolKeys;
     poolCreator := poolCreator poolKeys;
     token0Vault := token1Vault poolKeys;
     token1Vault := token0Vault poolKeys;
     lpMint := lpMint poolKeys;
     token0Mint := token1Mint poolKeys;
     token1Mint := token0Mint poolKeys;
     token0Program := token1Program poolKeys;
     token1Program := token0Program poolKeys;
     observationKey := observationKey poolKeys |}.

Definition mirrorClmm (poolKeys : ClmmPoolKeys) : ClmmPoolKeys :=
  {| PoolUtils.poolState := PoolUtils.poolState poolKeys;
     PoolUtils.ammConfig := PoolUtils.ammConfig poolKeys;
     PoolUtils.owner := PoolUtils.owner poolKeys;
     tokenMint0 := tokenMint1 poolKeys;
     tokenMint1 := tokenMint0 poolKeys;
     tokenVault0 := tokenVault1 poolKeys;
     tokenVault1 := tokenVault0 poolKeys;
     PoolUtils.observationKey := PoolUtils.observationKey poolKeys;
     currentTickArray := currentTickArray poolKeys;
     nextTickArray1 := nextTickArray1 poolKeys;
     nextTickArray2 := nextTickArray2 poolKeys;
     bitmapExtension := bitmapExtension poolKeys;
     mintDecimals0 := mintDecimals0 poolKeys;
     mintDecimals1 := mintDecimals1 poolKeys;
     tickSpacing := tickSpacing poolKeys;
     liquidity := liquidity poolKeys;
     sqrtPriceX64 := sqrtPriceX64 poolKeys;
     tickCurrent := tickCurrent poolKeys;
     PoolUtils.status := PoolUtils.status poolKeys |}.

Definition otherDirection (action : Direction) : Direction :=
  match action with BUY => SELL | SELL => BUY end.

(* packUint64LE of the bonding-curve engine: [BigInt(num)] written by
   [DataView.setBigUint64(0, _, true)], which keeps the value modulo 2^64. *)
Definition packUint64LE (num : Z) : Buffer :=
  BN.to_bytes_le 8 (num mod 2 ^ 64).

End SwapInstructions.

(** ** The parser of the bitmap extension account
  (utils/tick_array_bitmap_ext.ts, first file) *)

Module BitmapExtension.

Definition EXTENSION_TICKARRAY_BITMAP_SIZE : nat := 14.

Record TickArrayBitmapExtension : Type := {
  poolId : Buffer;
  positiveTickArrayBitmap : list (list Z);
  negativeTickArrayBitmap : list (list Z)
}.

(* view.getBigUint64(offset, true): a RangeError when the 8 bytes do not
   lie inside the buffer. *)
Definition getBigUint64_le (view : Buffer) (offset : nat) : js Z :=
  if (List.length view <? offset + 8)%nat then Throw
  else Ret (BN.of_bytes_le (slice view offset (offset + 8))).

(* new Uint8Array(buffer, byteOffset, length): a RangeError when the range
   does not lie inside the buffer. *)
Definition Uint8Array_view (buffer : Buffer) (byteOffset length : nat)
    : js Buffer :=
  if (List.length buffer <? byteOffset + length)%nat then Throw
  else Ret (slice buffer byteOffset (byteOffset + length)).

Fixpoint parseInt64Array8_loop (count : nat) (view : Buffer) (offset : nat)
    (arr : list Z) : js (list Z * nat) :=
  match count with
  | O => Ret (arr, offset)
  | S count' =>
      (word <- getBigUint64_le view offset ;;
       parseInt64Array8_loop count' view (offset + 8) (arr ++ [word]))%js
  end.

Definition parseInt64Array8 (view : Buffer) (offset : nat)
    : js (list Z * nat) :=
  parseInt64Array8_loop 8 view offset [].

Fixpoint parseBitmaps_loop (count : nat) (view : Buffer) (offset : nat)
    (bitmaps : list (list Z)) : js (list (list Z) * nat) :=
  match count with
  | O => Ret (bitmaps, offset)
  | S count' =>
      ('(value, newOffset) <- parseInt64Array8 view offset ;;
       parseBitmaps_loop count' view newOffset (bitmaps ++ [value]))%js
  end.

Definition parseTickArrayBitmapExtension (buffer : Buffer)
    : js TickArrayBitmapExtension :=
  let view := buffer in
  let offset := 0%nat in
  let offset := (offset + 8)%nat in
  (poolIdArr <- Uint8Array_view buffer offset 32 ;;
   let offset := (offset + 32)%nat in
   '(positiveTickArrayBitmap, offset) <-
     parseBitmaps_loop EXTENSION_TICKARRAY_BITMAP_SIZE view offset [] ;;
   '(negativeTickArrayBitmap, offset) <-
     parseBitmaps_loop EXTENSION_TICKARRAY_BITMAP_SIZE view offset [] ;;
   Ret {| poolId := poolIdArr;
          positiveTickArrayBitmap := positiveTickArrayBitmap;
          negativeTickArrayBitmap := negativeTickArrayBitmap |})%js.

(** The word read at a byte offset. *)
Definition wordAt (buffer : Buffer) (offset : nat) : Z :=
  BN.of_bytes_le (slice buffer offset (offset + 8)).

(** The words of one segment, and of a run of segments, as the parser
  reads them when the buffer is long enough. *)
Definition wordsFrom (buffer : Buffer) (offset count : nat) : list Z :=
  map (fun k => wordAt buffer (offset + 8 * k)) (seq 0 count).

Definition segmentsFrom (buffer : Buffer) (offset count : nat)
    : list (list Z) :=
  map (fun k => wordsFrom buffer (offset + 64 * k) 8) (seq 0 count).

End BitmapExtension.

(** ** Transaction confirmation (part_000 for the AMM bot,
  pumpfun-copy-trading/utils.ts for the bonding-curve bot) *)

Module Confirmation.

(** What one poll decides. *)
Inductive Triage : Type := Confirmed | Failed | Retry.

Record Outcome : Type := {
  verdict : option bool;   (* [true], [false], or [null] *)
  polls : nat;             (* calls of [getTransaction] made *)
  waited : Z               (* milliseconds slept *)
}.

(** The [while (retries < maxRetries)] loop both bots share; [attempt k] is
  what the body of the [try] decides on the [k]-th lookup. *)
Fixpoint pollLoop (fuel : nat) (attempt : nat -> Triage)
    (maxRetries retryInterval : Z) (retries : Z) (polls : nat) (waited : Z)
    : option Outcome :=
  match fuel with
  | O => None
  | S fuel' =>
      if retries <? maxRetries then
        match attempt polls with
        | Confirmed =>
            Some {| verdict := Some true; polls := S polls; waited := waited |}
        | Failed =>
            Some {| verdict := Some false; polls := S polls; waited := waited |}
        | Retry =>
            pollLoop fuel' attempt maxRetries retryInterval
                     (retries + 1) (S polls) (waited + retryInterval)
        end
      else Some {| verdict := None; polls := polls; waited := waited |}
  end.

Section Lookups.
(** The value of a non-null [meta.err]: what the RPC node serialises for
  an on-chain error, a non-empty string or an object, so a truthy
  JavaScript value. *)
Variable TransactionError : Type.

Record Meta : Type := { err : option TransactionError }.

(* part_000: the response is read as [txnRes.value.meta.err]. *)
Record TxValue : Type := { value_meta : option Meta }.
Record Response : Type := { value : option TxValue }.

Definition triage_raydium (txnRes : js (option Response)) : Triage :=
  match txnRes with
  | Throw => Retry                       (* the call threw: caught *)
  | Ret None => Retry                    (* [null.value] throws: caught *)
  | Ret (Some res) =>
      match value res with
      | None => Retry
      | Some v =>
          match value_meta v with
          | None => Retry
          | Some m =>
              match err m with
              | None => Confirmed
              | Some _ => Failed
              end
          end
      end
  end.

(* utils.ts: the response is read as [txnRes.meta.err]. *)
Record ParsedTransactionWithMeta : Type := { meta : option Meta }.

Definition triage_pumpfun
    (txnRes : js (option ParsedTransactionWithMeta)) : Triage :=
  match txnRes with
  | Throw => Retry
  | Ret None => Retry                    (* logs that it was not found *)
  | Ret (Some res) =>
      match meta res with
      | None => Retry
      | Some m =>
          match err m with
          | None => Confirmed
          | Some _ => Failed
          end
      end
  end.

(** What [client.getTransaction] resolves to.  The [client] of part_000 is
  the bot's web3.js [Connection] (the same file reads [.value] off its
  [getTokenAccountsByOwner], and amm_v4.ts hands it to the SPL-token
  helpers), and [getTransaction] of a [Connection] resolves to [null] or
  to an object [{slot, transaction, meta, ...}], the shape utils.ts
  reads.  That object has no [value] property: to part_000, which tests
  [txnRes.value], it is an object whose [value] is [undefined]. *)
Definition read_by_part_000 (txnRes : js (option ParsedTransactionWithMeta))
    : js (option Response) :=
  match txnRes with
  | Throw => Throw
  | Ret None => Ret None
  | Ret (Some _) => Ret (Some {| value := None |})
  end.

(** The answers of one lookup that the statement about the two bots
  names: the transaction found with a null error, found with an error,
  and not found (or the lookup throwing). *)
Definition found_confirmed
    (txnRes : js (option ParsedTransactionWithMeta)) : Prop :=
  txnRes = Ret (Some {| meta := Some {| err := None |} |}).

Definition found_failed
    (txnRes : js (option ParsedTransactionWithMeta)) : Prop :=
  exists e, txnRes = Ret (Some {| meta := Some {| err := Some e |} |}).

Definition not_found
    (txnRes : js (option ParsedTransactionWithMeta)) : Prop :=
  txnRes = Throw \/ txnRes = Ret None.

Definition confirmTxn_raydium (fuel : nat)
    (getTransaction : nat -> js (option Response))
    (maxRetries retryInterval : Z) : option Outcome :=
  pollLoop fuel (fun k => triage_raydium (getTransaction k))
           maxRetries retryInterval 1 0 0.

Definition confirmTxn_pumpfun (fuel : nat)
    (getTransaction : nat -> js (option ParsedTransactionWithMeta))
    (maxRetries retryInterval : Z) : option Outcome :=
  pollLoop fuel (fun k => triage_pumpfun (getTransaction k))
           maxRetries retryInterval 1 0 0.
End Lookups.

Arguments err {TransactionError} _.
Arguments value_meta {TransactionError} _.
Arguments value {TransactionError} _.
Arguments meta {TransactionError} _.
Arguments triage_raydium {TransactionError} _.
Arguments triage_pumpfun {TransactionError} _.
Arguments confirmTxn_raydium {TransactionError} _ _ _ _.
Arguments read_by_part_000 {TransactionError} _.
Arguments found_confirmed {TransactionError} _.
Arguments found_failed {TransactionError} _.
Arguments not_found {TransactionError} _.
Arguments confirmTxn_pumpfun {TransactionError} _ _ _ _.

Definition default_maxRetries : Z := 20.
Definition default_retryInterval : Z := 3000.

End Confirmation.

(** ** Double-precision numbers (the [number]s of the pricing helpers) *)

(** A finite double is written as the rational it denotes.  An operation
  rounds its exact result to the nearest double, a tie going to the even
  significand; its result is [None] where the source leaves the finite
  doubles, by an overflow or a division by zero (the source goes on with
  [Infinity] or [NaN] there, which this model does not follow). *)
Module Double.
Local Open Scope Q_scope.

(** The binade of a number that is not zero: [2^(mag x - 1) <= |x| <
  2^(mag x)]. *)
Definition mag (x : Q) : Z :=
  let k := (Z.log2 (Z.abs (Qnum x)) - Z.log2 (Zpos (Qden x)))%Z in
  if Qle_bool (2 ^ k) (Qabs x) then (k + 1)%Z else k.

(** The nearest integer, a tie going to the even one. *)
Definition rne (x : Q) : Z :=
  let f := Qfloor x in
  match Qcompare (x - inject_Z f) (1 # 2) with
  | Lt => f
  | Gt => (f + 1)%Z
  | Eq => if Z.even f then f else (f + 1)%Z
  end.

(** The exponent of the last place: 53 bits of significand, and the
  spacing 2^-1074 of the subnormal numbers at the bottom. *)
Definition fexp (x : Q) : Z := Z.max (mag x - 53) (-1074).

(** The nearest binary64 number (exponent range not bounded above). *)
Definition round (x : Q) : Q :=
  let x := Qred x in
  let e := fexp x in
  Qred (inject_Z (rne (x / 2 ^ e)) * 2 ^ e).

(** The unit roundoff and half of the smallest positive double. *)
Definition u : Q := 1 # (2 ^ 53).
Definition eta : Q := 1 # (2 ^ 1075).

(* Number.MAX_VALUE *)
Definition MAX_VALUE : Q := inject_Z ((2 ^ 53 - 1) * 2 ^ 971).

(** [x] lies between [2^-k] and [2^k]. *)
Definition within (k : Z) (x : Q) : Prop := 2 ^ (- k) <= x <= 2 ^ k.

(** The double an exact result becomes, when that is a finite one. *)
Definition finite (x : Q) : option Q :=
  let r := round x in
  if Qle_bool (Qabs r) MAX_VALUE then Some r else None.

Definition add (x y : Q) : option Q := finite (x + y).
Definition sub (x y : Q) : option Q := finite (x - y).
Definition mul (x y : Q) : option Q := finite (x * y).
Definition div (x y : Q) : option Q :=
  if Qeq_bool y 0 then None else finite (x / y).

(** [Number(x.toFixed(9))] and [parseFloat(x.toFixed(9))] for a finite
  [x]: from 10^21 on [toFixed] prints the number as [toString] does, and
  it reads back as itself; below, it prints [n / 10^9] for the integer
  [n] nearest to [|x| * 10^9], the larger one on a tie, with the sign of
  [x], and the reading rounds that decimal to the nearest double. *)
Definition toFixed9 (x : Q) : option Q :=
  if Qle_bool (inject_Z (10 ^ 21)) (Qabs x) then Some x
  else
    let n := Qfloor (Qabs x * inject_Z (10 ^ 9) + (1 # 2)) in
    let d := inject_Z n / inject_Z (10 ^ 9) in
    Some (round (if Qle_bool 0 x then d else - d)).

(** [Math.round(x)] for a finite double [x]: the nearest integer, a tie
  going up; the result is a double. *)
Definition Math_round (x : Q) : Q := inject_Z (Qfloor (x + (1 # 2))).

Definition bind {A B : Type} (m : option A) (k : A -> option B) : option B :=
  match m with
  | Some a => k a
  | None => None
  end.
End Double.

Declare Scope double_scope.
Delimit Scope double_scope with dbl.
Notation "x <- m ;; k" := (Double.bind m (fun x => k))
  (at level 61, m at next level, right associativity) : double_scope.

(** ** Pricing helpers *)

Module AmmV4.
Local Open Scope Q_scope.
(* raydium/amm_v4.ts *)
Definition solForTokens
    (solAmount baseVaultBalance quoteVaultBalance swapFee : Q) : option Q :=
  (rate <- Double.div swapFee 100 ;;
   fee <- Double.mul solAmount rate ;;
   effectiveSolUsed <- Double.sub solAmount fee ;;
   constantProduct <- Double.mul baseVaultBalance quoteVaultBalance ;;
   denominator <- Double.add quoteVaultBalance effectiveSolUsed ;;
   updatedBaseVaultBalance <- Double.div constantProduct denominator ;;
   tokensReceived <- Double.sub baseVaultBalance updatedBaseVaultBalance ;;
   Double.toFixed9 tokensReceived)%dbl.

Definition tokensForSol
    (tokenAmount baseVaultBalance quoteVaultBalance swapFee : Q) : option Q :=
  (rate <- Double.div swapFee 100 ;;
   kept <- Double.sub 1 rate ;;
   effectiveTokensSold <- Double.mul tokenAmount kept ;;
   constantProduct <- Double.mul baseVaultBalance quoteVaultBalance ;;
   denominator <- Double.add baseVaultBalance effectiveTokensSold ;;
   updatedQuoteVaultBalance <- Double.div constantProduct denominator ;;
   solReceived <- Double.sub quoteVaultBalance updatedQuoteVaultBalance ;;
   Double.toFixed9 solReceived)%dbl.
End AmmV4.

Module Cpmm.
Local Open Scope Q_scope.
(* raydium/cpmm.ts *)
Definition solForTokens
    (solAmount baseVaultBalance quoteVaultBalance swapFee : Q) : option Q :=
  (rate <- Double.div swapFee 100 ;;
   fee <- Double.mul solAmount rate ;;
   effectiveSolUsed <- Double.sub solAmount fee ;;
   constantProduct <- Double.mul baseVaultBalance quoteVaultBalance ;;
   denominator <- Double.add quoteVaultBalance effectiveSolUsed ;;
   updatedBaseVaultBalance <- Double.div constantProduct denominator ;;
   tokensReceived <- Double.sub baseVaultBalance updatedBaseVaultBalance ;;
   Double.toFixed9 tokensReceived)%dbl.

Definition tokensForSol
    (tokenAmount baseVaultBalance quoteVaultBalance swapFee : Q) : option Q :=
  (rate <- Double.div swapFee 100 ;;
   kept <- Double.sub 1 rate ;;
   effectiveTokensSold <- Double.mul tokenAmount kept ;;
   constantProduct <- Double.mul baseVaultBalance quoteVaultBalance ;;
   denominator <- Double.add baseVaultBalance effectiveTokensSold ;;
   updatedQuoteVaultBalance <- Double.div constantProduct denominator ;;
   solReceived <- Double.sub quoteVaultBalance updatedQuoteVaultBalance ;;
   Double.toFixed9 solReceived)%dbl.
End Cpmm.

Definition default_swapFee : Q := 25 # 100.

Module PricingSpec.
Local Open Scope Q_scope.
(** The formula in the words of the specification. *)
Definition tokensOut (solAmount baseReserve quoteReserve fee : Q) : Q :=
  let effective := solAmount * (1 - fee / 100) in
  let k := baseReserve * quoteReserve in
  let newBase := k / (quoteReserve + effective) in
  baseReserve - newBase.

End PricingSpec.

Module BondingCurve.
Local Open Scope Q_scope.
(* part_004 *)
Definition solForTokens (solSpent solReserves tokenReserves : Q) : option Q :=
  (newSolReserves <- Double.add solReserves solSpent ;;
   product <- Double.mul solReserves tokenReserves ;;
   newTokenReserves <- Double.div product newSolReserves ;;
   tokenReceived <- Double.sub tokenReserves newTokenReserves ;;
   Some (Double.Math_round tokenReceived))%dbl.

Definition tokensForSol (tokensToSell solReserves tokenReserves : Q)
    : option Q :=
  (newTokenReserves <- Double.add tokenReserves tokensToSell ;;
   product <- Double.mul solReserves tokenReserves ;;
   newSolReserves <- Double.div product newTokenReserves ;;
   solReceived <- Double.sub solReserves newSolReserves ;;
   Some solReceived)%dbl.
End BondingCurve.

(** ** The kernel's binary64 numbers, to check the model of doubles against *)

Module Binary64.
Import PrimFloat.

(** The rational a finite binary64 number denotes. *)
Definition of_float (f : float) : option Q :=
  match FloatOps.Prim2SF f with
  | SpecFloat.S754_zero _ => Some 0%Q
  | SpecFloat.S754_finite s m e =>
      Some (Qred ((if s then - (1) else 1) * inject_Z (Zpos m) * 2 ^ e)%Q)
  | _ => None
  end.

Local Open Scope float_scope.

(* The arithmetic of the four helpers, before [toFixed] and [Math.round]. *)
Definition amm_tokensReceived
    (solAmount baseVaultBalance quoteVaultBalance swapFee : float) : float :=
  let effectiveSolUsed := solAmount - solAmount * (swapFee / 100) in
  let constantProduct := baseVaultBalance * quoteVaultBalance in
  let updatedBaseVaultBalance :=
    constantProduct / (quoteVaultBalance + effectiveSolUsed) in
  baseVaultBalance - updatedBaseVaultBalance.

Definition amm_solReceived
    (tokenAmount baseVaultBalance quoteVaultBalance swapFee : float) : float :=
  let effectiveTokensSold := tokenAmount * (1 - swapFee / 100) in
  let constantProduct := baseVaultBalance * quoteVaultBalance in
  let updatedQuoteVaultBalance :=
    constantProduct / (baseVaultBalance + effectiveTokensSold) in
  quoteVaultBalance - updatedQuoteVaultBalance.

Definition bonding_tokenReceived
    (solSpent solReserves tokenReserves : float) : float :=
  let newSolReserves := solReserves + solSpent in
  let newTokenReserves := (solReserves * tokenReserves) / newSolReserves in
  tokenReserves - newTokenReserves.

Definition bonding_solReceived
    (tokensToSell solReserves tokenReserves : float) : float :=
  let newTokenReserves := tokenReserves + tokensToSell in
  let newSolReserves := (solReserves * tokenReserves) / newTokenReserves in
  solReserves - newSolReserves.

(** Whether an operation [f] of the model and the operation [op] of the
  kernel agree on a pair of doubles: the same finite number, or no finite
  number on either side. *)
Definition agree (op : float -> float -> float) (f : Q -> Q -> option Q)
    (p : float * float) : bool :=
  match of_float (fst p), of_float (snd p) with
  | Some x, Some y =>
      match of_float (op (fst p) (snd p)), f x y with
      | Some r, Some r' => Qeq_bool r r'
      | None, None => true
      | _, _ => false
      end
  | _, _ => false
  end.

(** Pairs of doubles that meet the corners of the arithmetic: ties on
  either side of an even significand, subnormal and underflowing results,
  the largest double and the overflow threshold, zero divisors, and a few
  at random. *)
Definition samples : list (float * float) := [
  (0x1.999999999999ap-4, 0x1.999999999999ap-3);
  (0x1.0000000000000p+0, 0x1.0000000000000p-53);
  (0x1.0000000000001p+0, 0x1.0000000000000p-53);
  (0x1.0000000000000p+0, 0x1.8000000000000p+1);
  (0x1.0000000000000p+1, 0x1.8000000000000p+1);
  ((- 0x1.0000000000000p+0), 0x1.8000000000000p+1);
  (0x1.c6bf526340000p+49, 0x1.47ae147ae147bp-9);
  (0x1.9000000000000p+6, 0x1.feb851eb851ecp-1);
  (0x0.0000000000001p-1022, 0x0.0000000000001p-1022);
  (0x0.0000000000001p-1022, 0x1.0000000000000p-1);
  (0x0.0000000000003p-1022, 0x1.0000000000000p-1);
  (0x0.0000000000005p-1022, 0x1.0000000000000p-2);
  (0x1.0000000000000p-1022, 0x1.fffffffffffffp-1);
  (0x1.0000000000000p-1022, (- 0x0.0000000000001p-1022));
  (0x1.fffffffffffffp+1023, 0x1.fffffffffffffp+1023);
  (0x1.fffffffffffffp+1023, 0x1.0000000000000p+970);
  (0x1.fffffffffffffp+1023, 0x1.0000000000000p+969);
  ((- 0x1.fffffffffffffp+1023), 0x1.0000000000000p+970);
  (0x1.fffffffffffffp+1023, 0x1.0000000000000p+1);
  (0x1.fffffffffffffp+1023, 0x1.0000000000000p-1);
  (0x1.0000000000000p+0, 0);
  (0, 0);
  (0, 0x1.4000000000000p+2);
  (0x1.0000000000000p+53, 0x1.0000000000000p+0);
  (0x1.0000000000000p+53, 0x1.8000000000000p+1);
  (0x1.6345785d8a000p+56, 0x1.f000000000000p+4);
  (0x1.4d1120d7b1600p+61, 0x1.f000000000000p+4);
  (0x1.7e43c8800759cp+996, 0x1.7e43c8800759cp+996);
  (0x1.56e1fc2f8f359p-997, 0x1.56e1fc2f8f359p-997);
  (0x1.87e92154ef7acp-665, 0x1.4e718d7d7625ap+664);
  ((- 0x1.8f4d3dda1494cp+21), 0x1.7734dc7fde805p-6);
  ((- 0x1.2f45e309d6b79p+29), (- 0x1.a13ff79cb9e86p+47));
  (0x1.7253e18187993p-97, (- 0x1.89e7d17362f25p-50));
  ((- 0x1.0ab8aa26b7f62p+49), (- 0x1.73f77f6fa5db8p+71));
  ((- 0x1.28518a66b0d38p+4), 0x1.8743fd4ea65d0p+7);
  (0x1.e12b230b17d0bp-106, 0x1.c732107b37e14p-124);
  (0x1.d7a9497491e23p-8, 0x1.a3ea23bd03346p-10);
  (0x1.15c1da9964aefp-111, (- 0x1.6822a4735af1cp-117));
  (0x1.4105cb53302fcp-84, 0x1.834c63acb6266p-131);
  (0x1.c42b7902a174fp-111, 0x1.d8b9b1b98fbe4p-112)
].
End Binary64.

(** ** The copy-trading orchestrator (part_003) *)

Module Orchestrator.

Local Open Scope string_scope.

(** *** Strings and the regular expressions of the feed parser *)

Definition dquote : ascii := ascii_of_nat 34.

(** [hay.includes(needle)] *)
Fixpoint includes (needle hay : string) : bool :=
  String.prefix needle hay
  || match hay with
     | EmptyString => false
     | String _ rest => includes needle rest
     end.

(** The text after the literal [p] when [s] starts with [p]. *)
Fixpoint dropPrefix (p s : string) : option string :=
  match p with
  | EmptyString => Some s
  | String a p' =>
      match s with
      | EmptyString => None
      | String b s' => if Ascii.eqb a b then dropPrefix p' s' else None
      end
  end.

(** [.] without the [s] flag matches anything but a line terminator. *)
Definition isLineTerminator (c : ascii) : bool :=
  Ascii.eqb c (ascii_of_nat 10) || Ascii.eqb c (ascii_of_nat 13).

Definition isDigitOrDot (c : ascii) : bool :=
  let n := nat_of_ascii c in
  ((48 <=? n)%nat && (n <=? 57)%nat) || Ascii.eqb c "."%char.

(** The lazy group [(.*?)] and the closing double quote after it, from the
  start of [s]: the shortest run up to a double quote. *)
Fixpoint lazyUntilQuote (s : string) : option string :=
  match s with
  | EmptyString => None
  | String c rest =>
      if Ascii.eqb c dquote then Some EmptyString
      else if isLineTerminator c then None
      else option_map (String c) (lazyUntilQuote rest)
  end.

(** [([\d.]+)] from the start of [s]: the longest run, at least one long. *)
Fixpoint takeNumeric (s : string) : string :=
  match s with
  | EmptyString => EmptyString
  | String c rest =>
      if isDigitOrDot c then String c (takeNumeric rest) else EmptyString
  end.

(** The key of a field as it stands in the patterns: the name in double
  quotes and a colon, followed by an opening double quote for a text
  field and by nothing for a numeric one. *)
Definition quotedKey (name : string) : string :=
  String dquote (name ++ String dquote (String ":"%char (String dquote EmptyString))).

Definition numericKey (name : string) : string :=
  String dquote (name ++ String dquote (String ":"%char EmptyString)).

(** [regex.exec(data)] tries the pattern at every position from the left;
  [attempt] is the pattern anchored at one position. *)
Fixpoint execFirst (attempt : string -> option string) (data : string)
    : option string :=
  match attempt data with
  | Some capture => Some capture
  | None =>
      match data with
      | EmptyString => None
      | String _ rest => execFirst attempt rest
      end
  end.

(* the pattern of a text field: its key, then the lazy group and the quote *)
Definition matchQuoted (name data : string) : option string :=
  execFirst (fun s =>
    match dropPrefix (quotedKey name) s with
    | Some rest => lazyUntilQuote rest
    | None => None
    end) data.

(* the pattern of a numeric field: its key, then the group [\d.]+ *)
Definition matchNumeric (name data : string) : option string :=
  execFirst (fun s =>
    match dropPrefix (numericKey name) s with
    | Some rest =>
        match takeNumeric rest with
        | EmptyString => None
        | capture => Some capture
        end
    | None => None
    end) data.

(* the pattern of the transaction type: its key, then (buy|sell) and the quote *)
Definition matchType (data : string) : option string :=
  execFirst (fun s =>
    match dropPrefix (quotedKey "type") s with
    | Some rest =>
        match dropPrefix (String.append "buy" (String dquote EmptyString)) rest with
        | Some _ => Some "buy"
        | None =>
            match dropPrefix (String.append "sell" (String dquote EmptyString)) rest with
            | Some _ => Some "sell"
            | None => None
            end
        end
    | None => None
    end) data.

Record TransactionDetails : Type := {
  transaction_type : option string;
  trader_level : option string;
  token_amount : option string;
  maker_address : option string;
  price_sol : option string;
  price_usd : option string;
  total_sol : option string;
  total_usd : option string;
  created_at : option string;
  token_address : option string;
  pair_address : option string;
  token_name : option string;
  token_code : option string;
  protocol : option string
}.

Definition extractTransactionDetails (data : string) : TransactionDetails := {|
  transaction_type := matchType data;
  trader_level := matchQuoted "trader_level" data;
  token_amount := matchNumeric "token_amount" data;
  maker_address := matchQuoted "maker_address" data;
  price_sol := matchNumeric "price_sol" data;
  price_usd := matchNumeric "price_usd" data;
  total_sol := matchNumeric "total_sol" data;
  total_usd := matchNumeric "total_usd" data;
  created_at := matchQuoted "created_at" data;
  token_address := matchQuoted "tokenAddress" data;
  pair_address := matchQuoted "pair_address" data;
  token_name := matchQuoted "tokenName" data;
  token_code := matchQuoted "tokenTicker" data;
  protocol := matchQuoted "protocol" data
|}.

(** *** Configuration, session state, the outside world *)

Record Config : Type := {
  trackWallets : string;
  maxSlippage : Z;
  solIn : Q;
  maxSolSpend : Q;
  allowRebuy : bool;
  maxBuyAttempts : Z
}.

Inductive LogLine : Type :=
| AlreadySpent (spent max : Q)
| AlreadyBought (dex name : string) (attempts : Z)
| AlreadyAttempted (dex name : string) (attempts : Z)
| TryingToBuy (dex name : string) (attempts : Z)
| Bought (dex name : string) (attempts : Z)
| FailedToBuy (dex name : string) (attempts : Z)
| TryingToSell (dex name : string) (attempts : Z)
| FailedToSell (dex name : string) (attempts : Z)
| NotSupported (transaction_type protocol token_name token_address : option string).

(** What the process does that can be seen from outside, oldest first. *)
Inductive Event : Type :=
| Logged (line : LogLine)
| UnderlyingBuy (dex address : string) (solAmount : Q) (slippage : Z)
| UnderlyingSell (dex address : string) (percentage slippage : Z).

(** How a call of a protocol's buy or sell ends. *)
Inductive TradeResult : Type :=
| ReturnsTrue
| ReturnsFalse
| ReturnsUndefined
| Raises.

(** The global runtime state ([buyList], [spent]) with the trace of events
  and the number of protocol calls made so far. *)
Record State : Type := {
  buyList : list string;
  spent : Q;
  trace : list Event;
  tradeCalls : nat
}.

Definition initialState : State :=
  {| buyList := []; spent := 0%Q; trace := []; tradeCalls := 0 |}.

Definition log (line : LogLine) (st : State) : State :=
  {| buyList := buyList st; spent := spent st;
     trace := trace st ++ [Logged line]; tradeCalls := tradeCalls st |}.

(** The protocol operations are outside the orchestrator: [world k] is how
  the [k]-th call of one of them ends. *)
Definition World : Type := nat -> TradeResult.

Definition callTrade (world : World) (e : Event) (st : State)
    : TradeResult * State :=
  (world (tradeCalls st),
   {| buyList := buyList st; spent := spent st;
      trace := trace st ++ [e]; tradeCalls := S (tradeCalls st) |}).

Definition Array_includes (l : list string) (x : string) : bool :=
  existsb (String.eqb x) l.

(** *** buyToken *)

Fixpoint buyToken_loop (fuel : nat) (cfg : Config) (world : World)
    (dex name address : string) (solAmount : Q) (slippage : Z)
    (attempts : Z) (st : State) : option State :=
  match fuel with
  | O => None
  | S fuel' =>
      (* await sleep(500) *)
      if negb (allowRebuy cfg) && Array_includes (buyList st) address
      then Some (log (AlreadyBought dex name attempts) st)
      else if attempts >? maxBuyAttempts cfg
      then Some (log (AlreadyAttempted dex name attempts) st)
      else
        let attempts := attempts + 1 in
        let st := log (TryingToBuy dex name attempts) st in
        let st := {| buyList := buyList st ++ [address]; spent := spent st;
                     trace := trace st; tradeCalls := tradeCalls st |} in
        let '(bought, st) :=
          callTrade world (UnderlyingBuy dex address solAmount slippage) st in
        match bought with
        | ReturnsTrue =>
            let st := {| buyList := buyList st;
                         spent := (spent st + solAmount)%Q;
                         trace := trace st; tradeCalls := tradeCalls st |} in
            Some (log (Bought dex name attempts) st)
        | Raises =>
            buyToken_loop fuel' cfg world dex name address solAmount slippage
                          attempts (log (FailedToBuy dex name attempts) st)
        | ReturnsFalse | ReturnsUndefined =>
            buyToken_loop fuel' cfg world dex name address solAmount slippage
                          attempts st
        end
  end.

Definition buyToken (fuel : nat) (cfg : Config) (world : World)
    (dex name address : string) (solAmount : Q) (slippage : Z) (st : State)
    : option State :=
  buyToken_loop fuel cfg world dex name address solAmount slippage 0 st.

(** *** sellToken *)

Fixpoint sellToken_loop (fuel : nat) (world : World)
    (dex name address : string) (slippage : Z)
    (attempts : Z) (st : State) : option State :=
  match fuel with
  | O => None
  | S fuel' =>
      let st := log (TryingToSell dex name attempts) st in
      let '(sold, st) :=
        callTrade world (UnderlyingSell dex address 100 slippage) st in
      match sold with
      | ReturnsUndefined | ReturnsTrue => Some st
      | ReturnsFalse =>
          sellToken_loop fuel' world dex name address slippage (attempts + 1) st
      | Raises =>
          sellToken_loop fuel' world dex name address slippage (attempts + 1)
                         (log (FailedToSell dex name attempts) st)
      end
  end.

Definition sellToken (fuel : nat) (world : World)
    (dex name address : string) (slippage : Z) (st : State) : option State :=
  sellToken_loop fuel world dex name address slippage 0 st.

(** *** filterMessages and the message handler *)

(** [new RegExp(`.*(${fragment}).*`, 's').exec(msg)] for a fragment without
  regular-expression metacharacters (a wallet address, or nothing): it
  matches when [msg] contains the fragment, and then [match[0]] is the
  whole of [msg], the two [.*] taking everything around the group. *)
Definition trackRegexMatch (fragment msg : string) : option string :=
  if includes fragment msg then Some msg else None.

Definition filterMessages (cfg : Config) (msg : string)
    : option TransactionDetails :=
  match trackRegexMatch (trackWallets cfg) msg with
  | Some whole => Some (extractTransactionDetails whole)
  | None => None
  end.

Inductive Action : Type :=
| BuyAction (dex name address : string)
| SellAction (dex name address : string).

(** [x || ''] *)
Definition orEmpty (x : option string) : string :=
  match x with
  | Some s => if String.eqb s "" then "" else s
  | None => ""
  end.

(** [protocolMap[protocol || '']?.[transaction_type || '']] *)
Definition protocolMap (filtered : TransactionDetails) : option Action :=
  let name := orEmpty (token_name filtered) in
  let p := orEmpty (protocol filtered) in
  let t := orEmpty (transaction_type filtered) in
  if String.eqb p "Pump V1" then
    if String.eqb t "sell"
    then Some (SellAction "pf" name (orEmpty (token_address filtered)))
    else if String.eqb t "buy"
    then Some (BuyAction "pf" name (orEmpty (token_address filtered)))
    else None
  else if String.eqb p "Raydium V4" then
    if String.eqb t "sell"
    then Some (SellAction "ra" name (orEmpty (pair_address filtered)))
    else None
  else None.

(** What the handler does with a message, before any trade runs. *)
Inductive Decision : Type :=
| SkipOverBudget
| Ignore
| Unsupported (filtered : TransactionDetails)
| Dispatch (action : Action).

Definition decide (cfg : Config) (st : State) (message : string) : Decision :=
  if Qle_bool (maxSolSpend cfg) (spent st) then SkipOverBudget
  else
    match filterMessages cfg message with
    | None => Ignore
    | Some filtered =>
        match maker_address filtered with
        | None => Ignore
        | Some maker =>
            if String.eqb maker "" || negb (includes (trackWallets cfg) maker)
            then Ignore
            else
              match protocolMap filtered with
              | None => Unsupported filtered
              | Some action => Dispatch action
              end
        end
    end.

Definition runAction (fuel : nat) (cfg : Config) (world : World)
    (action : Action) (st : State) : option State :=
  match action with
  | BuyAction dex name address =>
      buyToken fuel cfg world dex name address (solIn cfg) (maxSlippage cfg) st
  | SellAction dex name address =>
      sellToken fuel world dex name address (maxSlippage cfg) st
  end.

(* ws.on('message', ...) *)
Definition onMessage (fuel : nat) (cfg : Config) (world : World)
    (message : string) (st : State) : option State :=
  match decide cfg st message with
  | SkipOverBudget =>
      Some (log (AlreadySpent (spent st) (maxSolSpend cfg)) st)
  | Ignore => Some st
  | Unsupported filtered =>
      Some (log (NotSupported (transaction_type filtered) (protocol filtered)
                              (token_name filtered) (token_address filtered)) st)
  | Dispatch action => runAction fuel cfg world action st
  end.

(** Messages handled one after the other, each to its end. *)
Fixpoint onMessages (fuel : nat) (cfg : Config) (world : World)
    (messages : list string) (st : State) : option State :=
  match messages with
  | [] => Some st
  | m :: rest =>
      match onMessage fuel cfg world m st with
      | Some st' => onMessages fuel cfg world rest st'
      | None => None
      end
  end.

(** A buy signal: the arguments of one [buyToken] call. *)
Record BuySignal : Type := {
  signal_dex : string;
  signal_name : string;
  signal_address : string;
  signal_solAmount : Q;
  signal_slippage : Z
}.

Fixpoint buySignals (fuel : nat) (cfg : Config) (world : World)
    (signals : list BuySignal) (st : State) : option State :=
  match signals with
  | [] => Some st
  | s :: rest =>
      match buyToken fuel cfg world (signal_dex s) (signal_name s)
                     (signal_address s) (signal_solAmount s)
                     (signal_slippage s) st with
      | Some st' => buySignals fuel cfg world rest st'
      | None => None
      end
  end.

(** The calls of a protocol's buy for [address] in a trace. *)
Definition isBuyOf (address : string) (e : Event) : bool :=
  match e with
  | UnderlyingBuy _ a _ _ => String.eqb a address
  | _ => false
  end.

Definition isUnderlyingBuy (e : Event) : bool :=
  match e with
  | UnderlyingBuy _ _ _ _ => true
  | _ => false
  end.

Definition buyCalls (address : string) (tr : list Event) : nat :=
  List.length (filter (isBuyOf address) tr).

Definition allBuyCalls (tr : list Event) : nat :=
  List.length (filter isUnderlyingBuy tr).

(** What holds of the session between two buy signals when re-buy is off:
  no address has more than one call of a protocol's buy, and an address
  with a call is in the buy list. *)
Definition session_invariant (st : State) : Prop :=
  forall a,
    (buyCalls a (trace st) <= 1)%nat
    /\ (buyCalls a (trace st) = 1%nat -> Array_includes (buyList st) a = true).

(** The calls of a protocol's sell in a trace. *)
Definition isUnderlyingSell (e : Event) : bool :=
  match e with
  | UnderlyingSell _ _ _ _ => true
  | _ => false
  end.

Definition sellCalls (tr : list Event) : nat :=
  List.length (filter isUnderlyingSell tr).

(** An answer of a protocol's sell that makes [sellToken] go round again,
  and one that makes it stop. *)
Definition sellFails (r : TradeResult) : Prop :=
  r = ReturnsFalse \/ r = Raises.

Definition sellStops (r : TradeResult) : Prop :=
  r = ReturnsTrue \/ r = ReturnsUndefined.

(** What the message handler may do under configuration [cfg]: write a
  log line, buy on the bonding-curve protocol with the configured amount
  and slippage, sell everything on one of the two protocols. *)
Definition handlerEvent (cfg : Config) (e : Event) : Prop :=
  match e with
  | Logged _ => True
  | UnderlyingBuy dex _ solAmount slippage =>
      dex = "pf" /\ solAmount = solIn cfg /\ slippage = maxSlippage cfg
  | UnderlyingSell dex _ percentage slippage =>
      (dex = "pf" \/ dex = "ra") /\ percentage = 100
      /\ slippage = maxSlippage cfg
  end.

(** Every character of [s] satisfies [p]. *)
Fixpoint allChars (p : ascii -> bool) (s : string) : bool :=
  match s with
  | EmptyString => true
  | String c rest => p c && allChars p rest
  end.

(** What a capture of a text pattern, of a numeric pattern and of the
  type pattern must be for the message [data]: present only where the
  message holds the key followed by the capture. *)
Definition quotedCapture (name data : string) (capture : option string)
    : Prop :=
  match capture with
  | None => True
  | Some v =>
      includes (quotedKey name ++ v ++ String dquote EmptyString) data = true
      /\ allChars (fun c => negb (Ascii.eqb c dquote)
                            && negb (isLineTerminator c)) v = true
  end.

Definition numericCapture (name data : string) (capture : option string)
    : Prop :=
  match capture with
  | None => True
  | Some v =>
      includes (numericKey name ++ v) data = true
      /\ v <> EmptyString
      /\ allChars isDigitOrDot v = true
  end.

Definition typeCapture (data : string) (capture : option string) : Prop :=
  match capture with
  | None => True
  | Some v =>
      (v = "buy" \/ v = "sell")
      /\ includes (quotedKey "type" ++ v ++ String dquote EmptyString) data
         = true
  end.


End Orchestrator.

(** Sample inputs for the orchestrator. *)

Module OrchestratorExamples.
Import Orchestrator.
Local Open Scope string_scope.

Definition q : string := String dquote "".

(** A feed message: a buy on the bonding-curve protocol by a wallet. *)
Definition message_buy : string :=
  "{" ++ q ++ "type" ++ q ++ ":" ++ q ++ "buy" ++ q ++ ","
      ++ q ++ "maker_address" ++ q ++ ":" ++ q ++ "SomeWallet" ++ q ++ ","
      ++ q ++ "protocol" ++ q ++ ":" ++ q ++ "Pump V1" ++ q ++ ","
      ++ q ++ "tokenAddress" ++ q ++ ":" ++ q ++ "Mint1" ++ q ++ "}".

Definition cfg_empty : Config :=
  {| trackWallets := ""; maxSlippage := 5; solIn := 1 # 100;
     maxSolSpend := 1; allowRebuy := false; maxBuyAttempts := 3 |}.

Definition spent_out : State :=
  {| buyList := []; spent := 1; trace := []; tradeCalls := 0 |}.

Definition signal1 : BuySignal :=
  {| signal_dex := "pf"; signal_name := "T"; signal_address := "Mint1";
     signal_solAmount := 1 # 100; signal_slippage := 5 |}.

Definition always_fails : World := fun _ => ReturnsFalse.
End OrchestratorExamples.

(** ** Account layouts (layouts/cpmm.ts and the layout files shipped with
  raydium/cpmm.ts) and the account filters of the pair lookups
  (utils/tick_array_bitmap_ext.ts) *)

Module Layouts.
Local Open Scope string_scope.
Local Open Scope list_scope.

(** The layout constructors of @solana/buffer-layout that the sources use,
  each with its property name where it has one. *)
#[warnings="-register-all"]
Inductive Layout : Type :=
| blob (length : nat)
| u8
| u16
| u32
| s32
| nu64
| seq (elementLayout : Layout) (count : nat)
| struct (fields : list (string * Layout)).

(** [layout.span]: the bytes a layout takes. *)
Fixpoint span (layout : Layout) : nat :=
  match layout with
  | blob length => length
  | u8 => 1%nat
  | u16 => 2%nat
  | u32 => 4%nat
  | s32 => 4%nat
  | nu64 => 8%nat
  | seq elementLayout count => (count * span elementLayout)%nat
  | struct fields =>
      (fix spans (fields : list (string * Layout)) : nat :=
         match fields with
         | [] => 0%nat
         | (_, field) :: rest => (span field + spans rest)%nat
         end) fields
  end.

(** [struct.offsetOf(property)] *)
Fixpoint offsetIn (fields : list (string * Layout)) (property : string)
    : option nat :=
  match fields with
  | [] => None
  | (name, field) :: rest =>
      if String.eqb name property then Some 0%nat
      else option_map (Nat.add (span field)) (offsetIn rest property)
  end.

Definition offsetOf (layout : Layout) (property : string) : option nat :=
  match layout with
  | struct fields => offsetIn fields property
  | _ => None
  end.

(** The layout of a field of a structure. *)
Fixpoint fieldIn (fields : list (string * Layout)) (property : string)
    : option Layout :=
  match fields with
  | [] => None
  | (name, field) :: rest =>
      if String.eqb name property then Some field else fieldIn rest property
  end.

Definition fieldOf (layout : Layout) (property : string) : option Layout :=
  match layout with
  | struct fields => fieldIn fields property
  | _ => None
  end.

(* raydium/cpmm.ts, second file: a 16-byte blob with its own codec *)
Definition UInt128Layout : Layout := blob 16.

(* raydium/cpmm.ts, third file *)
Definition uint64 : Layout := blob 8.

(* layouts/cpmm.ts *)
Definition CPMM_POOL_STATE_LAYOUT : Layout := struct [
  ("padding", blob 8);
  ("amm_config", blob 32);
  ("pool_creator", blob 32);
  ("token_0_vault", blob 32);
  ("token_1_vault", blob 32);
  ("lp_mint", blob 32);
  ("token_0_mint", blob 32);
  ("token_1_mint", blob 32);
  ("token_0_program", blob 32);
  ("token_1_program", blob 32);
  ("observation_key", blob 32);
  ("auth_bump", u8);
  ("status", u8);
  ("lp_mint_decimals", u8);
  ("mint_0_decimals", u8);
  ("mint_1_decimals", u8);
  ("lp_supply", nu64);
  ("protocol_fees_token_0", nu64);
  ("protocol_fees_token_1", nu64);
  ("fund_fees_token_0", nu64);
  ("fund_fees_token_1", nu64);
  ("open_time", nu64);
  ("padding", seq nu64 32)
].

(* raydium/cpmm.ts, second file *)
Definition CLMM_POOL_STATE_LAYOUT : Layout := struct [
  ("padding", blob 8);
  ("bump", u8);
  ("amm_config", blob 32);
  ("owner", blob 32);
  ("token_mint_0", blob 32);
  ("token_mint_1", blob 32);
  ("token_vault_0", blob 32);
  ("token_vault_1", blob 32);
  ("observation_key", blob 32);
  ("mint_decimals_0", u8);
  ("mint_decimals_1", u8);
  ("tick_spacing", u16);
  ("liquidity", UInt128Layout);
  ("sqrt_price_x64", UInt128Layout);
  ("tick_current", s32);
  ("observation_index", u16);
  ("observation_update_duration", u16);
  ("fee_growth_global_0_x64", UInt128Layout);
  ("fee_growth_global_1_x64", UInt128Layout);
  ("protocol_fees_token_0", blob 8);
  ("protocol_fees_token_1", blob 8);
  ("swap_in_amount_token_0", UInt128Layout);
  ("swap_out_amount_token_1", UInt128Layout);
  ("swap_in_amount_token_1", UInt128Layout);
  ("swap_out_amount_token_0", UInt128Layout);
  ("status", u8);
  ("padding_before_bitmap", blob 7);
  ("skipped", blob 507);
  ("tick_array_bitmap", seq (blob 8) 16);
  ("total_fees_token_0", blob 8);
  ("total_fees_claimed_token_0", blob 8);
  ("total_fees_token_1", blob 8);
  ("total_fees_claimed_token_1", blob 8);
  ("fund_fees_token_0", blob 8);
  ("fund_fees_token_1", blob 8);
  ("padding1", seq (blob 8) 26);
  ("padding2", seq (blob 8) 32)
].

Definition TICK_ARRAY_STATE_LAYOUT : Layout := struct [
  ("pool_id", blob 32);
  ("start_tick_index", s32);
  ("ticks", seq (struct [
               ("tick_index", s32);
               ("liquidity_net", blob 8);
               ("liquidity_gross", UInt128Layout)
             ]) 60);
  ("initialized_tick_count", u8);
  ("padding", seq u8 115)
].

(* raydium/cpmm.ts, third file *)
Definition LIQUIDITY_STATE_LAYOUT_V4 : Layout := struct [
  ("status", uint64);
  ("nonce", uint64);
  ("orderNum", uint64);
  ("depth", uint64);
  ("coinDecimals", uint64);
  ("pcDecimals", uint64);
  ("state", uint64);
  ("resetFlag", uint64);
  ("minSize", uint64);
  ("volMaxCutRatio", uint64);
  ("amountWaveRatio", uint64);
  ("coinLotSize", uint64);
  ("pcLotSize", uint64);
  ("minPriceMultiplier", uint64);
  ("maxPriceMultiplier", uint64);
  ("systemDecimalsValue", uint64);
  ("minSeparateNumerator", uint64);
  ("minSeparateDenominator", uint64);
  ("tradeFeeNumerator", uint64);
  ("tradeFeeDenominator", uint64);
  ("pnlNumerator", uint64);
  ("pnlDenominator", uint64);
  ("swapFeeNumerator", uint64);
  ("swapFeeDenominator", uint64);
  ("needTakePnlCoin", uint64);
  ("needTakePnlPc", uint64);
  ("totalPnlPc", uint64);
  ("totalPnlCoin", uint64);
  ("poolOpenTime", uint64);
  ("punishPcAmount", uint64);
  ("punishCoinAmount", uint64);
  ("orderbookToInitTime", uint64);
  ("swapCoinInAmount", blob 16);
  ("swapPcOutAmount", blob 16);
  ("swapCoin2PcFee", uint64);
  ("swapPcInAmount", blob 16);
  ("swapCoinOutAmount", blob 16);
  ("swapPc2CoinFee", uint64);
  ("poolCoinTokenAccount", blob 32);
  ("poolPcTokenAccount", blob 32);
  ("coinMintAddress", blob 32);
  ("pcMintAddress", blob 32);
  ("lpMintAddress", blob 32);
  ("ammOpenOrders", blob 32);
  ("serumMarket", blob 32);
  ("serumProgramId", blob 32);
  ("ammTargetOrders", blob 32);
  ("poolWithdrawQueue", blob 32);
  ("poolTempLpTokenAccount", blob 32);
  ("ammOwner", blob 32);
  ("pnlOwner", blob 32)
].

Definition SWAP_LAYOUT : Layout := struct [
  ("instruction", u8);
  ("amount_in", uint64);
  ("min_amount_out", uint64)
].

Definition ACCOUNT_LAYOUT : Layout := struct [
  ("mint", blob 32);
  ("owner", blob 32);
  ("amount", uint64);
  ("delegate_option", u32);
  ("delegate", blob 32);
  ("state", u8);
  ("is_native_option", u32);
  ("is_native", uint64);
  ("delegated_amount", uint64);
  ("close_authority_option", u32);
  ("close_authority", blob 32)
].

(* raydium/constants.ts *)
Definition ACCOUNT_LAYOUT_LEN : nat := 165.

(** The arguments that the three pair lookups hand to
  [fetchPairAddressFromRpc]: where the token mint is compared, where the
  quote mint is compared, and the account size asked for. *)
Record PairFilter : Type := {
  quoteOffset : nat;
  baseOffset : nat;
  dataLength : nat
}.

(* getAmmV4PairFromRpc *)
Definition ammV4PairFilter : PairFilter :=
  {| quoteOffset := 400; baseOffset := 432; dataLength := 752 |}.

(* getCpmmPairAddressFromRpc *)
Definition cpmmPairFilter : PairFilter :=
  {| quoteOffset := 168; baseOffset := 200; dataLength := 637 |}.

(* getClmmPairAddressFromRpc *)
Definition clmmPairFilter : PairFilter :=
  {| quoteOffset := 73; baseOffset := 105; dataLength := 1544 |}.

(** A filter reads the two mints of a pool account laid out by [layout]. *)
Definition filterReads (filter : PairFilter) (layout : Layout)
    (mint0 mint1 : string) : Prop :=
  dataLength filter = span layout
  /\ offsetOf layout mint0 = Some (quoteOffset filter)
  /\ offsetOf layout mint1 = Some (baseOffset filter)
  /\ fieldOf layout mint0 = Some (blob 32)
  /\ fieldOf layout mint1 = Some (blob 32).

(** The fields that [fetchCpmmPoolKeys] and [fetchClmmPoolKeys] turn into
  public keys. *)
Definition fetchCpmmPoolKeys_addresses : list string := [
  "amm_config"; "pool_creator"; "token_0_vault"; "token_1_vault";
  "lp_mint"; "token_0_mint"; "token_1_mint"; "token_0_program";
  "token_1_program"; "observation_key"
].

Definition fetchClmmPoolKeys_addresses : list string := [
  "amm_config"; "owner"; "token_mint_0"; "token_mint_1";
  "token_vault_0"; "token_vault_1"; "observation_key"
].

End Layouts.

(** * Theorems *)

(** ** The tick-array bitmap engine *)

Section TickArrayFacts.
Import TickArrayBitmap.

(** On a tick that is not negative, or that sits on an array boundary,
  [getArrayStartIndex] is the floor of the division, multiplied back. *)
Lemma getArrayStartIndex_floor (tickIndex spacing : Z) :
  0 < spacing ->
  0 <= tickIndex \/ (tickIndex mod tickCount spacing = 0) ->
  getArrayStartIndex tickIndex spacing
  = tickIndex / tickCount spacing * tickCount spacing.
Proof.
  intros Hs Hcase. unfold getArrayStartIndex.
  assert (Htc : 0 < tickCount spacing) by (unfold tickCount, TICK_ARRAY_SIZE; lia).
  destruct (tickIndex <? 0) eqn:Hneg; cbn [andb]; [|reflexivity].
  apply Z.ltb_lt in Hneg. destruct Hcase as [Hc|Hc]; [lia|].
  assert (Hr : Z.rem tickIndex (tickCount spacing) = 0).
  { apply Z.rem_divide; [lia|]. apply Z.mod_divide; [lia|exact Hc]. }
  rewrite Hr. reflexivity.
Qed.

(** On a negative tick off the boundaries the [- 1] comes on top of the
  floor that [Math.floor] has already taken: the result is one whole
  array below the array that holds the tick. *)
Lemma getArrayStartIndex_negative (tickIndex spacing : Z) :
  0 < spacing ->
  tickIndex < 0 ->
  tickIndex mod tickCount spacing <> 0 ->
  getArrayStartIndex tickIndex spacing
  = tickIndex / tickCount spacing * tickCount spacing - tickCount spacing.
Proof.
  intros Hs Hneg Hc. unfold getArrayStartIndex.
  assert (Htc : 0 < tickCount spacing) by (unfold tickCount, TICK_ARRAY_SIZE; lia).
  apply Z.ltb_lt in Hneg. rewrite Hneg. cbn [andb].
  destruct (Z.rem tickIndex (tickCount spacing) =? 0) eqn:Hr.
  - apply Z.eqb_eq in Hr. exfalso. apply Hc.
    apply Z.mod_divide; [lia|]. apply Z.rem_divide; [lia|exact Hr].
  - cbn [negb]. lia.
Qed.

(** C1 (code defect).  For tick spacing 60 and tick index -1 the claim asks
  for -3600, the start of the array that holds tick -1; the code returns
  -7200, one array too low, because it subtracts 1 after [Math.floor]
  has already rounded toward negative infinity. *)
Theorem getArrayStartIndex_minus_one_spacing_60 :
  getArrayStartIndex (-1) 60 = -7200
  /\ (-1) / tickCount 60 * tickCount 60 = -3600.
Proof. split; reflexivity. Qed.



Lemma Ret_pair_snd {A B : Type} (a c : A) (b d : B) :
  Ret (a, b) = Ret (c, d) -> b = d.
Proof. intros H. inversion H. reflexivity. Qed.

Lemma land_opp_positive (p : positive) : 0 < Z.land (Z.pos p) (Z.neg p).
Proof.
  induction p as [p IH|p IH|].
  - assert (Hodd : Z.testbit (Z.land (Z.pos p~1) (Z.neg p~1)) 0 = true)
      by (rewrite Z.land_spec; reflexivity).
    assert (Hnn : 0 <= Z.land (Z.pos p~1) (Z.neg p~1))
      by (apply Z.land_nonneg; left; lia).
    destruct (Z.eq_dec (Z.land (Z.pos p~1) (Z.neg p~1)) 0) as [Hz|Hz]; [|lia].
    rewrite Hz in Hodd. discriminate.
  - change (Z.pos p~0) with (Z.shiftl (Z.pos p) 1).
    change (Z.neg p~0) with (Z.shiftl (Z.neg p) 1).
    rewrite <- Z.shiftl_land, Z.shiftl_mul_pow2 by lia. lia.
  - reflexivity.
Qed.

(** The bit that [(x & -x).toString(2).length - 1] names is set in [x]. *)
Lemma lowest_bit_set (x : Z) :
  x <> 0 -> Z.testbit x (toString2_length (Z.land x (- x)) - 1) = true.
Proof.
  intros Hx.
  assert (Hpos : 0 < Z.land x (- x)).
  { destruct x as [|p|p]; [contradiction| |].
    - apply land_opp_positive.
    - cbn [Z.opp]. rewrite Z.land_comm. apply land_opp_positive. }
  pose proof (Z.bit_log2 _ Hpos) as Hbit.
  rewrite Z.land_spec in Hbit. apply andb_true_iff in Hbit.
  destruct (Z.land x (- x)) as [|q|q] eqn:Hl; try lia.
  unfold toString2_length. rewrite Z.add_simpl_r. apply Hbit.
Qed.

(** The bit that [x.toString(2).length - 1] names is set in a positive [x]. *)
Lemma highest_bit_set (x : Z) :
  0 < x -> Z.testbit x (toString2_length x - 1) = true.
Proof.
  intros Hx. destruct x as [|p|p]; try lia.
  unfold toString2_length. rewrite Z.add_simpl_r. apply Z.bit_log2. lia.
Qed.

(** A hit of the inline scan is a set bit of the inline bitmap, and the
  start index handed back is the one of that bit. *)
Lemma inline_scan_hit bitMap last tickSpacing zeroForOne idx :
  nextInitializedTickArrayStartIndexInBitmap bitMap last tickSpacing zeroForOne
    = (true, idx) ->
  exists pos,
    Z.testbit (Z.land bitMap U1024_MASK) pos = true
    /\ idx = (pos - 512) * (tickSpacing * TICK_ARRAY_SIZE).
Proof.
  unfold nextInitializedTickArrayStartIndexInBitmap. cbv zeta.
  destruct (_ || _); [discriminate|].
  set (bm := Z.land bitMap U1024_MASK).
  match goal with |- context [Z.abs ?c] => set (bitPos := Z.abs c) end.
  destruct zeroForOne.
  - unfold mostSignificantBit.
    set (w := Z.land (Z.shiftl bm (TOTAL_BITS - bitPos - 1)) U1024_MASK).
    destruct (w =? 0) eqn:Hw; [discriminate|]. apply Z.eqb_neq in Hw.
    intros Heq. apply pair_equal_spec in Heq. destruct Heq as [_ Heq].
    assert (Hwpos : 0 < w).
    { assert (0 <= w) by (apply Z.land_nonneg; right; unfold U1024_MASK; cbn; lia).
      lia. }
    pose proof (highest_bit_set w Hwpos) as Hbit.
    assert (Hk : 0 <= toString2_length w - 1).
    { destruct w as [|p|p]; try lia. unfold toString2_length.
      pose proof (Z.log2_nonneg (Z.pos p)). lia. }
    unfold w in Hbit at 1. rewrite Z.land_spec in Hbit.
    apply andb_true_iff in Hbit. destruct Hbit as [Hbit _].
    rewrite Z.shiftl_spec in Hbit by exact Hk.
    exists (toString2_length w - 1 - (TOTAL_BITS - bitPos - 1)).
    split; [exact Hbit|]. rewrite <- Heq. unfold TOTAL_BITS. f_equal. lia.
  - unfold leastSignificantBit.
    set (w := Z.shiftr bm bitPos).
    destruct (w =? 0) eqn:Hw; [discriminate|]. apply Z.eqb_neq in Hw.
    intros Heq. apply pair_equal_spec in Heq. destruct Heq as [_ Heq].
    pose proof (lowest_bit_set w Hw) as Hbit.
    assert (Hk : 0 <= toString2_length (Z.land w (- w)) - 1).
    { destruct (Z_lt_le_dec (toString2_length (Z.land w (- w)) - 1) 0) as [Hneg|]; [|lia].
      rewrite Z.testbit_neg_r in Hbit by exact Hneg. discriminate. }
    unfold w in Hbit at 1. rewrite Z.shiftr_spec in Hbit by exact Hk.
    exists (toString2_length (Z.land w (- w)) - 1 + bitPos).
    split; [exact Hbit|]. rewrite <- Heq. f_equal. lia.
Qed.

(** A hit in a segment of the extension is a set bit of that segment, as
  many arrays away from the scanned index as the bit is from the offset
  of that index. *)
Lemma segment_scan_hit parts next tickSpacing zeroForOne idx :
  nextInitializedTickArrayInBitmap (Some parts) next tickSpacing zeroForOne
    = Ret (true, idx) ->
  exists pos,
    Z.testbit (u512FromParts_loop parts 0 0) pos = true
    /\ idx = next + (pos - calcTickArrayOffsetInBitmap next tickSpacing)
                    * tickCount tickSpacing.
Proof.
  unfold nextInitializedTickArrayInBitmap.
  destruct (getBitmapTickBoundary next tickSpacing) as [lo hi].
  set (offset := calcTickArrayOffsetInBitmap next tickSpacing).
  set (u512 := u512FromParts_loop parts 0 0).
  destruct zeroForOne.
  - set (w := Z.land (Z.shiftl u512 (TICK_ARRAY_BITMAP_SIZE - 1 - offset))
                     (Z.shiftl 1 TICK_ARRAY_BITMAP_SIZE - 1)).
    unfold u512IsZero, u512LeadingZeros.
    destruct (w =? 0) eqn:Hw; [discriminate|]. apply Z.eqb_neq in Hw.
    intros Heq. apply Ret_pair_snd in Heq.
    assert (Hwpos : 0 < w).
    { assert (0 <= w) by (apply Z.land_nonneg; right; cbn; lia). lia. }
    pose proof (highest_bit_set w Hwpos) as Hbit.
    assert (Hk : 0 <= toString2_length w - 1).
    { destruct w as [|p|p]; try lia. unfold toString2_length.
      pose proof (Z.log2_nonneg (Z.pos p)). lia. }
    unfold w in Hbit at 1. rewrite Z.land_spec in Hbit.
    apply andb_true_iff in Hbit. destruct Hbit as [Hbit _].
    rewrite Z.shiftl_spec in Hbit by exact Hk.
    exists (toString2_length w - 1 - (TICK_ARRAY_BITMAP_SIZE - 1 - offset)).
    split; [exact Hbit|]. rewrite <- Heq. unfold TICK_ARRAY_BITMAP_SIZE. lia.
  - set (w := Z.shiftr u512 offset).
    unfold u512IsZero, u512TrailingZeros.
    destruct (w =? 0) eqn:Hw; [discriminate|]. apply Z.eqb_neq in Hw.
    intros Heq. apply Ret_pair_snd in Heq.
    pose proof (lowest_bit_set w Hw) as Hbit.
    assert (Hk : 0 <= toString2_length (Z.land w (- w)) - 1).
    { destruct (Z_lt_le_dec (toString2_length (Z.land w (- w)) - 1) 0) as [Hneg|]; [|lia].
      rewrite Z.testbit_neg_r in Hbit by exact Hneg. discriminate. }
    unfold w in Hbit at 1. rewrite Z.shiftr_spec in Hbit by exact Hk.
    exists (toString2_length (Z.land w (- w)) - 1 + offset).
    split; [exact Hbit|]. rewrite <- Heq. lia.
Qed.

Section Arith.
Variable tickSpacing : Z.
Hypothesis spacing_pos : 0 < tickSpacing.

Lemma tickCount_ge : 60 <= tickCount tickSpacing.
Proof. unfold tickCount, TICK_ARRAY_SIZE. lia. Qed.

Lemma ticksInOneBitmap_eq :
  tickSpacing * TICK_ARRAY_SIZE * TICK_ARRAY_BITMAP_SIZE
  = 512 * tickCount tickSpacing.
Proof. unfold tickCount, TICK_ARRAY_SIZE, TICK_ARRAY_BITMAP_SIZE. lia. Qed.

Lemma multiplier_eq : tickSpacing * TICK_ARRAY_SIZE = tickCount tickSpacing.
Proof. unfold tickCount, TICK_ARRAY_SIZE. lia. Qed.

Lemma maxTick_eq :
  maxTickInTickarrayBitmap tickSpacing = 512 * tickCount tickSpacing.
Proof. unfold maxTickInTickarrayBitmap. apply ticksInOneBitmap_eq. Qed.

(** The inline scan, when it finds nothing, never moves against the
  direction of the search, and the array after the index it hands back
  lies outside the range of the inline bitmap. *)
Lemma inline_scan_miss bitMap last zeroForOne idx :
  nextInitializedTickArrayStartIndexInBitmap bitMap last tickSpacing zeroForOne
    = (false, idx) ->
  let tc := tickCount tickSpacing in
  if zeroForOne
  then idx <= last /\ (idx - tc < - (512 * tc) \/ 512 * tc <= idx - tc)
  else last <= idx /\ (idx + tc < - (512 * tc) \/ 512 * tc <= idx + tc).
Proof.
  pose proof tickCount_ge as Htc.
  unfold nextInitializedTickArrayStartIndexInBitmap.
  rewrite maxTick_eq, multiplier_eq.
  cbv zeta. remember (tickCount tickSpacing) as tc eqn:Etc. clear Etc.
  destruct zeroForOne.
  - destruct ((last - tc <? - (512 * tc)) || (last - tc >=? 512 * tc)) eqn:Hout.
    + intros Heq; apply pair_equal_spec in Heq; destruct Heq as [_ Heq]; subst idx. split; [lia|].
      apply orb_true_iff in Hout.
      destruct Hout as [H|H]; [apply Z.ltb_lt in H | rewrite Z.geb_leb in H; apply Z.leb_le in H]; lia.
    + apply orb_false_iff in Hout. destruct Hout as [H1 H2].
      apply Z.ltb_ge in H1. rewrite Z.geb_leb in H2. apply Z.leb_gt in H2.
      destruct (mostSignificantBit _); [discriminate|].
      intros Heq; apply pair_equal_spec in Heq; destruct Heq as [_ Heq]; subst idx. lia.
  - destruct ((last + tc <? - (512 * tc)) || (last + tc >=? 512 * tc)) eqn:Hout.
    + intros Heq; apply pair_equal_spec in Heq; destruct Heq as [_ Heq]; subst idx. split; [lia|].
      apply orb_true_iff in Hout.
      destruct Hout as [H|H]; [apply Z.ltb_lt in H | rewrite Z.geb_leb in H; apply Z.leb_le in H]; lia.
    + apply orb_false_iff in Hout. destruct Hout as [H1 H2].
      apply Z.ltb_ge in H1. rewrite Z.geb_leb in H2. apply Z.leb_gt in H2.
      destruct (leastSignificantBit _); [discriminate|].
      intros Heq; apply pair_equal_spec in Heq; destruct Heq as [_ Heq]; subst idx. lia.
Qed.

Lemma bitmap_boundary next lo hi :
  getBitmapTickBoundary next tickSpacing = (lo, hi) ->
  lo <= next < hi /\ hi = lo + 512 * tickCount tickSpacing.
Proof.
  pose proof tickCount_ge as Htc.
  unfold getBitmapTickBoundary. rewrite ticksInOneBitmap_eq.
  remember (512 * tickCount tickSpacing) as T eqn:ET.
  assert (HT : 0 < T) by lia. clear ET Htc.
  destruct (next <? 0) eqn:Hneg; cbn [andb].
  - apply Z.ltb_lt in Hneg.
    rewrite Z.rem_mod_nonneg by lia.
    pose proof (Z.div_mod (Z.abs next) T ltac:(lia)) as Hdm.
    pose proof (Z.mod_pos_bound (Z.abs next) T HT) as Hm.
    destruct (Z.abs next mod T =? 0) eqn:Hz; cbn [negb];
      intros [= <- <-]; [apply Z.eqb_eq in Hz | apply Z.eqb_neq in Hz]; lia.
  - apply Z.ltb_ge in Hneg.
    pose proof (Z.div_mod (Z.abs next) T ltac:(lia)) as Hdm.
    pose proof (Z.mod_pos_bound (Z.abs next) T HT) as Hm.
    intros Heq; apply pair_equal_spec in Heq; destruct Heq as [Hlo Hhi]; subst lo hi. lia.
Qed.

(** Scanning one segment of the extension never throws once a segment is
  there, and a miss hands back a boundary of that segment. *)
Lemma segment_scan parts next zeroForOne :
  exists found idx,
    nextInitializedTickArrayInBitmap (Some parts) next tickSpacing zeroForOne
      = Ret (found, idx)
    /\ (found = false ->
        if zeroForOne then idx <= next
        else next - tickCount tickSpacing < idx).
Proof.
  pose proof tickCount_ge as Htc.
  unfold nextInitializedTickArrayInBitmap.
  destruct (getBitmapTickBoundary next tickSpacing) as [lo hi] eqn:Hb.
  apply bitmap_boundary in Hb. destruct Hb as [Hin Hhi].
  destruct zeroForOne.
  - destruct (u512IsZero _).
    + exists false, lo. split; [reflexivity|]. intros _. lia.
    + eexists true, _. split; [reflexivity|]. discriminate.
  - destruct (u512IsZero _).
    + exists false, (hi - tickCount tickSpacing).
      split; [reflexivity|]. intros _. lia.
    + eexists true, _. split; [reflexivity|]. discriminate.
Qed.

Lemma getArrayStartIndex_MAX_le :
  getArrayStartIndex MAX_TICK tickSpacing <= MAX_TICK.
Proof.
  pose proof tickCount_ge as Htc.
  unfold getArrayStartIndex, MAX_TICK. cbn [Z.ltb Z.compare andb].
  remember (tickCount tickSpacing) as tc eqn:Etc. clear Etc.
  pose proof (Z.mul_div_le 443636 tc ltac:(lia)). lia.
Qed.

Lemma getArrayStartIndex_MAX_gt :
  MAX_TICK < getArrayStartIndex MAX_TICK tickSpacing + tickCount tickSpacing.
Proof.
  pose proof tickCount_ge as Htc.
  unfold getArrayStartIndex, MAX_TICK. cbn [Z.ltb Z.compare andb].
  remember (tickCount tickSpacing) as tc eqn:Etc. clear Etc.
  pose proof (Z.mul_succ_div_gt 443636 tc ltac:(lia)). lia.
Qed.

Lemma getArrayStartIndex_MIN_le :
  getArrayStartIndex MIN_TICK tickSpacing <= MIN_TICK.
Proof.
  pose proof tickCount_ge as Htc.
  unfold getArrayStartIndex, MIN_TICK.
  remember (tickCount tickSpacing) as tc eqn:Etc. clear Etc.
  pose proof (Z.mul_div_le (-443636) tc ltac:(lia)).
  destruct ((-443636 <? 0) && negb (Z.rem (-443636) tc =? 0)); lia.
Qed.

Lemma getArrayStartIndex_MIN_gt :
  MIN_TICK - 2 * tickCount tickSpacing < getArrayStartIndex MIN_TICK tickSpacing.
Proof.
  pose proof tickCount_ge as Htc.
  unfold getArrayStartIndex, MIN_TICK.
  remember (tickCount tickSpacing) as tc eqn:Etc. clear Etc.
  pose proof (Z.mul_succ_div_gt (-443636) tc ltac:(lia)).
  destruct ((-443636 <? 0) && negb (Z.rem (-443636) tc =? 0)); lia.
Qed.

(** Outside the range of the inline bitmap and inside the tick bounds, the
  segment index that [getBitmap] computes is one of the 14 segments. *)
Lemma getBitmap_defined next positiveBitmap negativeBitmap :
  List.length positiveBitmap = 14%nat ->
  List.length negativeBitmap = 14%nat ->
  next < - (512 * tickCount tickSpacing) \/ 512 * tickCount tickSpacing <= next ->
  getArrayStartIndex MIN_TICK tickSpacing <= next
    <= getArrayStartIndex MAX_TICK tickSpacing ->
  exists parts,
    snd (getBitmap next tickSpacing positiveBitmap negativeBitmap) = Some parts.
Proof.
  intros Hp Hn Hout Hin.
  pose proof tickCount_ge as Htc.
  pose proof getArrayStartIndex_MAX_le as Hmax.
  pose proof getArrayStartIndex_MIN_gt as Hmin.
  unfold MAX_TICK, MIN_TICK in *.
  unfold getBitmap. rewrite ticksInOneBitmap_eq.
  remember (tickCount tickSpacing) as tc eqn:Etc.
  remember (getArrayStartIndex (-443636) tickSpacing) as lo eqn:Elo.
  remember (getArrayStartIndex 443636 tickSpacing) as hi eqn:Ehi.
  clear Etc Elo Ehi.
  assert (HT : 0 < 512 * tc) by lia.
  pose proof (Z.div_mod (Z.abs next) (512 * tc) ltac:(lia)) as Hdm.
  pose proof (Z.mod_pos_bound (Z.abs next) (512 * tc) HT) as Hm.
  rewrite Z.rem_mod_nonneg by lia.
  assert (Hq : 1 <= Z.abs next / (512 * tc) <= 14).
  { split.
    - apply Z.div_le_lower_bound; lia.
    - apply Z.lt_succ_r. apply Z.div_lt_upper_bound; lia. }
  assert (Hidx : forall (l : list (list Z)) i,
             List.length l = 14%nat -> 0 <= i <= 13 -> exists parts, js_index l i = Some parts).
  { intros l i Hl Hi. unfold js_index.
    destruct (i <? 0) eqn:Hi0; [apply Z.ltb_lt in Hi0; lia|].
    destruct (nth_error l (Z.to_nat i)) as [p|] eqn:Hnth; [eauto|].
    apply nth_error_None in Hnth. lia. }
  destruct (next <? 0) eqn:Hneg; cbn [andb snd].
  - apply Z.ltb_lt in Hneg.
    destruct (Z.abs next mod (512 * tc) =? 0) eqn:Hz.
    + apply Z.eqb_eq in Hz. apply Hidx; [assumption|].
      assert (Z.abs next / (512 * tc) <> 1) by nia. lia.
    + apply Hidx; [assumption|lia].
  - apply Hidx; [assumption|lia].
Qed.

Lemma extension_scan last (zeroForOne : bool) positiveBitmap negativeBitmap :
  List.length positiveBitmap = 14%nat ->
  List.length negativeBitmap = 14%nat ->
  (if zeroForOne
   then last - tickCount tickSpacing < - (512 * tickCount tickSpacing)
        \/ 512 * tickCount tickSpacing <= last - tickCount tickSpacing
   else last + tickCount tickSpacing < - (512 * tickCount tickSpacing)
        \/ 512 * tickCount tickSpacing <= last + tickCount tickSpacing) ->
  exists found idx,
    nextInitializedTickArrayFromOneBitmap last tickSpacing zeroForOne
      (positiveBitmap, negativeBitmap) = Ret (found, idx)
    /\ (found = false -> if zeroForOne then idx < last else last < idx).
Proof.
  intros Hp Hn Hout.
  pose proof tickCount_ge as Htc.
  unfold nextInitializedTickArrayFromOneBitmap. cbv zeta.
  set (next := if zeroForOne then last - tickCount tickSpacing
               else last + tickCount tickSpacing).
  assert (Hout' : next < - (512 * tickCount tickSpacing)
                  \/ 512 * tickCount tickSpacing <= next)
    by (unfold next; destruct zeroForOne; exact Hout).
  assert (Hstep : if zeroForOne then next = last - tickCount tickSpacing
                  else next = last + tickCount tickSpacing)
    by (unfold next; destruct zeroForOne; reflexivity).
  clearbody next.
  destruct ((next <? getArrayStartIndex MIN_TICK tickSpacing)
            || (next >? getArrayStartIndex MAX_TICK tickSpacing)) eqn:Hrange.
  - exists false, next. split; [reflexivity|]. intros _.
    destruct zeroForOne; lia.
  - apply orb_false_iff in Hrange. destruct Hrange as [H1 H2].
    apply Z.ltb_ge in H1. rewrite Z.gtb_ltb in H2. apply Z.ltb_ge in H2.
    destruct (getBitmap_defined next positiveBitmap negativeBitmap Hp Hn Hout'
                (conj H1 H2)) as [parts Hparts].
    destruct (getBitmap next tickSpacing positiveBitmap negativeBitmap)
      as [offset seg]. cbn [snd] in Hparts. subst seg.
    destruct (segment_scan parts next zeroForOne) as (found & idx & Hscan & Hmiss).
    exists found, idx. split; [exact Hscan|].
    intros Hf. specialize (Hmiss Hf). destruct zeroForOne; lia.
Qed.

Section Pass.
Variable tickArrayBitmap : list Z.
Variable tickarrayBitmapExtension : Extension.
Variable zeroForOne : bool.
Hypothesis positive_segments :
  List.length (fst tickarrayBitmapExtension) = 14%nat.
Hypothesis negative_segments :
  List.length (snd tickarrayBitmapExtension) = 14%nat.

(** A pass never throws; when it asks for another pass, the new index is
  inside the tick bounds and strictly further in the search direction. *)
Lemma scanPass_progress last :
  exists p,
    scanPass tickArrayBitmap tickarrayBitmapExtension last tickSpacing zeroForOne
      = Ret p
    /\ (forall last', p = Again last' ->
          MIN_TICK <= last' <= MAX_TICK
          /\ (if zeroForOne then last' < last else last < last')).
Proof.
  destruct tickarrayBitmapExtension as [positiveBitmap negativeBitmap].
  cbn [fst snd] in *.
  unfold scanPass.
  destruct (nextInitializedTickArrayStartIndexInBitmap
              (u1024FromList tickArrayBitmap) last tickSpacing zeroForOne)
    as [found idx] eqn:Hinline.
  destruct found.
  - eexists. split; [reflexivity|]. discriminate.
  - apply inline_scan_miss in Hinline. cbv zeta in Hinline.
    assert (Hout : if zeroForOne
                   then idx - tickCount tickSpacing < - (512 * tickCount tickSpacing)
                        \/ 512 * tickCount tickSpacing <= idx - tickCount tickSpacing
                   else idx + tickCount tickSpacing < - (512 * tickCount tickSpacing)
                        \/ 512 * tickCount tickSpacing <= idx + tickCount tickSpacing)
      by (destruct zeroForOne; apply Hinline).
    destruct (extension_scan idx zeroForOne positiveBitmap negativeBitmap
                positive_segments negative_segments Hout)
      as (found2 & idx2 & Hext & Hmiss).
    rewrite Hext. cbn [js_bind].
    destruct found2.
    + eexists. split; [reflexivity|]. discriminate.
    + specialize (Hmiss eq_refl).
      destruct ((idx2 <? MIN_TICK) || (idx2 >? MAX_TICK)) eqn:Hb.
      * eexists. split; [reflexivity|]. discriminate.
      * eexists. split; [reflexivity|].
        intros last' Hl. injection Hl as Hl. subst last'.
        apply orb_false_iff in Hb. destruct Hb as [H1 H2].
        apply Z.ltb_ge in H1. rewrite Z.gtb_ltb in H2. apply Z.ltb_ge in H2.
        split; [lia|]. destruct zeroForOne; lia.
Qed.

Lemma scanLoop_terminates (n : nat) :
  forall last,
    MIN_TICK <= last <= MAX_TICK ->
    remaining zeroForOne last < Z.of_nat n ->
    exists r, forall fuel, (n <= fuel)%nat ->
      scanLoop fuel tickArrayBitmap tickarrayBitmapExtension
               last tickSpacing zeroForOne = Some (Ret r).
Proof.
  induction n as [|n IH]; intros last Hb Hm.
  - unfold remaining in Hm. destruct zeroForOne; lia.
  - destruct (scanPass_progress last) as (p & Hp & Hagain).
    destruct p as [r|last'].
    + exists r. intros fuel Hf. destruct fuel as [|fuel]; [lia|].
      cbn [scanLoop]. rewrite Hp. reflexivity.
    + destruct (Hagain last' eq_refl) as [Hb' Hlt].
      destruct (IH last' Hb') as [r Hr].
      { unfold remaining in *. destruct zeroForOne; lia. }
      exists r. intros fuel Hf. destruct fuel as [|fuel]; [lia|].
      cbn [scanLoop]. rewrite Hp. apply Hr. lia.
Qed.

(** The loop ends at the first pass that returns: the result of the loop
  is the result of that pass, and the passes before it each asked for
  another one. *)
Lemma scanLoop_run (n : nat) :
  forall last,
    MIN_TICK <= last <= MAX_TICK ->
    remaining zeroForOne last < Z.of_nat n ->
    exists r final,
      scans_to tickArrayBitmap tickarrayBitmapExtension tickSpacing zeroForOne
               last final
      /\ scanPass tickArrayBitmap tickarrayBitmapExtension final tickSpacing
                  zeroForOne = Ret (Return r)
      /\ forall fuel, (n <= fuel)%nat ->
           scanLoop fuel tickArrayBitmap tickarrayBitmapExtension
                    last tickSpacing zeroForOne = Some (Ret r).
Proof.
  induction n as [|n IH]; intros last Hb Hm.
  - unfold remaining in Hm. destruct zeroForOne; lia.
  - destruct (scanPass_progress last) as (p & Hp & Hagain).
    destruct p as [r|last'].
    + exists r, last. split; [apply scans_here|]. split; [exact Hp|].
      intros fuel Hf. destruct fuel as [|fuel]; [lia|].
      cbn [scanLoop]. rewrite Hp. reflexivity.
    + destruct (Hagain last' eq_refl) as [Hb' Hlt].
      destruct (IH last' Hb') as (r & final & Hto & Hfinal & Hr).
      { unfold remaining in *. destruct zeroForOne; lia. }
      exists r, final. split; [exact (scans_again _ _ _ _ _ _ _ Hp Hto)|].
      split; [exact Hfinal|].
      intros fuel Hf. destruct fuel as [|fuel]; [lia|].
      cbn [scanLoop]. rewrite Hp. apply Hr. lia.
Qed.
End Pass.

(** A pass that returns [null] has scanned an index outside the tick
  bounds. *)
Lemma scanPass_null tickArrayBitmap extension last zeroForOne :
  scanPass tickArrayBitmap extension last tickSpacing zeroForOne
    = Ret (Return None) ->
  exists idx idx2,
    nextInitializedTickArrayStartIndexInBitmap
      (u1024FromList tickArrayBitmap) last tickSpacing zeroForOne = (false, idx)
    /\ nextInitializedTickArrayFromOneBitmap idx tickSpacing zeroForOne extension
       = Ret (false, idx2)
    /\ (idx2 < MIN_TICK \/ MAX_TICK < idx2).
Proof.
  unfold scanPass.
  destruct (nextInitializedTickArrayStartIndexInBitmap _ _ _ _)
    as [found idx] eqn:Hinline.
  destruct found; [discriminate|].
  destruct (nextInitializedTickArrayFromOneBitmap _ _ _ _)
    as [[found2 idx2]|] eqn:Hext; cbn [js_bind]; [|discriminate].
  destruct found2; [discriminate|].
  destruct ((idx2 <? MIN_TICK) || (idx2 >? MAX_TICK)) eqn:Hb; [|discriminate].
  intros _. exists idx, idx2. split; [reflexivity|]. split; [exact Hext|].
  apply orb_true_iff in Hb.
  destruct Hb as [H|H]; [apply Z.ltb_lt in H | rewrite Z.gtb_ltb in H; apply Z.ltb_lt in H]; lia.
Qed.

(** A pass that returns a start index found it as a set bit, of the inline
  bitmap or of a segment of the extension. *)
Lemma scanPass_hit tickArrayBitmap extension last zeroForOne idx :
  scanPass tickArrayBitmap extension last tickSpacing zeroForOne
    = Ret (Return (Some idx)) ->
  (exists pos,
      Z.testbit (Z.land (u1024FromList tickArrayBitmap) U1024_MASK) pos = true
      /\ idx = (pos - 512) * (tickSpacing * TICK_ARRAY_SIZE))
  \/ (exists last2 parts pos,
        nextInitializedTickArrayStartIndexInBitmap
          (u1024FromList tickArrayBitmap) last tickSpacing zeroForOne
          = (false, last2)
        /\ let next := if zeroForOne then last2 - tickCount tickSpacing
                       else last2 + tickCount tickSpacing in
           snd (getBitmap next tickSpacing (fst extension) (snd extension))
           = Some parts
           /\ Z.testbit (u512FromParts_loop parts 0 0) pos = true
           /\ idx = next + (pos - calcTickArrayOffsetInBitmap next tickSpacing)
                           * tickCount tickSpacing).
Proof.
  unfold scanPass.
  destruct (nextInitializedTickArrayStartIndexInBitmap _ _ _ _)
    as [found last2] eqn:Hinline.
  destruct found.
  - intros Heq. left. apply inline_scan_hit in Hinline.
    destruct Hinline as (pos & Hbit & Hidx). exists pos.
    split; [exact Hbit|]. congruence.
  - intros Hrun. right. exists last2.
    unfold nextInitializedTickArrayFromOneBitmap in Hrun. cbv zeta in Hrun.
    set (next := if zeroForOne then last2 - tickCount tickSpacing
                 else last2 + tickCount tickSpacing) in *.
    destruct ((next <? getArrayStartIndex MIN_TICK tickSpacing)
              || (next >? getArrayStartIndex MAX_TICK tickSpacing)).
    + cbn [js_bind] in Hrun.
      destruct ((next <? MIN_TICK) || (next >? MAX_TICK)); discriminate Hrun.
    + destruct extension as [positiveBitmap negativeBitmap]. cbn [fst snd].
      destruct (getBitmap next tickSpacing positiveBitmap negativeBitmap)
        as [offset seg].
      destruct seg as [parts|];
        [|unfold nextInitializedTickArrayInBitmap in Hrun;
          destruct (getBitmapTickBoundary next tickSpacing); discriminate Hrun].
      destruct (nextInitializedTickArrayInBitmap (Some parts) next tickSpacing
                  zeroForOne) as [[found2 idx2]|] eqn:Hseg;
        cbn [js_bind] in Hrun; [|discriminate Hrun].
      destruct found2.
      * apply segment_scan_hit in Hseg. destruct Hseg as (pos & Hbit & Hidx).
        exists parts, pos. split; [reflexivity|]. cbn [snd].
        split; [reflexivity|]. split; [exact Hbit|]. congruence.
      * destruct ((idx2 <? MIN_TICK) || (idx2 >? MAX_TICK)); discriminate Hrun.
Qed.

(** C9.  For every inline bitmap, every extension with its 14 positive and
  14 negative segments, every last start index, every positive tick
  spacing and either direction, [nextInitializedTickArrayStartIndex]
  terminates without throwing: there is one result, a start index or
  [null], that every run with at least [scan_fuel_bound] passes of fuel
  gives.  That result is the result of the pass at an index [final] that
  the loop reached from the aligned start, every pass before it having
  asked for another one.  When the function returns a start index, that
  pass found it as a set bit, of the inline bitmap or of a segment of the
  extension; when it returns [null], both scans of that pass found
  nothing and the index then scanned is below [MIN_TICK] or above
  [MAX_TICK]. *)
Theorem nextInitializedTickArrayStartIndex_terminates
    (tickArrayBitmap : list Z) (extension : Extension)
    (lastTickArrayStartIndex : Z) (zeroForOne : bool) :
  List.length (fst extension) = 14%nat ->
  List.length (snd extension) = 14%nat ->
  exists (result : option Z) (final : Z),
    (forall fuel, (scan_fuel_bound <= fuel)%nat ->
       nextInitializedTickArrayStartIndex fuel tickArrayBitmap extension
         lastTickArrayStartIndex tickSpacing zeroForOne = Some (Ret result))
    /\ scans_to tickArrayBitmap extension tickSpacing zeroForOne
         (getArrayStartIndex lastTickArrayStartIndex tickSpacing) final
    /\ scanPass tickArrayBitmap extension final tickSpacing zeroForOne
       = Ret (Return result)
    /\ match result with
       | Some idx =>
           (exists pos,
               Z.testbit (Z.land (u1024FromList tickArrayBitmap) U1024_MASK)
                         pos = true
               /\ idx = (pos - 512) * (tickSpacing * TICK_ARRAY_SIZE))
           \/ (exists last2 parts pos,
                 nextInitializedTickArrayStartIndexInBitmap
                   (u1024FromList tickArrayBitmap) final tickSpacing zeroForOne
                 = (false, last2)
                 /\ let next := if zeroForOne
                                then last2 - tickCount tickSpacing
                                else last2 + tickCount tickSpacing in
                    snd (getBitmap next tickSpacing
                                   (fst extension) (snd extension))
                    = Some parts
                    /\ Z.testbit (u512FromParts_loop parts 0 0) pos = true
                    /\ idx = next
                             + (pos - calcTickArrayOffsetInBitmap next
                                        tickSpacing)
                               * tickCount tickSpacing)
       | None =>
           exists idx idx2,
             nextInitializedTickArrayStartIndexInBitmap
               (u1024FromList tickArrayBitmap) final tickSpacing zeroForOne
             = (false, idx)
             /\ nextInitializedTickArrayFromOneBitmap idx tickSpacing
                  zeroForOne extension = Ret (false, idx2)
             /\ (idx2 < MIN_TICK \/ MAX_TICK < idx2)
       end.
Proof.
  intros Hp Hn.
  assert (Hshape : forall final result,
             scanPass tickArrayBitmap extension final tickSpacing zeroForOne
             = Ret (Return result) ->
             match result with
             | Some idx =>
                 (exists pos,
                     Z.testbit (Z.land (u1024FromList tickArrayBitmap)
                                       U1024_MASK) pos = true
                     /\ idx = (pos - 512) * (tickSpacing * TICK_ARRAY_SIZE))
                 \/ (exists last2 parts pos,
                       nextInitializedTickArrayStartIndexInBitmap
                         (u1024FromList tickArrayBitmap) final tickSpacing
                         zeroForOne = (false, last2)
                       /\ let next := if zeroForOne
                                      then last2 - tickCount tickSpacing
                                      else last2 + tickCount tickSpacing in
                          snd (getBitmap next tickSpacing
                                         (fst extension) (snd extension))
                          = Some parts
                          /\ Z.testbit (u512FromParts_loop parts 0 0) pos
                             = true
                          /\ idx = next
                                   + (pos - calcTickArrayOffsetInBitmap next
                                              tickSpacing)
                                     * tickCount tickSpacing)
             | None =>
                 exists idx idx2,
                   nextInitializedTickArrayStartIndexInBitmap
                     (u1024FromList tickArrayBitmap) final tickSpacing
                     zeroForOne = (false, idx)
                   /\ nextInitializedTickArrayFromOneBitmap idx tickSpacing
                        zeroForOne extension = Ret (false, idx2)
                   /\ (idx2 < MIN_TICK \/ MAX_TICK < idx2)
             end).
  { intros final [idx|] Hpass.
    - apply (scanPass_hit _ _ _ _ _ Hpass).
    - apply (scanPass_null _ _ _ _ Hpass). }
  unfold nextInitializedTickArrayStartIndex.
  set (last := getArrayStartIndex lastTickArrayStartIndex tickSpacing).
  clearbody last.
  assert (Hbound : scan_fuel_bound = S (Z.to_nat (MAX_TICK - MIN_TICK + 1)))
    by reflexivity.
  destruct (scanPass_progress tickArrayBitmap extension zeroForOne Hp Hn last)
    as (p & Hpass & Hagain).
  destruct p as [r|last'].
  - exists r, last. split.
    + intros fuel Hf.
      destruct fuel as [|fuel]; [rewrite Hbound in Hf; lia|].
      cbn [scanLoop]. rewrite Hpass. reflexivity.
    + split; [apply scans_here|]. split; [exact Hpass|].
      apply Hshape. exact Hpass.
  - destruct (Hagain last' eq_refl) as [Hb _].
    destruct (scanLoop_run tickArrayBitmap extension zeroForOne Hp Hn
                (Z.to_nat (MAX_TICK - MIN_TICK + 1)) last' Hb)
      as (r & final & Hto & Hfinal & Hr).
    { unfold remaining. rewrite Z2Nat.id by (unfold MAX_TICK, MIN_TICK; lia).
      destruct zeroForOne; lia. }
    exists r, final. split.
    + intros fuel Hf.
      destruct fuel as [|fuel]; [rewrite Hbound in Hf; lia|].
      cbn [scanLoop]. rewrite Hpass. apply Hr. rewrite Hbound in Hf. lia.
    + split; [exact (scans_again _ _ _ _ _ _ _ Hpass Hto)|].
      split; [exact Hfinal|]. apply Hshape. exact Hfinal.
Qed.
End Arith.

Lemma nextInitializedTickArrayStartIndex_terminates_witness :
  0 < 1
  /\ List.length (repeat (repeat 0 8) 14) = 14%nat
  /\ List.length (repeat (repeat 1 8) 14) = 14%nat
  /\ exists (result : option Z) (final : Z),
       (forall fuel, (scan_fuel_bound <= fuel)%nat ->
          nextInitializedTickArrayStartIndex fuel (repeat 0 16)
            (repeat (repeat 0 8) 14, repeat (repeat 1 8) 14) (-1) 1 true
          = Some (Ret result))
       /\ scanPass (repeat 0 16)
            (repeat (repeat 0 8) 14, repeat (repeat 1 8) 14) final 1 true
          = Ret (Return result).
Proof.
  split; [lia|]. split; [reflexivity|]. split; [reflexivity|].
  destruct (nextInitializedTickArrayStartIndex_terminates 1 ltac:(lia)
              (repeat 0 16) (repeat (repeat 0 8) 14, repeat (repeat 1 8) 14)
              (-1) true eq_refl eq_refl)
    as (result & final & Hrun & _ & Hpass & _).
  exists result, final. split; [exact Hrun|exact Hpass].
Defined.

End TickArrayFacts.

(** ** Transaction confirmation *)

Section ConfirmationFacts.
Import Confirmation.

(** [k] polls in a row that decide nothing take the loop [k] rounds
  further, as long as the retry counter stays below [maxRetries]. *)
Lemma pollLoop_retries (attempt : nat -> Triage) (maxRetries retryInterval : Z) :
  forall (k fuel : nat) (retries : Z) (polls : nat) (waited : Z),
    (forall i, (i < k)%nat -> attempt (polls + i)%nat = Retry) ->
    retries + Z.of_nat k <= maxRetries ->
    pollLoop (k + fuel) attempt maxRetries retryInterval retries polls waited
    = pollLoop fuel attempt maxRetries retryInterval
               (retries + Z.of_nat k) (polls + k)%nat
               (waited + Z.of_nat k * retryInterval).
Proof.
  induction k as [|k IH]; intros fuel retries polls waited Hretry Hle.
  - cbn [Nat.add Z.of_nat]. rewrite Z.add_0_r, Nat.add_0_r.
    f_equal. lia.
  - cbn [Nat.add pollLoop].
    destruct (retries <? maxRetries) eqn:Hlt; [|apply Z.ltb_ge in Hlt; lia].
    specialize (Hretry O ltac:(lia)) as H0. rewrite Nat.add_0_r in H0.
    rewrite H0. rewrite IH.
    + f_equal; lia.
    + intros i Hi. replace (S polls + i)%nat with (polls + S i)%nat by lia.
      apply Hretry. lia.
    + lia.
Qed.

Lemma pollLoop_terminal (attempt : nat -> Triage) (maxRetries retryInterval : Z)
    (j fuel : nat) :
  (Z.to_nat maxRetries <= fuel)%nat ->
  Z.of_nat j + 1 < maxRetries ->
  (forall i, (i < j)%nat -> attempt i = Retry) ->
  pollLoop fuel attempt maxRetries retryInterval 1 0 0
  = match attempt j with
    | Confirmed => Some {| verdict := Some true; polls := S j;
                           waited := Z.of_nat j * retryInterval |}
    | Failed => Some {| verdict := Some false; polls := S j;
                        waited := Z.of_nat j * retryInterval |}
    | Retry => pollLoop (fuel - S j) attempt maxRetries retryInterval
                        (Z.of_nat j + 2) (S j)
                        (Z.of_nat j * retryInterval + retryInterval)
    end.
Proof.
  intros Hfuel Hj Hretry.
  replace fuel with (j + S (fuel - S j))%nat at 1 by lia.
  rewrite pollLoop_retries; [|exact Hretry|lia].
  cbn [pollLoop Nat.add].
  destruct (1 + Z.of_nat j <? maxRetries) eqn:Hlt; [|apply Z.ltb_ge in Hlt; lia].
  rewrite Z.add_0_l. destruct (attempt j); try reflexivity.
  f_equal; lia.
Qed.

Lemma pollLoop_timeout (attempt : nat -> Triage) (maxRetries retryInterval : Z)
    (fuel : nat) :
  (Z.to_nat maxRetries <= fuel)%nat ->
  1 <= maxRetries ->
  (forall i, attempt i = Retry) ->
  pollLoop fuel attempt maxRetries retryInterval 1 0 0
  = Some {| verdict := None; polls := Z.to_nat (maxRetries - 1);
            waited := (maxRetries - 1) * retryInterval |}.
Proof.
  intros Hfuel Hmax Hretry.
  replace fuel with (Z.to_nat (maxRetries - 1)
                     + S (fuel - S (Z.to_nat (maxRetries - 1))))%nat at 1 by lia.
  rewrite pollLoop_retries; [|intros; apply Hretry|lia].
  cbn [pollLoop Nat.add].
  rewrite Z2Nat.id by lia.
  destruct (1 + (maxRetries - 1) <? maxRetries) eqn:Hlt; [apply Z.ltb_lt in Hlt; lia|].
  f_equal.
Qed.

Variable TransactionError : Type.

(** To part_000 every answer of the [Connection] decides nothing. *)
Lemma triage_raydium_undecided
    (txnRes : js (option (ParsedTransactionWithMeta TransactionError))) :
  triage_raydium (read_by_part_000 txnRes) = Retry.
Proof. destruct txnRes as [[res|]|]; reflexivity. Qed.

(** C2.  With fuel for [maxRetries] rounds and any sequence of answers of
  [getTransaction].  The bonding-curve bot (utils.ts) does what the
  claim says: a poll [j] (from 0) that finds the transaction with a
  null error, all polls before it having decided nothing, makes
  [confirmTxn] return [true] after exactly [j + 1] polls; one that finds
  it with an error makes it return [false] after exactly [j + 1] polls;
  and when every poll answers not found or throws, [confirmTxn] returns
  [null] after exactly [maxRetries - 1] polls, the retry counter
  starting at 1.  The AMM bot (part_000) tests [txnRes.value], which no
  answer of the [Connection] has: whatever the polls find, it returns
  [null] after exactly [maxRetries - 1] polls and as many sleeps, never
  [true] and never [false]. *)
Theorem confirmTxn_polling_contract (maxRetries retryInterval : Z) (fuel : nat) :
  (Z.to_nat maxRetries <= fuel)%nat ->
  1 <= maxRetries ->
  forall getTransaction
         : nat -> js (option (ParsedTransactionWithMeta TransactionError)),
    ((forall j : nat,
         Z.of_nat j + 1 < maxRetries ->
         (forall i, (i < j)%nat -> triage_pumpfun (getTransaction i) = Retry) ->
         (found_confirmed (getTransaction j) ->
          confirmTxn_pumpfun fuel getTransaction maxRetries retryInterval
          = Some {| verdict := Some true; polls := S j;
                    waited := Z.of_nat j * retryInterval |})
         /\ (found_failed (getTransaction j) ->
             confirmTxn_pumpfun fuel getTransaction maxRetries retryInterval
             = Some {| verdict := Some false; polls := S j;
                       waited := Z.of_nat j * retryInterval |}))
     /\ ((forall i, not_found (getTransaction i)) ->
         confirmTxn_pumpfun fuel getTransaction maxRetries retryInterval
         = Some {| verdict := None; polls := Z.to_nat (maxRetries - 1);
                   waited := (maxRetries - 1) * retryInterval |}))
    /\ confirmTxn_raydium fuel (fun k => read_by_part_000 (getTransaction k))
         maxRetries retryInterval
       = Some {| verdict := None; polls := Z.to_nat (maxRetries - 1);
                 waited := (maxRetries - 1) * retryInterval |}.
Proof.
  intros Hfuel Hmax getTransaction. split; [split|].
  - intros j Hj Hretry. unfold confirmTxn_pumpfun.
    rewrite (pollLoop_terminal _ maxRetries retryInterval j fuel Hfuel Hj Hretry).
    split.
    + intros Hfound. unfold found_confirmed in Hfound.
      rewrite Hfound. reflexivity.
    + intros [e Hfound]. rewrite Hfound. reflexivity.
  - intros Hnone. unfold confirmTxn_pumpfun.
    apply pollLoop_timeout; [exact Hfuel|exact Hmax|].
    intros i. destruct (Hnone i) as [H|H]; rewrite H; reflexivity.
  - unfold confirmTxn_raydium.
    apply pollLoop_timeout; [exact Hfuel|exact Hmax|].
    intros i. apply triage_raydium_undecided.
Qed.
End ConfirmationFacts.

Lemma confirmTxn_polling_contract_witness :
  (Z.to_nat Confirmation.default_maxRetries <= 20)%nat
  /\ 1 <= Confirmation.default_maxRetries
  /\ Confirmation.confirmTxn_pumpfun (TransactionError := string) 20
       (fun _ => Ret (Some {| Confirmation.meta :=
                                Some {| Confirmation.err := None |} |}))
       Confirmation.default_maxRetries Confirmation.default_retryInterval
     = Some {| Confirmation.verdict := Some true; Confirmation.polls := 1;
               Confirmation.waited := 0 |}
  /\ Confirmation.confirmTxn_raydium (TransactionError := string) 20
       (fun _ => Confirmation.read_by_part_000
                   (Ret (Some {| Confirmation.meta :=
                                   Some {| Confirmation.err := None |} |})))
       Confirmation.default_maxRetries Confirmation.default_retryInterval
     = Some {| Confirmation.verdict := None; Confirmation.polls := 19;
               Confirmation.waited := 57000 |}.
Proof.
  split; [vm_compute; lia|]. split; [vm_compute; discriminate|].
  destruct (confirmTxn_polling_contract string
              Confirmation.default_maxRetries
              Confirmation.default_retryInterval 20
              ltac:(vm_compute; lia) ltac:(vm_compute; discriminate)
              (fun _ => Ret (Some {| Confirmation.meta :=
                                       Some {| Confirmation.err := None |} |})))
    as [[Hdecided _] Hraydium].
  split; [|exact Hraydium].
  destruct (Hdecided 0%nat ltac:(vm_compute; reflexivity)
              ltac:(intros i Hi; inversion Hi)) as [Htrue _].
  apply Htrue. reflexivity.
Defined.

(** ** Buffers, bn.js and the 128-bit codec *)

Section BufferFacts.

Lemma byte_to_of_Z (z : Z) : byte_to_Z (byte_of_Z z) = z mod 256.
Proof.
  unfold byte_to_Z, byte_of_Z.
  pose proof (Z.mod_pos_bound z 256 ltac:(lia)) as Hb.
  destruct (Byte.of_N (Z.to_N (z mod 256))) as [b|] eqn:Hof.
  - apply Byte.to_of_N in Hof. rewrite Hof. lia.
  - apply Byte.of_N_None_iff in Hof. lia.
Qed.

Lemma to_bytes_le_length (len : nat) :
  forall n, List.length (BN.to_bytes_le len n) = len.
Proof.
  induction len as [|len IH]; intros n; cbn [BN.to_bytes_le List.length];
    [reflexivity|]. rewrite IH. reflexivity.
Qed.

Lemma of_to_bytes_le (len : nat) :
  forall n, 0 <= n ->
    BN.of_bytes_le (BN.to_bytes_le len n) = n mod 256 ^ Z.of_nat len.
Proof.
  induction len as [|len IH]; intros n Hn.
  - cbn [BN.to_bytes_le BN.of_bytes_le Z.of_nat]. rewrite Z.pow_0_r, Z.mod_1_r.
    reflexivity.
  - cbn [BN.to_bytes_le BN.of_bytes_le].
    rewrite byte_to_of_Z, IH by (apply Z.div_pos; lia).
    rewrite Nat2Z.inj_succ, Z.pow_succ_r by lia.
    rewrite Z.rem_mul_r by lia. lia.
Qed.

Lemma byteLength_fits (n : Z) (len : nat) :
  0 <= n < 256 ^ Z.of_nat len ->
  BN.byteLength n <= Z.of_nat len.
Proof.
  intros [Hlo Hhi]. unfold BN.byteLength.
  destruct (n =? 0) eqn:Hz; [lia|]. apply Z.eqb_neq in Hz.
  rewrite Z.abs_eq by lia.
  assert (Hlog : Z.log2 n < 8 * Z.of_nat len).
  { apply Z.log2_lt_pow2; [lia|].
    replace (2 ^ (8 * Z.of_nat len)) with (256 ^ Z.of_nat len); [exact Hhi|].
    change 256 with (2 ^ 8). rewrite <- Z.pow_mul_r by lia. reflexivity. }
  assert (Z.log2 n / 8 < Z.of_nat len)
    by (apply Z.div_lt_upper_bound; lia).
  lia.
Qed.

Lemma toArrayLike_le_fits (n : Z) (len : nat) :
  (0 < len)%nat ->
  0 <= n < 256 ^ Z.of_nat len ->
  BN.toArrayLike_le n len = Ret (BN.to_bytes_le len n).
Proof.
  intros Hlen Hn. unfold BN.toArrayLike_le.
  pose proof (byteLength_fits n len Hn) as Hfit.
  apply Z.leb_le in Hfit. rewrite Hfit.
  assert (Hpos : (0 <? Z.of_nat len) = true) by (apply Z.ltb_lt; lia).
  rewrite Hpos. cbn [andb]. rewrite Z.abs_eq by lia. reflexivity.
Qed.

Lemma slice_app_low (low high : Buffer) :
  List.length low = 8%nat -> slice (low ++ high) 0 8 = low.
Proof.
  intros Hl. unfold slice. change (8 - 0)%nat with 8%nat. cbn [skipn].
  rewrite firstn_app, Hl, Nat.sub_diag.
  rewrite firstn_all2 by lia. cbn [firstn]. apply app_nil_r.
Qed.

Lemma slice_app_high (low high : Buffer) :
  List.length low = 8%nat -> List.length high = 8%nat ->
  slice (low ++ high) 8 16 = high.
Proof.
  intros Hl Hh. unfold slice. change (16 - 8)%nat with 8%nat.
  rewrite skipn_app, Hl, Nat.sub_diag.
  rewrite skipn_all2 by lia. cbn [skipn app].
  apply firstn_all2. lia.
Qed.
End BufferFacts.

Section UInt128Facts.
Import UInt128.

(** C4.  For every [n] with [0 <= n < 2^128], [encodeUInt128 n] is the 16
  bytes made of the low 64-bit word and then the high 64-bit word of
  [n], each little-endian, and [decodeUInt128] of these bytes, which
  computes [high * 2^64 + low], is [n] again. *)
Theorem decode_encode_UInt128 (n : Z) :
  0 <= n < 2 ^ 128 ->
  exists buffer,
    encodeUInt128 n = Ret buffer
    /\ buffer = BN.to_bytes_le 8 (n mod 2 ^ 64) ++ BN.to_bytes_le 8 (n / 2 ^ 64)
    /\ List.length buffer = 16%nat
    /\ decodeUInt128 buffer
       = BN.of_bytes_le (slice buffer 8 16) * 2 ^ 64
         + BN.of_bytes_le (slice buffer 0 8)
    /\ decodeUInt128 buffer = n.
Proof.
  intros [Hlo Hhi].
  assert (Hlow' : 0 <= n mod 2 ^ 64 < 2 ^ 64) by (apply Z.mod_pos_bound; lia).
  assert (Hhigh' : 0 <= n / 2 ^ 64 < 2 ^ 64).
  { split.
    - apply Z.div_pos; lia.
    - apply Z.div_lt_upper_bound; [lia|]. change (2 ^ 64 * 2 ^ 64) with (2 ^ 128). lia. }
  assert (Hpow : 256 ^ Z.of_nat 8 = 2 ^ 64) by reflexivity.
  assert (Hlow : 0 <= n mod 2 ^ 64 < 256 ^ Z.of_nat 8) by (rewrite Hpow; exact Hlow').
  assert (Hhigh : 0 <= n / 2 ^ 64 < 256 ^ Z.of_nat 8) by (rewrite Hpow; exact Hhigh').
  exists (BN.to_bytes_le 8 (n mod 2 ^ 64) ++ BN.to_bytes_le 8 (n / 2 ^ 64)).
  assert (Hdec : forall buffer, decodeUInt128 buffer
            = BN.of_bytes_le (slice buffer 8 16) * 2 ^ 64
              + BN.of_bytes_le (slice buffer 0 8)).
  { intros buffer. unfold decodeUInt128, BN.add, BN.shln.
    rewrite Z.shiftl_mul_pow2 by lia. reflexivity. }
  split; [|split; [reflexivity|split; [|split; [apply Hdec|]]]].
  - unfold encodeUInt128, BN.maskn, BN.shrn.
    destruct (n <? 0) eqn:Hneg; [apply Z.ltb_lt in Hneg; lia|].
    cbn [js_bind]. rewrite Z.land_ones by lia.
    rewrite (toArrayLike_le_fits _ 8 ltac:(lia) Hlow). cbn [js_bind].
    rewrite Z.shiftr_div_pow2 by lia.
    rewrite (toArrayLike_le_fits _ 8 ltac:(lia) Hhigh). reflexivity.
  - rewrite length_app, !to_bytes_le_length. reflexivity.
  - rewrite Hdec.
    rewrite slice_app_high, slice_app_low by apply to_bytes_le_length.
    rewrite !of_to_bytes_le by lia.
    rewrite Hpow.
    rewrite (Z.mod_small (n / 2 ^ 64)) by exact Hhigh'.
    rewrite Z.mod_mod by lia.
    pose proof (Z.div_mod n (2 ^ 64) ltac:(lia)). lia.
Qed.
End UInt128Facts.

Lemma decode_encode_UInt128_witness :
  0 <= 2 ^ 64 < 2 ^ 128
  /\ exists buffer,
      UInt128.encodeUInt128 (2 ^ 64) = Ret buffer
      /\ buffer = BN.to_bytes_le 8 ((2 ^ 64) mod 2 ^ 64)
                  ++ BN.to_bytes_le 8 ((2 ^ 64) / 2 ^ 64)
      /\ List.length buffer = 16%nat
      /\ UInt128.decodeUInt128 buffer
         = BN.of_bytes_le (slice buffer 8 16) * 2 ^ 64
           + BN.of_bytes_le (slice buffer 0 8)
      /\ UInt128.decodeUInt128 buffer = 2 ^ 64.
Proof.
  split; [lia|]. apply (decode_encode_UInt128 (2 ^ 64)). lia.
Defined.

(** ** The concentrated-liquidity swap instruction *)

Section SwapInstructionFacts.
Import PoolUtils.

(** [packU64] gives the 8 little-endian bytes of a value below 2^53 and
  throws on every other number: below 0 and from 2^64 on by its own
  guard, between 2^53 and 2^64 by the one of [new BN(number)]. *)
Lemma packU64_spec (value : Z) :
  packU64 value
  = if (0 <=? value) && (value <? 2 ^ 53)
    then Ret (BN.to_bytes_le 8 value) else Throw.
Proof.
  unfold packU64, BN.of_number.
  destruct (0 <=? value) eqn:Hlo; cbn [andb negb]; [|reflexivity].
  apply Z.leb_le in Hlo. rewrite Z.abs_eq by exact Hlo.
  destruct (value <? 2 ^ 53) eqn:H53.
  - apply Z.ltb_lt in H53.
    assert (H64 : (value <? 2 ^ 64) = true) by (apply Z.ltb_lt; lia).
    rewrite H64. cbn [negb js_bind].
    apply toArrayLike_le_fits; [lia|].
    change (256 ^ Z.of_nat 8) with (2 ^ 64). lia.
  - destruct (value <? 2 ^ 64); reflexivity.
Qed.

(** C6.  For every amount, direction and pool-key bundle: whenever
  [makeClmmSwapInstruction] builds an instruction, which it does exactly
  for the amounts [packU64] accepts, its data are the 41 bytes made of
  the discriminator 2b04ed0b1ac91e62, the amount in 8 little-endian
  bytes, 8 zero bytes for the other-amount threshold, 16 zero bytes and
  a last byte 1. *)
Theorem makeClmmSwapInstruction_data (amount : Z)
    (tokenAccountIn tokenAccountOut : PublicKey) (poolKeys : ClmmPoolKeys)
    (payer : PublicKey) (action : Direction) :
  (forall ix,
      makeClmmSwapInstruction amount tokenAccountIn tokenAccountOut
                              poolKeys payer action = Ret ix ->
      data ix = clmm_swap_data amount
      /\ List.length (data ix) = 41%nat
      /\ BN.of_bytes_le (slice (data ix) 8 16) = amount
      /\ BN.of_bytes_le (slice (data ix) 16 24) = 0
      /\ nth_error (data ix) 40 = Some Byte.x01)
  /\ ((exists ix,
         makeClmmSwapInstruction amount tokenAccountIn tokenAccountOut
                                 poolKeys payer action = Ret ix)
      <-> 0 <= amount < 2 ^ 53).
Proof.
  unfold makeClmmSwapInstruction.
  rewrite (packU64_spec amount).
  destruct ((0 <=? amount) && (amount <? 2 ^ 53)) eqn:Hok.
  - apply andb_true_iff in Hok. destruct Hok as [Hlo Hhi].
    apply Z.leb_le in Hlo. apply Z.ltb_lt in Hhi.
    assert (Hlen : List.length (BN.to_bytes_le 8 amount) = 8%nat)
      by apply to_bytes_le_length.
    assert (Hval : BN.of_bytes_le (BN.to_bytes_le 8 amount) = amount)
      by (rewrite of_to_bytes_le by lia;
          apply Z.mod_small; change (256 ^ Z.of_nat 8) with (2 ^ 64); lia).
    unfold clmm_swap_data.
    remember (BN.to_bytes_le 8 amount) as amountBytes eqn:Eab. clear Eab.
    destruct amountBytes
      as [|b0 [|b1 [|b2 [|b3 [|b4 [|b5 [|b6 [|b7 [|b8 l]]]]]]]]];
      try discriminate Hlen.
    split.
    + intros ix Hix. destruct action; cbn in Hix;
        injection Hix as Hix; subst ix; cbn [data];
        repeat split; try reflexivity; exact Hval.
    + split; [intros _; lia|]. intros _.
      destruct action; cbn; eexists; reflexivity.
  - split.
    + intros ix Hix. destruct action; discriminate Hix.
    + split.
      * intros [ix Hix]. destruct action; discriminate Hix.
      * intros [Hlo Hhi]. apply andb_false_iff in Hok.
        destruct Hok as [H|H]; [apply Z.leb_gt in H | apply Z.ltb_ge in H]; lia.
Qed.
End SwapInstructionFacts.

(** ** Double-precision arithmetic and the pricing helpers *)

Section DoubleFacts.
Import Double.
Local Open Scope Q_scope.

Lemma rne_comp (x y : Q) : x == y -> rne x = rne y.
Proof.
  intros H. unfold rne. rewrite (Qfloor_comp _ _ H).
  assert (Hc : Qcompare (x - inject_Z (Qfloor y)) (1 # 2)
               = Qcompare (y - inject_Z (Qfloor y)) (1 # 2))
    by (apply Qcompare_comp; [rewrite H; reflexivity|reflexivity]).
  rewrite Hc. reflexivity.
Qed.

Lemma rne_floor (x : Q) :
  rne x = Qfloor x \/ rne x = (Qfloor x + 1)%Z.
Proof.
  unfold rne. destruct (Qcompare _ _); auto. destruct (Z.even _); auto.
Qed.

Lemma rne_error (x : Q) : Qabs (inject_Z (rne x) - x) <= 1 # 2.
Proof.
  pose proof (Qfloor_le x) as Hlo. pose proof (Qlt_floor x) as Hhi.
  rewrite inject_Z_plus in Hhi. change (inject_Z 1) with 1 in Hhi.
  apply Qabs_Qle_condition. unfold rne.
  destruct (Qcompare (x - inject_Z (Qfloor x)) (1 # 2)) eqn:Hc.
  - apply Qeq_alt in Hc.
    destruct (Z.even (Qfloor x)); [|rewrite inject_Z_plus; change (inject_Z 1) with 1];
      split; lra.
  - apply Qlt_alt in Hc. split; lra.
  - apply Qgt_alt in Hc. rewrite inject_Z_plus. change (inject_Z 1) with 1.
    split; lra.
Qed.

Lemma rne_nonneg (x : Q) : 0 <= x -> (0 <= rne x)%Z.
Proof.
  intros Hx. assert (H0 : (0 <= Qfloor x)%Z).
  { change 0%Z with (Qfloor 0). apply Qfloor_resp_le. exact Hx. }
  destruct (rne_floor x) as [H|H]; rewrite H; lia.
Qed.

Lemma pow2_pos (e : Z) : 0 < 2 ^ e.
Proof. apply Qpower_0_lt. reflexivity. Qed.

Lemma pow2_add (a b : Z) : 2 ^ (a + b) == 2 ^ a * 2 ^ b.
Proof. apply Qpower_plus. discriminate. Qed.

Lemma pow2_le (a b : Z) : (a <= b)%Z -> 2 ^ a <= 2 ^ b.
Proof. intros H. apply Qpower_le_compat_l; [exact H|discriminate]. Qed.

Lemma pow2_lt_inv (a b : Z) : 2 ^ a < 2 ^ b -> (a < b)%Z.
Proof. intros H. apply (Qpower_lt_compat_l_inv 2); [exact H|reflexivity]. Qed.

Lemma pow2_Z (n : Z) : (0 <= n)%Z -> inject_Z (2 ^ n) == 2 ^ n.
Proof. intros H. apply (Zpower_Qpower 2 n H). Qed.

(** [mag x] is the exponent of the binade of a non-zero [x]. *)
Lemma mag_spec (x : Q) :
  ~ x == 0 -> 2 ^ (mag x - 1) <= Qabs x /\ Qabs x < 2 ^ mag x.
Proof.
  intros Hx. unfold mag.
  set (n := Z.abs (Qnum x)). set (d := Zpos (Qden x)).
  assert (Hn : (0 < n)%Z).
  { unfold n. destruct x as [xn xd]. cbn [Qnum].
    assert (xn <> 0)%Z by (intros ->; apply Hx; reflexivity). lia. }
  assert (Hd : (0 < d)%Z) by (unfold d; lia).
  destruct (Z.log2_spec n Hn) as [Hn1 Hn2].
  destruct (Z.log2_spec d Hd) as [Hd1 Hd2].
  pose proof (Z.log2_nonneg n) as Hln. pose proof (Z.log2_nonneg d) as Hld.
  set (a := Z.log2 n) in *. set (b := Z.log2 d) in *.
  assert (Habs : Qabs x == inject_Z n / inject_Z d).
  { destruct x as [xn xd]. unfold n, d. cbn [Qabs Qnum Qden].
    apply Qmake_Qdiv. }
  assert (Hdq : 0 < inject_Z d) by (change 0 with (inject_Z 0); rewrite <- Zlt_Qlt; exact Hd).
  assert (HA1 : 2 ^ a <= inject_Z n).
  { rewrite <- pow2_Z by exact Hln. rewrite <- Zle_Qle. exact Hn1. }
  assert (HA2 : inject_Z n < 2 ^ (a + 1)).
  { rewrite <- pow2_Z by lia. rewrite <- Zlt_Qlt.
    replace (a + 1)%Z with (Z.succ a) by lia. exact Hn2. }
  assert (HB1 : 2 ^ b <= inject_Z d).
  { rewrite <- pow2_Z by exact Hld. rewrite <- Zle_Qle. exact Hd1. }
  assert (HB2 : inject_Z d < 2 ^ (b + 1)).
  { rewrite <- pow2_Z by lia. rewrite <- Zlt_Qlt.
    replace (b + 1)%Z with (Z.succ b) by lia. exact Hd2. }
  assert (Hup : Qabs x < 2 ^ (a - b + 1)).
  { rewrite Habs. apply Qlt_shift_div_r; [exact Hdq|].
    apply Qlt_le_trans with (2 ^ (a + 1)); [exact HA2|].
    replace (a + 1)%Z with ((a - b + 1) + b)%Z by lia.
    rewrite pow2_add. apply Qmult_le_l; [apply pow2_pos|exact HB1]. }
  assert (Hdown : 2 ^ (a - b - 1) <= Qabs x).
  { rewrite Habs. apply Qle_shift_div_l; [exact Hdq|].
    apply Qle_trans with (2 ^ a); [|exact HA1].
    replace a with ((a - b - 1) + (b + 1))%Z at 2 by lia.
    rewrite pow2_add. apply Qmult_le_l; [apply pow2_pos|].
    apply Qlt_le_weak. exact HB2. }
  destruct (Qle_bool (2 ^ (a - b)) (Qabs x)) eqn:Hc.
  - apply Qle_bool_iff in Hc. split.
    + replace (a - b + 1 - 1)%Z with (a - b)%Z by lia. exact Hc.
    + exact Hup.
  - split; [exact Hdown|].
    apply Qnot_le_lt. intros Hle. apply Qle_bool_iff in Hle. congruence.
Qed.

Lemma mag_red_spec (x : Q) :
  ~ x == 0 ->
  2 ^ (mag (Qred x) - 1) <= Qabs x /\ Qabs x < 2 ^ mag (Qred x).
Proof.
  intros Hx.
  assert (Hnz : ~ Qred x == 0)
    by (intros H0; apply Hx; rewrite <- H0; symmetry; apply Qred_correct).
  pose proof (mag_spec (Qred x) Hnz) as Hm.
  assert (Ha : Qabs (Qred x) == Qabs x) by (apply Qabs_wd, Qred_correct).
  revert Hm. generalize (mag (Qred x)). intros m Hm.
  rewrite Ha in Hm. exact Hm.
Qed.

Lemma round_eq (x : Q) :
  round x == inject_Z (rne (x / 2 ^ fexp (Qred x))) * 2 ^ fexp (Qred x).
Proof.
  unfold round. cbv zeta.
  eapply Qeq_trans; [apply Qred_correct|].
  rewrite (rne_comp (Qred x / 2 ^ fexp (Qred x)) (x / 2 ^ fexp (Qred x)))
    by (unfold Qdiv; apply Qmult_comp; [apply Qred_correct|reflexivity]).
  reflexivity.
Qed.

Lemma round_half_ulp (x : Q) :
  Qabs (round x - x) <= (1 # 2) * 2 ^ fexp (Qred x).
Proof.
  rewrite round_eq. set (e := fexp (Qred x)).
  pose proof (pow2_pos e) as He.
  assert (Hq : inject_Z (rne (x / 2 ^ e)) * 2 ^ e - x
               == (inject_Z (rne (x / 2 ^ e)) - x / 2 ^ e) * 2 ^ e)
    by (field; lra).
  rewrite Hq, Qabs_Qmult, (Qabs_pos (2 ^ e)) by lra.
  apply Qmult_le_compat_r; [apply rne_error|lra].
Qed.

Lemma round_0 (x : Q) : x == 0 -> round x == 0.
Proof.
  intros Hx. rewrite round_eq.
  generalize (fexp (Qred x)). intros e.
  rewrite (rne_comp (x / 2 ^ e) (inject_Z 0)).
  - reflexivity.
  - rewrite Hx. unfold Qdiv. ring.
Qed.

Lemma round_nonneg (x : Q) : 0 <= x -> 0 <= round x.
Proof.
  intros Hx. rewrite round_eq. set (e := fexp (Qred x)).
  pose proof (pow2_pos e) as He.
  apply Qmult_le_0_compat; [|lra].
  change 0 with (inject_Z 0). rewrite <- Zle_Qle. apply rne_nonneg.
  apply Qle_shift_div_l; [exact He|]. lra.
Qed.

Lemma u_pow2 : u == 2 ^ (-53).
Proof. vm_compute. reflexivity. Qed.

Lemma eta_pow2 : eta == 2 ^ (-1075).
Proof. vm_compute. reflexivity. Qed.

(** The relative error of rounding in the normal range. *)
Lemma round_error_normal (x : Q) :
  2 ^ (-1022) <= Qabs x -> Qabs (round x - x) <= u * Qabs x.
Proof.
  intros Hx.
  assert (Hnz : ~ x == 0).
  { intros H0. rewrite H0 in Hx.
    pose proof (pow2_pos (-1022)). change (Qabs 0) with 0 in Hx. lra. }
  destruct (mag_red_spec x Hnz) as [Hm1 Hm2].
  assert (Hmag : (-1022 < mag (Qred x))%Z).
  { apply pow2_lt_inv. eapply Qle_lt_trans; [exact Hx|exact Hm2]. }
  eapply Qle_trans; [apply round_half_ulp|].
  unfold fexp. rewrite Z.max_l by lia.
  replace (mag (Qred x) - 53)%Z with ((-52) + (mag (Qred x) - 1))%Z by lia.
  rewrite pow2_add, u_pow2.
  assert (Hc : (1 # 2) * (2 ^ (-52) * 2 ^ (mag (Qred x) - 1))
               == 2 ^ (-53) * 2 ^ (mag (Qred x) - 1)).
  { assert (H52 : 2 ^ (-52) == 2 * 2 ^ (-53)) by (vm_compute; reflexivity).
    rewrite H52. ring. }
  rewrite Hc. apply Qmult_le_l; [apply pow2_pos|exact Hm1].
Qed.

(** The error of rounding anywhere: relative, or half of the spacing of
  the subnormal numbers. *)
Lemma round_error_abs (x : Q) :
  Qabs (round x - x) <= u * Qabs x + eta.
Proof.
  pose proof (Qabs_nonneg x) as Hax.
  assert (Hu : 0 < u) by reflexivity.
  assert (He : 0 < eta) by reflexivity.
  destruct (Qlt_le_dec (Qabs x) (2 ^ (-1022))) as [Hsmall|Hbig].
  - destruct (Qeq_dec x 0) as [H0|Hnz].
    + assert (Hr : round x - x == 0) by (rewrite (round_0 x H0), H0; ring).
      rewrite Hr. change (Qabs 0) with 0. nra.
    + destruct (mag_red_spec x Hnz) as [Hm1 Hm2].
      assert (Hmag : (mag (Qred x) - 1 < -1022)%Z).
      { apply pow2_lt_inv. eapply Qle_lt_trans; [exact Hm1|exact Hsmall]. }
      eapply Qle_trans; [apply round_half_ulp|].
      unfold fexp. rewrite Z.max_r by lia.
      assert (Hc : (1 # 2) * 2 ^ (-1074) == eta) by (vm_compute; reflexivity).
      rewrite Hc. nra.
  - pose proof (round_error_normal x Hbig). lra.
Qed.

Lemma finite_round (x : Q) :
  Qabs x <= 2 ^ 1000 -> finite x = Some (round x).
Proof.
  intros Hx. unfold finite. cbv zeta.
  assert (Hle : Qabs (round x) <= MAX_VALUE).
  { pose proof (round_error_abs x) as He.
    pose proof (Qabs_triangle (round x - x) x) as Ht.
    assert (Hs : round x - x + x == round x) by ring.
    rewrite Hs in Ht.
    pose proof (Qabs_nonneg x) as Hax.
    assert (Hu : u <= 1) by (vm_compute; discriminate).
    assert (Hu0 : 0 <= u) by (vm_compute; discriminate).
    assert (Hm : 2 * 2 ^ 1000 + eta <= MAX_VALUE) by (vm_compute; discriminate).
    assert (Hux : u * Qabs x <= Qabs x) by nra.
    lra. }
  apply Qle_bool_iff in Hle. rewrite Hle. reflexivity.
Qed.

Lemma u_bounds : 0 < u /\ u <= 1 # 1000.
Proof. split; [reflexivity|vm_compute; discriminate]. Qed.

Lemma within_pos (k : Z) (x : Q) : within k x -> 0 < x.
Proof.
  intros [H _]. eapply Qlt_le_trans; [apply (pow2_pos (- k))|exact H].
Qed.

Lemma within_weaken (j k : Z) (x : Q) :
  (j <= k)%Z -> within j x -> within k x.
Proof.
  intros Hjk [H1 H2]. split.
  - eapply Qle_trans; [|exact H1]. apply pow2_le. lia.
  - eapply Qle_trans; [exact H2|]. apply pow2_le. lia.
Qed.

Lemma within_mul (j k : Z) (x y : Q) :
  within j x -> within k y -> within (j + k) (x * y).
Proof.
  intros Hx Hy. pose proof (within_pos _ _ Hx). pose proof (within_pos _ _ Hy).
  destruct Hx as [Hx1 Hx2], Hy as [Hy1 Hy2].
  pose proof (pow2_pos (- j)). pose proof (pow2_pos (- k)).
  split.
  - replace (- (j + k))%Z with (- j + - k)%Z by lia. rewrite pow2_add.
    apply Qmult_le_compat_nonneg; split; lra.
  - rewrite pow2_add. apply Qmult_le_compat_nonneg; split; lra.
Qed.

Lemma within_inv (k : Z) (x : Q) : within k x -> within k (/ x).
Proof.
  intros Hx. pose proof (within_pos _ _ Hx) as Hpos.
  destruct Hx as [Hx1 Hx2].
  pose proof (pow2_pos (- k)) as Hk1. pose proof (pow2_pos k) as Hk2.
  assert (Hinv : 2 ^ (- k) == / 2 ^ k) by apply Qpower_opp.
  split.
  - rewrite Hinv. apply Qle_shift_inv_l; [exact Hpos|].
    rewrite Qmult_comm.
    apply (Qle_shift_div_r x (2 ^ k) 1); [exact Hk2|lra].
  - apply Qle_shift_inv_r; [exact Hpos|].
    assert (Hm : 1 == 2 ^ k * 2 ^ (- k)).
    { rewrite <- pow2_add. replace (k + - k)%Z with 0%Z by lia. reflexivity. }
    rewrite Hm. apply Qmult_le_l; [exact Hk2|exact Hx1].
Qed.

Lemma within_div (j k : Z) (x y : Q) :
  within j x -> within k y -> within (j + k) (x / y).
Proof.
  intros Hx Hy. unfold Qdiv. apply within_mul; [exact Hx|].
  apply within_inv. exact Hy.
Qed.

Lemma within_add (j k n : Z) (x y : Q) :
  (j <= n)%Z -> (k <= n)%Z ->
  within j x -> within k y -> within (n + 1) (x + y).
Proof.
  intros Hj Hk Hx Hy.
  apply (within_weaken j n) in Hx; [|exact Hj].
  apply (within_weaken k n) in Hy; [|exact Hk].
  pose proof (within_pos _ _ Hy).
  destruct Hx as [Hx1 Hx2], Hy as [Hy1 Hy2].
  split.
  - eapply Qle_trans; [apply (pow2_le (- (n + 1)) (- n)); lia|]. lra.
  - rewrite pow2_add. change (2 ^ 1) with 2. lra.
Qed.

(** A value within a relative distance of one half of [x]. *)
Lemma within_near (k : Z) (w x y : Q) :
  within k x -> 0 <= w -> w <= 1 # 2 ->
  x * (1 - w) <= y <= x * (1 + w) -> within (k + 1) y.
Proof.
  intros Hx Hw0 Hw [Hy1 Hy2]. pose proof (within_pos _ _ Hx) as Hpos.
  destruct Hx as [Hx1 Hx2]. split.
  - replace (- (k + 1))%Z with (- k + - 1)%Z by lia. rewrite pow2_add.
    change (2 ^ (-1)) with (1 # 2).
    pose proof (pow2_pos (- k)). nra.
  - rewrite pow2_add. change (2 ^ 1) with 2. nra.
Qed.

(** Rounding a positive number of the normal range: the result is finite
  and within the unit roundoff of the number. *)
Lemma round_within (k : Z) (x : Q) :
  (k <= 1000)%Z -> within k x ->
  finite x = Some (round x)
  /\ x * (1 - u) <= round x <= x * (1 + u)
  /\ within (k + 1) (round x).
Proof.
  intros Hk Hx. pose proof (within_pos _ _ Hx) as Hpos.
  assert (Hrel : x * (1 - u) <= round x <= x * (1 + u)).
  { assert (Hn : 2 ^ (-1022) <= Qabs x).
    { rewrite Qabs_pos by lra. destruct Hx as [Hx1 _].
      eapply Qle_trans; [|exact Hx1]. apply pow2_le. lia. }
    pose proof (round_error_normal x Hn) as He.
    rewrite (Qabs_pos x) in He by lra.
    apply Qabs_Qle_condition in He. split; lra. }
  split; [|split; [exact Hrel|]].
  - apply finite_round. rewrite Qabs_pos by lra. destruct Hx as [_ Hx2].
    eapply Qle_trans; [exact Hx2|]. apply pow2_le. exact Hk.
  - destruct u_bounds as [Hu0 Hu1].
    apply (within_near k u x); [exact Hx|lra|lra|exact Hrel].
Qed.

Lemma round_any (x : Q) :
  Qabs x <= 2 ^ 1000 ->
  finite x = Some (round x) /\ Qabs (round x - x) <= u * Qabs x + eta.
Proof.
  intros Hx. split; [apply finite_round; exact Hx|apply round_error_abs].
Qed.

Lemma div_within (j k : Z) (x y : Q) :
  (j + k <= 1000)%Z -> within j x -> within k y ->
  div x y = Some (round (x / y))
  /\ (x / y) * (1 - u) <= round (x / y) <= (x / y) * (1 + u)
  /\ within (j + k + 1) (round (x / y)).
Proof.
  intros Hjk Hx Hy. unfold div.
  pose proof (within_pos _ _ Hy) as Hpos.
  destruct (Qeq_bool y 0) eqn:Hz.
  - apply Qeq_bool_iff in Hz. lra.
  - apply round_within; [exact Hjk|]. apply within_div; assumption.
Qed.

(** The relative error of a rounded quotient of two perturbed positive
  numbers. *)
Lemma quotient_rel (w al be ga K D k d q0 q Q0 : Q) :
  0 <= w -> w <= 1 -> 0 <= al -> 0 <= be -> be < 1 ->
  (1 + al) * (1 + w) <= (1 + ga) * (1 - be) ->
  (1 - ga) * (1 + be) <= (1 - al) * (1 - w) ->
  0 < K -> 0 < D ->
  K * (1 - al) <= k <= K * (1 + al) ->
  D * (1 - be) <= d <= D * (1 + be) ->
  q0 * d == k -> Q0 * D == K -> 0 <= q0 ->
  q0 * (1 - w) <= q <= q0 * (1 + w) ->
  Q0 * (1 - ga) <= q <= Q0 * (1 + ga).
Proof.
  intros Hw Hw1 Hal Hbe Hbe1 Hup Hdown HK HD [Hk1 Hk2] [Hd1 Hd2] Hq0 HQ0 Hq0pos
    [Hq1 Hq2].
  assert (HQ0pos : 0 < Q0) by nra.
  assert (Hd : 0 < d) by nra.
  assert (Ha : q0 * (1 - be) <= Q0 * (1 + al)).
  { apply (Qmult_lt_0_le_reg_r _ _ D HD).
    assert (q0 * (D * (1 - be)) <= q0 * d) by nra.
    nra. }
  assert (Hb : Q0 * (1 - al) <= q0 * (1 + be)).
  { apply (Qmult_lt_0_le_reg_r _ _ D HD).
    assert (q0 * d <= q0 * (D * (1 + be))) by nra.
    nra. }
  split.
  - apply (Qmult_lt_0_le_reg_r _ _ (1 + be)); [lra|].
    assert (H1 : Q0 * ((1 - ga) * (1 + be)) <= Q0 * ((1 - al) * (1 - w)))
      by nra.
    assert (H2 : Q0 * (1 - al) * (1 - w) <= q0 * (1 + be) * (1 - w))
      by nra.
    nra.
  - apply (Qmult_lt_0_le_reg_r _ _ (1 - be)); [lra|].
    assert (H1 : Q0 * ((1 + al) * (1 + w)) <= Q0 * ((1 + ga) * (1 - be)))
      by nra.
    assert (H2 : q0 * (1 - be) * (1 + w) <= Q0 * (1 + al) * (1 + w)) by nra.
    nra.
Qed.

Lemma within_200_bounds (x : Q) :
  within 200 x -> eta <= u * x /\ x <= 2 ^ 200 /\ 0 < x.
Proof.
  intros Hx. pose proof (within_pos _ _ Hx) as Hpos. destruct Hx as [H1 H2].
  split; [|split; assumption].
  assert (He : eta <= u * 2 ^ (-200)) by (vm_compute; discriminate).
  destruct u_bounds as [Hu _]. 
  eapply Qle_trans; [exact He|]. apply Qmult_le_l; [exact Hu|exact H1].
Qed.

(** The quote of a constant-product pool: the reserve [B] paid out, less
  the product of the reserves over a denominator [d] that was computed
  with a relative error of at most [8 u]. *)
Lemma constant_product_quote (B S D d be : Q) :
  within 200 B -> within 200 S -> within 210 d ->
  0 <= be -> be <= 8 * u -> S <= D ->
  D * (1 - be) <= d <= D * (1 + be) ->
  exists k q t,
    mul B S = Some k /\ div k d = Some q /\ sub B q = Some t
    /\ Qabs (t - (B - B * S / D)) <= 13 * u * B.
Proof.
  intros HB HS Hd Hbe0 Hbe HSD Hdrel.
  destruct u_bounds as [Hu0 Hu1].
  destruct (within_200_bounds B HB) as (HetaB & HBhi & HBpos).
  pose proof (within_pos _ _ HS) as HSpos.
  pose proof (within_pos _ _ Hd) as Hdpos.
  assert (HDpos : 0 < D) by lra.
  destruct (round_within 400 (B * S) ltac:(lia)
              (within_mul 200 200 B S HB HS)) as (Hk & Hkrel & Hkw).
  set (k := round (B * S)) in *.
  destruct (div_within 401 210 k d ltac:(lia) Hkw Hd) as (Hq & Hqrel & Hqw).
  set (q := round (k / d)) in *.
  assert (Hq0 : k / d * d == k) by (field; lra).
  assert (HQ0 : B * S / D * D == B * S) by (field; lra).
  assert (Hq0pos : 0 <= k / d).
  { apply Qle_shift_div_l; [exact Hdpos|].
    pose proof (within_pos _ _ Hkw). lra. }
  assert (HKpos : 0 < B * S) by nra.
  pose proof (quotient_rel u u be (11 * u) (B * S) D k d (k / d) q (B * S / D)
                ltac:(lra) ltac:(lra) ltac:(lra) Hbe0 ltac:(lra)
                ltac:(nra) ltac:(nra) HKpos HDpos Hkrel Hdrel Hq0 HQ0 Hq0pos
                Hqrel) as [Hql Hqh].
  set (Q0 := B * S / D) in *.
  assert (HQ0B : Q0 <= B).
  { apply (Qmult_lt_0_le_reg_r _ _ D HDpos). nra. }
  assert (HQ0pos : 0 < Q0).
  { apply (Qmult_lt_r _ _ D HDpos). nra. }
  assert (Hdiff : - (11 * u * B) <= B - q <= B) by (split; nra).
  assert (Habs : Qabs (B - q) <= B).
  { apply Qabs_Qle_condition. split; nra. }
  assert (Hfin : Qabs (B - q) <= 2 ^ 1000).
  { eapply Qle_trans; [exact Habs|]. eapply Qle_trans; [exact HBhi|].
    apply pow2_le. lia. }
  destruct (round_any (B - q) Hfin) as [Ht Hterr].
  exists k, q, (round (B - q)).
  split; [exact Hk|]. split; [exact Hq|]. split; [exact Ht|].
  set (t := round (B - q)) in *.
  apply Qabs_Qle_condition in Hterr.
  assert (Hub : u * Qabs (B - q) <= u * B) by nra.
  apply Qabs_Qle_condition. split; nra.
Qed.

Lemma mul_comm (x y : Q) : mul x y = mul y x.
Proof.
  unfold mul, finite, round. cbv zeta.
  rewrite (Qred_complete (x * y) (y * x)) by ring. reflexivity.
Qed.

Lemma Math_round_near (x : Q) : Qabs (Math_round x - x) <= 1 # 2.
Proof.
  unfold Math_round.
  pose proof (Qfloor_le (x + (1 # 2))) as Hlo.
  pose proof (Qlt_floor (x + (1 # 2))) as Hhi.
  rewrite inject_Z_plus in Hhi. change (inject_Z 1) with 1 in Hhi.
  apply Qabs_Qle_condition. split; lra.
Qed.


(** [x.toFixed(9)] read back: half a unit of the ninth decimal, and one
  rounding. *)
Lemma toFixed9_near (t : Q) :
  exists r, toFixed9 t = Some r
    /\ Qabs (r - t)
       <= (1 # 2000000000) + u * (Qabs t + (1 # 2000000000)) + eta.
Proof.
  destruct u_bounds as [Hu0 Hu1].
  assert (Heta : 0 < eta) by reflexivity.
  pose proof (Qabs_nonneg t) as Hat.
  unfold toFixed9.
  destruct (Qle_bool (inject_Z (10 ^ 21)) (Qabs t)).
  - exists t. split; [reflexivity|].
    assert (H0 : t - t == 0) by ring. rewrite H0. change (Qabs 0) with 0.
    assert (0 <= u * (Qabs t + (1 # 2000000000)))
      by (apply Qmult_le_0_compat; lra).
    lra.
  - cbv zeta.
    set (n := Qfloor (Qabs t * inject_Z (10 ^ 9) + (1 # 2))).
    set (y := if Qle_bool 0 t then inject_Z n / inject_Z (10 ^ 9)
              else - (inject_Z n / inject_Z (10 ^ 9))).
    exists (round y). split; [reflexivity|].
    assert (Hy : Qabs (y - t) <= 1 # 2000000000).
    { pose proof (Qfloor_le (Qabs t * inject_Z (10 ^ 9) + (1 # 2))) as Hlo.
      pose proof (Qlt_floor (Qabs t * inject_Z (10 ^ 9) + (1 # 2))) as Hhi.
      fold n in Hlo, Hhi.
      rewrite inject_Z_plus in Hhi. change (inject_Z 1) with 1 in Hhi.
      change (inject_Z (10 ^ 9)) with (1000000000 # 1) in *.
      revert Hlo Hhi. subst y.
      generalize (inject_Z n). intros m Hlo Hhi. unfold Qdiv.
      change (/ (1000000000 # 1)) with (1 # 1000000000).
      destruct (Qle_bool 0 t) eqn:Hs.
      - apply Qle_bool_iff in Hs. rewrite (Qabs_pos t) in Hlo, Hhi by exact Hs.
        apply Qabs_Qle_condition. split; lra.
      - assert (Hneg : t < 0).
        { apply Qnot_le_lt. intros H. apply Qle_bool_iff in H. congruence. }
        rewrite (Qabs_neg t) in Hlo, Hhi by lra.
        apply Qabs_Qle_condition. split; lra. }
    pose proof (round_error_abs y) as Hr.
    pose proof (Qabs_triangle (y - t) t) as Ht.
    assert (Hyt : y - t + t == y) by ring. rewrite Hyt in Ht.
    pose proof (Qabs_triangle (round y - y) (y - t)) as Ht2.
    assert (Hyt2 : round y - y + (y - t) == round y - t) by ring.
    rewrite Hyt2 in Ht2.
    assert (Hm : u * Qabs y <= u * (Qabs t + (1 # 2000000000)))
      by (apply Qmult_le_l; [exact Hu0|lra]).
    lra.
Qed.


(** The rate of the default fee, as computed. *)
Lemma default_rate :
  exists g c,
    g == 1 # 400 /\ default_swapFee / 100 == g
    /\ div default_swapFee 100 = Some c
    /\ g * (1 - u) <= c <= g * (1 + u) /\ within 10 c.
Proof.
  assert (Hfw : within 2 default_swapFee) by (split; vm_compute; discriminate).
  assert (H100 : within 7 100) by (split; vm_compute; discriminate).
  destruct (div_within 2 7 default_swapFee 100 ltac:(lia) Hfw H100)
    as (Hrate & Hraterel & Hratew).
  exists (default_swapFee / 100), (round (default_swapFee / 100)).
  split; [reflexivity|]. split; [reflexivity|].
  split; [exact Hrate|]. split; [exact Hraterel|exact Hratew].
Qed.

Lemma within_1_kept (g : Q) : g == 1 # 400 -> within 1 (1 - g).
Proof.
  intros Hg.
  split; [change (2 ^ (- (1))) with (1 # 2)|change (2 ^ 1) with 2]; lra.
Qed.

(** The rest of an AMM quote once the effective amount [eff] is there:
  [P] is the reserve paid out, [O] the reserve paid into, [X] the exact
  effective amount. *)
Lemma amm_quote_tail (P O X eff : Q) :
  within 200 P -> within 200 O -> within 201 X ->
  X * (1 - 5 * u) <= eff <= X * (1 + 5 * u) ->
  exists d k q t r,
    add O eff = Some d /\ mul P O = Some k /\ div k d = Some q
    /\ sub P q = Some t /\ toFixed9 t = Some r
    /\ Qabs (r - (P - P * O / (O + X)))
       <= (1 # 2 ^ 49) * P + (1 # 10 ^ 9).
Proof.
  intros HP HO HXw Heff.
  destruct u_bounds as [Hu0 Hu1].
  pose proof (within_pos _ _ HO) as HOpos.
  pose proof (within_pos _ _ HXw) as HXpos.
  destruct (within_200_bounds P HP) as (HetaP & _ & HPpos).
  pose proof (within_near 201 (5 * u) X eff HXw ltac:(lra) ltac:(lra) Heff)
    as Hew.
  destruct (round_within 203 (O + eff) ltac:(lia)
              (within_add 200 202 202 O eff ltac:(lia) ltac:(lia) HO Hew))
    as (Hd & Hdrel & Hdw).
  set (d := round (O + eff)) in *.
  assert (Hdrel' : (O + X) * (1 - 7 * u) <= d <= (O + X) * (1 + 7 * u)).
  { destruct Heff as [He1 He2], Hdrel as [Hd1 Hd2].
    assert (HSe : 0 < O + eff) by nra.
    split; nra. }
  destruct (constant_product_quote P O (O + X) d (7 * u) HP HO
              (within_weaken 204 210 d ltac:(lia) Hdw)
              ltac:(lra) ltac:(lra) ltac:(lra) Hdrel')
    as (k & q & t & Hk & Hq & Ht & Herr).
  destruct (toFixed9_near t) as (r & Hr & Hrerr).
  exists d, k, q, t, r.
  repeat (split; [assumption|]).
  set (exact := P - P * O / (O + X)) in *.
  assert (Hden : 0 < O + X) by lra.
  assert (Hexact : 0 <= exact <= P).
  { unfold exact.
    assert (HQ : 0 <= P * O / (O + X) <= P).
    { split.
      - apply Qle_shift_div_l; [exact Hden|]. nra.
      - apply Qle_shift_div_r; [exact Hden|]. nra. }
    lra. }
  apply Qabs_Qle_condition in Herr.
  assert (Hat : Qabs t <= P + 13 * u * P).
  { apply Qabs_Qle_condition. split; nra. }
  assert (Hut : u * (Qabs t + (1 # 2000000000))
                <= u * (P + 13 * u * P + (1 # 2000000000)))
    by (apply Qmult_le_l; [exact Hu0|lra]).
  apply Qabs_Qle_condition in Hrerr.
  assert (Hc : (1 # 2 ^ 49) == 16 * u) by reflexivity.
  change (1 # 10 ^ 9) with (1 # 1000000000).
  rewrite Hc. apply Qabs_Qle_condition. split; nra.
Qed.


(** What [tokensForSol] of both engines computes, with the default fee. *)
Lemma tokensForSol_amm_run (a B S : Q) :
  within 200 a -> within 200 B -> within 200 S ->
  exists rate kept eff d k q t r,
    div default_swapFee 100 = Some rate
    /\ sub 1 rate = Some kept
    /\ mul a kept = Some eff
    /\ mul B S = Some k
    /\ add B eff = Some d
    /\ div k d = Some q
    /\ sub S q = Some t
    /\ toFixed9 t = Some r
    /\ Qabs (r - (S - B * S / (B + a * (1 - default_swapFee / 100))))
       <= (1 # 2 ^ 49) * S + (1 # 10 ^ 9).
Proof.
  intros Ha HB HS.
  destruct u_bounds as [Hu0 Hu1].
  pose proof (within_pos _ _ Ha) as Hapos.
  destruct default_rate as (g & c & Hg & Hgdef & Hrate & Hraterel & Hratew).
  pose proof (within_1_kept g Hg) as Hgw.
  assert (Hcw : within 2 (1 - c)).
  { apply (within_near 1 u (1 - g) (1 - c) Hgw); [lra|lra|].
    destruct Hraterel as [H1 H2]. split; nra. }
  destruct (round_within 2 (1 - c) ltac:(lia) Hcw) as (Hkept & Hkeptrel & Hkw).
  set (kp := round (1 - c)) in *.
  assert (Hkp : (1 - g) * (1 - 3 * u) <= kp <= (1 - g) * (1 + 3 * u)).
  { destruct Hraterel as [H1 H2], Hkeptrel as [H3 H4]. split; nra. }
  destruct (round_within 203 (a * kp) ltac:(lia)
              (within_mul 200 3 a kp Ha Hkw)) as (Heff & Heffrel & _).
  set (e := round (a * kp)) in *.
  pose proof (within_mul 200 1 a (1 - g) Ha Hgw) as HXw.
  set (X := a * (1 - g)) in *.
  assert (Heff' : X * (1 - 5 * u) <= e <= X * (1 + 5 * u)).
  { destruct Hkp as [H1 H2], Heffrel as [H3 H4].
    assert (Hak1 : X * (1 - 3 * u) <= a * kp) by (unfold X; nra).
    assert (Hak2 : a * kp <= X * (1 + 3 * u)) by (unfold X; nra).
    pose proof (within_pos _ _ HXw) as HXpos.
    split; nra. }
  destruct (amm_quote_tail S B X e HS HB HXw Heff')
    as (d & k & q & t & r & Hd & Hk & Hq & Ht & Hr & Herr).
  exists c, kp, e, d, k, q, t, r.
  rewrite mul_comm in Hk.
  repeat (split; [assumption|]).
  assert (HX : S - B * S / (B + a * (1 - default_swapFee / 100))
               == S - S * B / (B + X)).
  { unfold X. rewrite Hgdef.
    assert (Hc : B * S == S * B) by ring. rewrite Hc. reflexivity. }
  rewrite HX. exact Herr.
Qed.


(** C5.  The numbers of the source are doubles, and on them the
  invariant holds up to the rounding of each operation and of the
  result.  For reserves and a SOL amount between 2^-200 and 2^200, the
  bonding-curve [solForTokens] returns a finite [tokensOut] within
  [1/2 + 2^-49 * tokenReserves] of the amount [e] for which the constant
  product holds exactly, [tokenReserves * solReserves = (tokenReserves -
  e) * (solReserves + solSpent)]; so the product after the trade differs
  from the product before it by at most that slack times the new SOL
  reserve. *)
Theorem solForTokens_bonding_curve_invariant
    (solSpent solReserves tokenReserves : Q) :
  within 200 solReserves -> within 200 tokenReserves ->
  within 200 solSpent ->
  let e := tokenReserves
           - solReserves * tokenReserves / (solReserves + solSpent) in
  let slack := (1 # 2) + (1 # 2 ^ 49) * tokenReserves in
  tokenReserves * solReserves == (tokenReserves - e) * (solReserves + solSpent)
  /\ exists tokensOut,
       BondingCurve.solForTokens solSpent solReserves tokenReserves
       = Some tokensOut
       /\ Qabs (tokensOut - e) <= slack
       /\ Qabs (tokenReserves * solReserves
                - (tokenReserves - tokensOut) * (solReserves + solSpent))
          <= slack * (solReserves + solSpent).
Proof.
  intros HS HT Hs e slack.
  destruct u_bounds as [Hu0 Hu1].
  pose proof (within_pos _ _ HS) as HSpos.
  pose proof (within_pos _ _ HT) as HTpos.
  pose proof (within_pos _ _ Hs) as Hspos.
  assert (Hden : ~ solReserves + solSpent == 0) by lra.
  assert (Hexact : tokenReserves * solReserves
                   == (tokenReserves - e) * (solReserves + solSpent))
    by (unfold e; field; exact Hden).
  split; [exact Hexact|].
  destruct (round_within 201 (solReserves + solSpent) ltac:(lia)
              (within_add 200 200 200 _ _ ltac:(lia) ltac:(lia) HS Hs))
    as (Hn & Hnrel & Hnw).
  set (n := round (solReserves + solSpent)) in *.
  destruct (constant_product_quote tokenReserves solReserves
              (solReserves + solSpent) n u HT HS
              (within_weaken 202 210 n ltac:(lia) Hnw)
              ltac:(lra) ltac:(lra) ltac:(lra) Hnrel)
    as (k & q & t & Hk & Hq & Ht & Herr).
  exists (Math_round t).
  assert (Hrun : BondingCurve.solForTokens solSpent solReserves tokenReserves
                 = Some (Math_round t)).
  { unfold BondingCurve.solForTokens. unfold add. rewrite Hn. cbn [bind].
    rewrite mul_comm, Hk. cbn [bind]. rewrite Hq. cbn [bind].
    rewrite Ht. reflexivity. }
  split; [exact Hrun|].
  assert (He : tokenReserves - tokenReserves * solReserves
                               / (solReserves + solSpent) == e)
    by (unfold e; field; exact Hden).
  rewrite He in Herr.
  pose proof (Math_round_near t) as Hr.
  assert (Hnear : Qabs (Math_round t - e) <= slack).
  { apply Qabs_Qle_condition in Herr. apply Qabs_Qle_condition in Hr.
    assert (Hc : 13 * u * tokenReserves <= (1 # 2 ^ 49) * tokenReserves).
    { apply Qmult_le_compat_r; [vm_compute; discriminate|lra]. }
    unfold slack. apply Qabs_Qle_condition. split; lra. }
  split; [exact Hnear|].
  assert (Hdiff : tokenReserves * solReserves
                  - (tokenReserves - Math_round t) * (solReserves + solSpent)
                  == (Math_round t - e) * (solReserves + solSpent))
    by (rewrite Hexact; ring).
  rewrite Hdiff, Qabs_Qmult.
  rewrite (Qabs_pos (solReserves + solSpent)) by lra.
  apply Qmult_le_compat_r; [exact Hnear|lra].
Qed.
End DoubleFacts.



Lemma solForTokens_bonding_curve_invariant_witness :
  Double.within 200 30 /\ Double.within 200 1000000000 /\ Double.within 200 1
  /\ exists tokensOut,
       BondingCurve.solForTokens 1 30 1000000000 = Some tokensOut
       /\ (Qabs (tokensOut - (1000000000 - 30 * 1000000000 / (30 + 1)))
           <= (1 # 2) + (1 # 2 ^ 49) * 1000000000)%Q.
Proof.
  assert (H30 : Double.within 200 30) by (split; vm_compute; discriminate).
  assert (H9 : Double.within 200 1000000000) by (split; vm_compute; discriminate).
  assert (H1 : Double.within 200 1) by (split; vm_compute; discriminate).
  split; [exact H30|]. split; [exact H9|]. split; [exact H1|].
  destruct (solForTokens_bonding_curve_invariant 1 30 1000000000 H30 H9 H1)
    as [_ (out & Hrun & Hnear & _)].
  exists out. split; [exact Hrun|exact Hnear].
Defined.

(** At [solForTokens(1, 30, 1e17)] the bonding curve returns
  3225806451612896, seven tokens away from the amount that keeps the
  product: the invariant does not hold up to the rounding of [tokensOut]
  alone. *)
Lemma solForTokens_bonding_curve_counterexample :
  BondingCurve.solForTokens 1 30 (inject_Z (10 ^ 17))
  = Some (inject_Z 3225806451612896)
  /\ ~ (Qabs (inject_Z (10 ^ 17) * 30
              - (inject_Z (10 ^ 17) - inject_Z 3225806451612896) * (30 + 1))
        <= (1 # 2) * (30 + 1))%Q.
Proof.
  split; [vm_compute; reflexivity|].
  intros H. vm_compute in H. apply H. reflexivity.
Qed.

(** *** The model of doubles against the kernel's binary64 arithmetic *)

Section KernelArithmetic.
Import PrimFloat.
Local Open Scope float_scope.

(** On these inputs the four helpers, computed by the model, give what the
  hardware arithmetic of the kernel gives for the same expressions. *)
Example amm_solForTokens_as_binary64 :
  Double.bind (Binary64.of_float
                 (Binary64.amm_tokensReceived 1 1e15 100 0.25))
              Double.toFixed9
  = AmmV4.solForTokens 1 (inject_Z (10 ^ 15)) 100 default_swapFee
  /\ Double.bind (Binary64.of_float
                    (Binary64.amm_tokensReceived 3 1000000 125 0.25))
                 Double.toFixed9
     = Cpmm.solForTokens 3 (inject_Z 1000000) 125 default_swapFee.
Proof. split; vm_compute; reflexivity. Qed.

Example amm_tokensForSol_as_binary64 :
  Double.bind (Binary64.of_float
                 (Binary64.amm_solReceived 7 1e15 100 0.25))
              Double.toFixed9
  = AmmV4.tokensForSol 7 (inject_Z (10 ^ 15)) 100 default_swapFee.
Proof. vm_compute. reflexivity. Qed.

Example bonding_curve_as_binary64 :
  option_map Double.Math_round
    (Binary64.of_float (Binary64.bonding_tokenReceived 1 30 1e17))
  = BondingCurve.solForTokens 1 30 (inject_Z (10 ^ 17))
  /\ Binary64.of_float (Binary64.bonding_solReceived 5000 30 1e9)
     = BondingCurve.tokensForSol 5000 30 (inject_Z (10 ^ 9)).
Proof. split; vm_compute; reflexivity. Qed.

(** On the sample pairs the four operations of the model are the kernel's. *)
Example double_operations_as_binary64 :
  forallb (Binary64.agree add Double.add) Binary64.samples = true
  /\ forallb (Binary64.agree sub Double.sub) Binary64.samples = true
  /\ forallb (Binary64.agree mul Double.mul) Binary64.samples = true
  /\ forallb (Binary64.agree div Double.div) Binary64.samples = true.
Proof. repeat split; vm_compute; reflexivity. Qed.
End KernelArithmetic.

(** ** The orchestrator *)

Section OrchestratorFacts.
Import Orchestrator.
Local Open Scope string_scope.
Local Open Scope list_scope.

Variable cfg : Config.
Variable world : World.

(** *** The spend-budget gate *)

Lemma decide_over_budget (st : State) (message : string) :
  (maxSolSpend cfg <= spent st)%Q ->
  decide cfg st message = SkipOverBudget.
Proof.
  intros Hle. unfold decide.
  apply Qle_bool_iff in Hle. rewrite Hle. reflexivity.
Qed.

Lemma allBuyCalls_app (tr1 tr2 : list Event) :
  allBuyCalls (tr1 ++ tr2) = (allBuyCalls tr1 + allBuyCalls tr2)%nat.
Proof. unfold allBuyCalls. rewrite filter_app, length_app. reflexivity. Qed.

(** C7.  When cumulative spend is at least [MAX_SOL_SPEND] as a message
  arrives, the handler logs the skip line and returns: the state is the
  old one with that line added, so no protocol operation is called; and
  over any sequence of messages handled one after the other from such a
  state, only skip lines are added, one a message, and no buy (indeed no
  protocol call at all) is made. *)
Theorem onMessage_over_budget_skips (fuel : nat) (st : State) :
  (maxSolSpend cfg <= spent st)%Q ->
  (forall message,
      onMessage fuel cfg world message st
      = Some (log (AlreadySpent (spent st) (maxSolSpend cfg)) st))
  /\ (forall messages,
        exists st',
          onMessages fuel cfg world messages st = Some st'
          /\ trace st'
             = trace st
               ++ map (fun _ => Logged (AlreadySpent (spent st) (maxSolSpend cfg)))
                      messages
          /\ allBuyCalls (trace st') = allBuyCalls (trace st)
          /\ tradeCalls st' = tradeCalls st
          /\ buyList st' = buyList st
          /\ spent st' = spent st).
Proof.
  intros Hover.
  assert (Hone : forall st0 message,
             (maxSolSpend cfg <= spent st0)%Q ->
             onMessage fuel cfg world message st0
             = Some (log (AlreadySpent (spent st0) (maxSolSpend cfg)) st0)).
  { intros st0 message H0. unfold onMessage.
    rewrite (decide_over_budget st0 message H0). reflexivity. }
  split; [intros message; apply Hone; exact Hover|].
  intros messages. revert st Hover.
  induction messages as [|m rest IH]; intros st Hover.
  - exists st. cbn [onMessages map]. rewrite app_nil_r. repeat split.
  - cbn [onMessages]. rewrite (Hone st m Hover).
    destruct (IH (log (AlreadySpent (spent st) (maxSolSpend cfg)) st) Hover)
      as (st' & Hrun & Htrace & Hbuys & Hcalls & Hlist & Hspent).
    exists st'. cbn [log trace spent tradeCalls buyList] in *.
    split; [exact Hrun|]. split.
    + rewrite Htrace, <- app_assoc. reflexivity.
    + split; [|repeat split; assumption].
      rewrite Hbuys, allBuyCalls_app. cbn. lia.
Qed.

(** *** The no-rebuy guard *)

Lemma Array_includes_app (l : list string) (x y : string) :
  Array_includes l x = true -> Array_includes (l ++ [y]) x = true.
Proof.
  unfold Array_includes. intros H. rewrite existsb_app, H. reflexivity.
Qed.

Lemma Array_includes_pushed (l : list string) (x : string) :
  Array_includes (l ++ [x]) x = true.
Proof.
  unfold Array_includes. rewrite existsb_app. cbn [existsb].
  rewrite String.eqb_refl, orb_true_r. reflexivity.
Qed.

Lemma buyCalls_app (a : string) (tr1 tr2 : list Event) :
  buyCalls a (tr1 ++ tr2) = (buyCalls a tr1 + buyCalls a tr2)%nat.
Proof. unfold buyCalls. rewrite filter_app, length_app. reflexivity. Qed.

Lemma buyCalls_logged (a : string) (tr : list Event) (line : LogLine) :
  buyCalls a (tr ++ [Logged line]) = buyCalls a tr.
Proof. rewrite buyCalls_app. cbn. lia. Qed.

(** When only [address] has calls, all the calls are calls for it. *)
Lemma allBuyCalls_split (address : string) (tr : list Event) :
  (forall a, a <> address -> buyCalls a tr = 0%nat) ->
  allBuyCalls tr = buyCalls address tr.
Proof.
  intros Hnone. unfold allBuyCalls, buyCalls in *.
  induction tr as [|e tr IH]; [reflexivity|].
  assert (Hrest : forall a, a <> address ->
             List.length (filter (isBuyOf a) tr) = 0%nat).
  { intros a Ha. specialize (Hnone a Ha). cbn [filter] in Hnone.
    destruct (isBuyOf a e); [discriminate Hnone|exact Hnone]. }
  specialize (IH Hrest). cbn [filter].
  destruct e as [line|dex a amount slip|dex a pct slip]; cbn [isUnderlyingBuy isBuyOf];
    try exact IH.
  destruct (String.eqb a address) eqn:He.
  - cbn [List.length]. rewrite IH. reflexivity.
  - apply String.eqb_neq in He. specialize (Hnone a He).
    cbn [filter isBuyOf] in Hnone. rewrite String.eqb_refl in Hnone.
    discriminate Hnone.
Qed.

Hypothesis no_rebuy : allowRebuy cfg = false.

(** Once the address is in the buy list, [buyToken] leaves at its first
  check: it logs and calls nothing. *)
Lemma buyToken_loop_already (fuel : nat) dex name address solAmount slippage
    attempts (st : State) :
  Array_includes (buyList st) address = true ->
  buyToken_loop (S fuel) cfg world dex name address solAmount slippage attempts st
  = Some (log (AlreadyBought dex name attempts) st).
Proof.
  intros Hin. cbn [buyToken_loop]. rewrite no_rebuy, Hin. reflexivity.
Qed.

(** What one [buyToken] call does to the session: with two rounds of fuel
  it ends; the buy list only grows; calls for other addresses are
  untouched; for its own address it makes no call when the address was
  in the list, and at most one call otherwise, after which the address
  is in the list. *)
Lemma buyToken_loop_effect (fuel : nat) dex name address solAmount slippage
    attempts (st : State) :
  exists st',
    buyToken_loop (S (S fuel)) cfg world dex name address solAmount slippage
                  attempts st = Some st'
    /\ (forall x, Array_includes (buyList st) x = true ->
                  Array_includes (buyList st') x = true)
    /\ (forall a, a <> address ->
                  buyCalls a (trace st') = buyCalls a (trace st))
    /\ ((buyCalls address (trace st') = buyCalls address (trace st)
         /\ (Array_includes (buyList st) address = false ->
             attempts > maxBuyAttempts cfg)%Z)
        \/ (Array_includes (buyList st) address = false
            /\ buyCalls address (trace st') = S (buyCalls address (trace st))
            /\ Array_includes (buyList st') address = true)).
Proof.
  destruct (Array_includes (buyList st) address) eqn:Hin.
  - rewrite buyToken_loop_already by exact Hin.
    eexists. split; [reflexivity|]. cbn [log buyList trace].
    split; [auto|]. split; [intros; apply buyCalls_logged|].
    left. split; [apply buyCalls_logged|discriminate].
  - cbn [buyToken_loop]. rewrite no_rebuy, Hin. cbn [negb andb].
    destruct (attempts >? maxBuyAttempts cfg)%Z eqn:Hcap.
    + eexists. split; [reflexivity|]. cbn [log buyList trace].
      split; [auto|]. split; [intros; apply buyCalls_logged|].
      left. split; [apply buyCalls_logged|].
      intros _. apply Z.gtb_lt in Hcap. lia.
    + unfold callTrade. cbn [log buyList trace spent tradeCalls].
      assert (Hcall : forall a,
                 buyCalls a ((trace st ++ [Logged (TryingToBuy dex name (attempts + 1))])
                             ++ [UnderlyingBuy dex address solAmount slippage])
                 = (buyCalls a (trace st)
                    + (if String.eqb address a then 1 else 0))%nat).
      { intros a. rewrite buyCalls_app, buyCalls_logged.
        unfold buyCalls at 2. cbn [filter isBuyOf].
        destruct (String.eqb address a); reflexivity. }
      assert (Hother : forall a, a <> address ->
                 (if String.eqb address a then 1 else 0)%nat = 0%nat).
      { intros a Ha. destruct (String.eqb address a) eqn:He; [|reflexivity].
        apply String.eqb_eq in He. congruence. }
      assert (Hself : (if String.eqb address address then 1 else 0)%nat = 1%nat)
        by (rewrite String.eqb_refl; reflexivity).
      (* whatever the protocol answers, one call was made and the address
         is listed; after an answer other than [true] the loop comes back
         to its first check and leaves there *)
      destruct (world (tradeCalls st));
        cbn [log buyList trace]; rewrite ?Array_includes_pushed;
        (eexists; split; [reflexivity|]); cbn [log buyList trace];
        (split; [intros x Hx; apply Array_includes_app; exact Hx|]);
        (split;
         [ intros a Ha; rewrite !buyCalls_logged, Hcall, (Hother a Ha); lia
         | right; split; [reflexivity|]; split;
           [ rewrite !buyCalls_logged, Hcall, Hself; lia
           | apply Array_includes_pushed ] ]).
Qed.

Lemma buySignals_invariant (fuel : nat) (signals : list BuySignal) :
  forall st,
    session_invariant st ->
    exists st',
      buySignals (S (S fuel)) cfg world signals st = Some st'
      /\ session_invariant st'.
Proof.
  induction signals as [|s rest IH]; intros st Hinv.
  - exists st. split; [reflexivity|exact Hinv].
  - cbn [buySignals]. unfold buyToken.
    destruct (buyToken_loop_effect fuel (signal_dex s) (signal_name s)
                (signal_address s) (signal_solAmount s) (signal_slippage s) 0 st)
      as (st1 & Hrun & Hgrow & Hother & Hself).
    rewrite Hrun. apply IH.
    intros a. destruct (Hinv a) as [Hle Hin].
    destruct (string_dec a (signal_address s)) as [Heq|Hne].
    + subst a. destruct Hself as [[Hsame _]|(Hnew & Hcount & Hlisted)].
      * rewrite Hsame. split; [exact Hle|]. intros H1. apply Hgrow, Hin, H1.
      * assert (buyCalls (signal_address s) (trace st) = 0%nat).
        { destruct (buyCalls (signal_address s) (trace st)) as [|[|k]];
            [reflexivity| |lia].
          rewrite (Hin eq_refl) in Hnew. discriminate. }
        split; [lia|]. intros _. exact Hlisted.
    + rewrite (Hother a Hne). split; [exact Hle|].
      intros H1. apply Hgrow, Hin, H1.
Qed.

Lemma session_invariant_initial : session_invariant initialState.
Proof. intros a. cbn. split; [lia|discriminate]. Qed.

(** C8.  With [ALLOW_REBUY=false], over any sequence of buy signals handled
  one after the other from the start of the session, whatever the
  protocol's buy answers (success, failure, exception), every signal is
  handled to its end and the protocol's buy is called at most once for
  each address; and two signals for the same address, the attempt cap
  not being negative, make exactly one call. *)
Theorem buyToken_no_rebuy (fuel : nat) :
  (forall signals,
      exists st',
        buySignals (S (S fuel)) cfg world signals initialState = Some st'
        /\ forall address, (buyCalls address (trace st') <= 1)%nat)
  /\ (forall s1 s2,
        signal_address s1 = signal_address s2 ->
        0 <= maxBuyAttempts cfg ->
        exists st',
          buySignals (S (S fuel)) cfg world [s1; s2] initialState = Some st'
          /\ buyCalls (signal_address s1) (trace st') = 1%nat
          /\ allBuyCalls (trace st') = 1%nat).
Proof.
  split.
  - intros signals.
    destruct (buySignals_invariant fuel signals initialState
                session_invariant_initial) as (st' & Hrun & Hinv).
    exists st'. split; [exact Hrun|]. intros a. apply Hinv.
  - intros s1 s2 Haddr Hcap. cbn [buySignals]. unfold buyToken.
    destruct (buyToken_loop_effect fuel (signal_dex s1) (signal_name s1)
                (signal_address s1) (signal_solAmount s1) (signal_slippage s1)
                0 initialState)
      as (st1 & Hrun1 & Hgrow1 & Hother1 & Hself1).
    rewrite Hrun1.
    destruct Hself1 as [[_ Habs]|(_ & Hcount1 & Hlisted1)];
      [specialize (Habs eq_refl); lia|].
    destruct (buyToken_loop_effect fuel (signal_dex s2) (signal_name s2)
                (signal_address s2) (signal_solAmount s2) (signal_slippage s2)
                0 st1)
      as (st2 & Hrun2 & Hgrow2 & Hother2 & Hself2).
    rewrite Hrun2. exists st2. split; [reflexivity|].
    rewrite <- Haddr in Hself2, Hother2.
    assert (Hown : buyCalls (signal_address s1) (trace st2) = 1%nat).
    { destruct Hself2 as [[Hsame _]|(Hnew & _ & _)].
      + rewrite Hsame, Hcount1. reflexivity.
      + rewrite Hlisted1 in Hnew. discriminate. }
    split; [exact Hown|].
    rewrite (allBuyCalls_split (signal_address s1)).
    + exact Hown.
    + intros a Ha. rewrite (Hother2 a Ha), (Hother1 a Ha). reflexivity.
Qed.
End OrchestratorFacts.

Section EmptyTrackWallets.
Import Orchestrator.
Local Open Scope string_scope.
Local Open Scope list_scope.


Variable cfg : Config.
Hypothesis track_nothing : trackWallets cfg = "".

End EmptyTrackWallets.

Lemma onMessage_over_budget_skips_witness :
  (Orchestrator.maxSolSpend OrchestratorExamples.cfg_empty
   <= Orchestrator.spent OrchestratorExamples.spent_out)%Q
  /\ Orchestrator.onMessage 2 OrchestratorExamples.cfg_empty
       OrchestratorExamples.always_fails OrchestratorExamples.message_buy
       OrchestratorExamples.spent_out
     = Some (Orchestrator.log (Orchestrator.AlreadySpent 1 1)
                              OrchestratorExamples.spent_out).
Proof.
  split; [vm_compute; discriminate|].
  apply (onMessage_over_budget_skips OrchestratorExamples.cfg_empty
           OrchestratorExamples.always_fails 2 OrchestratorExamples.spent_out).
  vm_compute. discriminate.
Defined.

Lemma buyToken_no_rebuy_witness :
  Orchestrator.allowRebuy OrchestratorExamples.cfg_empty = false
  /\ 0 <= Orchestrator.maxBuyAttempts OrchestratorExamples.cfg_empty
  /\ exists st',
      Orchestrator.buySignals 2 OrchestratorExamples.cfg_empty
        OrchestratorExamples.always_fails
        [OrchestratorExamples.signal1; OrchestratorExamples.signal1]
        Orchestrator.initialState = Some st'
      /\ Orchestrator.buyCalls "Mint1" (Orchestrator.trace st') = 1%nat
      /\ Orchestrator.allBuyCalls (Orchestrator.trace st') = 1%nat.
Proof.
  split; [reflexivity|]. split; [vm_compute; discriminate|].
  apply (buyToken_no_rebuy OrchestratorExamples.cfg_empty
           OrchestratorExamples.always_fails eq_refl 0
           ); [reflexivity | vm_compute; discriminate].
Defined.


(** ** More of the tick-array bitmap engine *)

Section TickArrayMoreFacts.
Import TickArrayBitmap.
Import TickArrayLookup.

(** The start index is a multiple of the number of ticks in an array. *)
Lemma getArrayStartIndex_divides (tickIndex tickSpacing : Z) :
  (tickCount tickSpacing | getArrayStartIndex tickIndex tickSpacing).
Proof. unfold getArrayStartIndex. cbv zeta. apply Z.divide_factor_r. Qed.

(** The start index is at or below the tick, less than two arrays below. *)
Lemma getArrayStartIndex_below (tickIndex tickSpacing : Z) :
  0 < tickSpacing ->
  getArrayStartIndex tickIndex tickSpacing <= tickIndex
  < getArrayStartIndex tickIndex tickSpacing + 2 * tickCount tickSpacing.
Proof.
  intros Hs.
  assert (Htc : 0 < tickCount tickSpacing) by (unfold tickCount, TICK_ARRAY_SIZE; lia).
  pose proof (Z.div_mod tickIndex (tickCount tickSpacing) ltac:(lia)) as Hdm.
  pose proof (Z.mod_pos_bound tickIndex (tickCount tickSpacing) Htc) as Hm.
  destruct (Z_lt_le_dec tickIndex 0) as [Hneg|Hnn].
  - destruct (Z.eq_dec (tickIndex mod tickCount tickSpacing) 0) as [Hz|Hz].
    + rewrite getArrayStartIndex_floor by (try right; assumption). lia.
    + rewrite getArrayStartIndex_negative by assumption. lia.
  - rewrite getArrayStartIndex_floor by (try left; assumption). lia.
Qed.

(** An aligned index is its own start index. *)
Lemma getArrayStartIndex_fixed (index tickSpacing : Z) :
  0 < tickSpacing ->
  (tickCount tickSpacing | index) ->
  getArrayStartIndex index tickSpacing = index.
Proof.
  intros Hs Hdiv.
  assert (Htc : 0 < tickCount tickSpacing) by (unfold tickCount, TICK_ARRAY_SIZE; lia).
  apply Z.mod_divide in Hdiv; [|lia].
  rewrite getArrayStartIndex_floor by (try right; assumption).
  pose proof (Z.div_mod index (tickCount tickSpacing) ltac:(lia)). lia.
Qed.

(** X1.  For a positive tick spacing the start index [getArrayStartIndex]
  gives is a multiple of the number of ticks in an array, is at or below
  the tick, less than two arrays below it, and is a fixed point: the start
  index of a start index is itself. *)
Theorem getArrayStartIndex_aligned (tickIndex tickSpacing : Z) :
  0 < tickSpacing ->
  let start := getArrayStartIndex tickIndex tickSpacing in
  (tickCount tickSpacing | start)
  /\ start <= tickIndex < start + 2 * tickCount tickSpacing
  /\ getArrayStartIndex start tickSpacing = start.
Proof.
  intros Hs start. unfold start.
  split; [apply getArrayStartIndex_divides|].
  split; [apply getArrayStartIndex_below; exact Hs|].
  apply getArrayStartIndex_fixed; [exact Hs|].
  apply getArrayStartIndex_divides.
Qed.

Lemma getArrayStartIndex_aligned_witness :
  0 < 60
  /\ (tickCount 60 | getArrayStartIndex (-1) 60)
  /\ getArrayStartIndex (-1) 60 <= -1
       < getArrayStartIndex (-1) 60 + 2 * tickCount 60
  /\ getArrayStartIndex (getArrayStartIndex (-1) 60) 60
     = getArrayStartIndex (-1) 60.
Proof.
  split; [lia|]. apply (getArrayStartIndex_aligned (-1) 60). lia.
Defined.


Lemma testbit_above (a n m : Z) :
  0 <= a < 2 ^ n -> 0 <= n <= m -> Z.testbit a m = false.
Proof.
  intros Ha Hm. destruct (Z.eq_dec a 0) as [->|Hz]; [apply Z.bits_0|].
  apply Z.bits_above_log2; [lia|].
  assert (Z.log2 a < n) by (apply Z.log2_lt_pow2; lia). lia.
Qed.

Lemma land_odd_opp (p : positive) : Z.land (Z.pos p~1) (Z.neg p~1) = 1.
Proof.
  apply Z.bits_inj'. intros n Hn. rewrite Z.land_spec.
  change (Z.neg p~1) with (Z.lnot (Z.pos p~0)).
  rewrite Z.lnot_spec by exact Hn.
  destruct (Z.eq_dec n 0) as [->|Hn0]; [reflexivity|].
  rewrite (testbit_above 1 1 n) by lia.
  replace n with (Z.succ (n - 1)) by lia.
  change (Z.pos p~1) with (2 * Z.pos p + Z.b2z true).
  change (Z.pos p~0) with (2 * Z.pos p + Z.b2z false).
  rewrite !Z.testbit_succ_r by lia. apply andb_negb_r.
Qed.

Lemma land_even_opp (p : positive) :
  Z.land (Z.pos p~0) (Z.neg p~0) = 2 * Z.land (Z.pos p) (Z.neg p).
Proof.
  change (Z.pos p~0) with (Z.shiftl (Z.pos p) 1).
  change (Z.neg p~0) with (Z.shiftl (Z.neg p) 1).
  rewrite <- Z.shiftl_land, Z.shiftl_mul_pow2 by lia. lia.
Qed.

Lemma below_lowest_bit_clear (p : positive) :
  forall j, 0 <= j < Z.log2 (Z.land (Z.pos p) (Z.neg p)) ->
    Z.testbit (Z.pos p) j = false.
Proof.
  induction p as [p IH|p IH|]; intros j Hj.
  - rewrite land_odd_opp in Hj. cbn in Hj. lia.
  - rewrite land_even_opp in Hj.
    rewrite Z.log2_double in Hj by apply land_opp_positive.
    destruct (Z.eq_dec j 0) as [->|Hj0]; [reflexivity|].
    replace j with (Z.succ (j - 1)) by lia.
    change (Z.pos p~0) with (2 * Z.pos p + Z.b2z false).
    rewrite Z.testbit_succ_r by lia. apply IH. lia.
  - cbn in Hj. lia.
Qed.

(** X2.  [leastSignificantBit] answers [null] exactly on 0, and on a
  positive bitmap it gives the position of the lowest set bit: that bit is
  set and every bit below it is clear. *)
Theorem leastSignificantBit_lowest (x : Z) :
  (leastSignificantBit x = None <-> x = 0)
  /\ (0 < x ->
      exists k, leastSignificantBit x = Some k
        /\ 0 <= k
        /\ Z.testbit x k = true
        /\ forall j, 0 <= j < k -> Z.testbit x j = false).
Proof.
  split.
  - unfold leastSignificantBit. destruct (x =? 0) eqn:Hx.
    + apply Z.eqb_eq in Hx. tauto.
    + apply Z.eqb_neq in Hx. split; [discriminate|contradiction].
  - intros Hx. unfold leastSignificantBit.
    destruct (x =? 0) eqn:Hz; [apply Z.eqb_eq in Hz; lia|].
    eexists. split; [reflexivity|].
    pose proof (lowest_bit_set x ltac:(lia)) as Hset.
    destruct x as [|p|p]; try lia. cbn [Z.opp] in *.
    pose proof (land_opp_positive p) as Hpos.
    pose proof (below_lowest_bit_clear p) as Hclear.
    destruct (Z.land (Z.pos p) (Z.neg p)) as [|q|q] eqn:Hl; try lia.
    unfold toString2_length in *. rewrite Z.add_simpl_r in *.
    split; [apply Z.log2_nonneg|]. split; [exact Hset|exact Hclear].
Qed.

Lemma leastSignificantBit_lowest_witness :
  0 < 40
  /\ exists k, leastSignificantBit 40 = Some k
       /\ 0 <= k
       /\ Z.testbit 40 k = true
       /\ forall j, 0 <= j < k -> Z.testbit 40 j = false.
Proof.
  split; [lia|]. apply (leastSignificantBit_lowest 40). lia.
Defined.

(** X3.  [mostSignificantBit] answers [null] exactly on 0, and on a
  positive bitmap of at most 1024 bits it gives the number of leading
  zeros: a count from 0 to 1023 such that the bit that many places below
  bit 1023 is set and every bit above it is clear. *)
Theorem mostSignificantBit_leading_zeros (x : Z) :
  (mostSignificantBit x = None <-> x = 0)
  /\ (0 < x < 2 ^ 1024 ->
      exists k, mostSignificantBit x = Some k
        /\ 0 <= k <= 1023
        /\ Z.testbit x (1023 - k) = true
        /\ forall j, 1023 - k < j -> Z.testbit x j = false).
Proof.
  split.
  - unfold mostSignificantBit. destruct (x =? 0) eqn:Hx.
    + apply Z.eqb_eq in Hx. tauto.
    + apply Z.eqb_neq in Hx. split; [discriminate|contradiction].
  - intros [Hx Hlt]. unfold mostSignificantBit.
    destruct (x =? 0) eqn:Hz; [apply Z.eqb_eq in Hz; lia|].
    eexists. split; [reflexivity|].
    assert (Hlog : Z.log2 x < 1024) by (apply Z.log2_lt_pow2; lia).
    pose proof (Z.log2_nonneg x) as Hnn.
    destruct x as [|p|p]; try lia.
    unfold toString2_length, TOTAL_BITS.
    replace (1023 - (1024 - (Z.log2 (Z.pos p) + 1))) with (Z.log2 (Z.pos p)) by lia.
    split; [lia|]. split; [apply Z.bit_log2; lia|].
    intros j Hj. apply Z.bits_above_log2; lia.
Qed.

Lemma mostSignificantBit_leading_zeros_witness :
  0 < 40 < 2 ^ 1024
  /\ exists k, mostSignificantBit 40 = Some k
       /\ 0 <= k <= 1023
       /\ Z.testbit 40 (1023 - k) = true
       /\ forall j, 1023 - k < j -> Z.testbit 40 j = false.
Proof.
  assert (H : 0 < 40 < 2 ^ 1024) by (split; [lia|reflexivity]).
  split; [exact H|]. apply (mostSignificantBit_leading_zeros 40). exact H.
Defined.

Lemma add_is_lor (acc w i : Z) :
  0 <= i -> 0 <= acc < 2 ^ (64 * i) -> 0 <= w ->
  acc + Z.shiftl w (64 * i) = Z.lor acc (Z.shiftl w (64 * i)).
Proof.
  intros Hi Hacc Hw.
  assert (Hland : Z.land acc (Z.shiftl w (64 * i)) = 0).
  { apply Z.bits_inj'. intros n Hn. rewrite Z.land_spec, Z.bits_0.
    destruct (Z_lt_le_dec n (64 * i)) as [Hlo|Hhi].
    - rewrite Z.shiftl_spec_low by exact Hlo. apply andb_false_r.
    - rewrite (testbit_above acc (64 * i) n) by lia. reflexivity. }
  rewrite Z.add_nocarry_lxor by exact Hland. apply Z.lxor_lor. exact Hland.
Qed.

Lemma bitmapListToU1024_loop_lor (l : list Z) :
  forall i acc,
    0 <= i -> 0 <= acc < 2 ^ (64 * i) -> Forall u64 l ->
    bitmapListToU1024_loop l i acc = u1024FromList_loop l i acc
    /\ 0 <= bitmapListToU1024_loop l i acc
         < 2 ^ (64 * (i + Z.of_nat (List.length l))).
Proof.
  induction l as [|w r IH]; intros i acc Hi Hacc Hl.
  - cbn [bitmapListToU1024_loop u1024FromList_loop List.length].
    split; [reflexivity|]. rewrite Z.add_0_r. exact Hacc.
  - inversion Hl as [|w' r' Hw Hr]; subst. unfold u64 in Hw.
    cbn [bitmapListToU1024_loop u1024FromList_loop].
    rewrite <- add_is_lor by lia.
    assert (Hnew : 0 <= acc + Z.shiftl w (64 * i) < 2 ^ (64 * (i + 1))).
    { rewrite Z.shiftl_mul_pow2 by lia.
      replace (64 * (i + 1)) with (64 + 64 * i) by lia.
      rewrite Z.pow_add_r by lia.
      assert (0 < 2 ^ (64 * i)) by (apply Z.pow_pos_nonneg; lia).
      remember (2 ^ (64 * i)) as P. remember (2 ^ 64) as B. nia. }
    destruct (IH (i + 1) (acc + Z.shiftl w (64 * i)) ltac:(lia) Hnew Hr)
      as [Heq Hb].
    split; [exact Heq|].
    replace (i + Z.of_nat (List.length (w :: r)))
      with (i + 1 + Z.of_nat (List.length r))
      by (cbn [List.length]; lia).
    exact Hb.
Qed.

Lemma u1024FromList_loop_low (l : list Z) :
  forall i acc n, 0 <= i -> 0 <= n < 64 * i ->
    Z.testbit (u1024FromList_loop l i acc) n = Z.testbit acc n.
Proof.
  induction l as [|w r IH]; intros i acc n Hi Hn; [reflexivity|].
  cbn [u1024FromList_loop]. rewrite IH by lia.
  rewrite Z.lor_spec, Z.shiftl_spec_low by lia. apply orb_false_r.
Qed.

Lemma u1024FromList_loop_bits (l : list Z) :
  forall i acc (k : nat) j,
    0 <= i -> Forall u64 l -> (k < List.length l)%nat -> 0 <= j < 64 ->
    Z.testbit (u1024FromList_loop l i acc) (64 * (i + Z.of_nat k) + j)
    = Z.testbit acc (64 * (i + Z.of_nat k) + j) || Z.testbit (nth k l 0) j.
Proof.
  induction l as [|w r IH]; intros i acc k j Hi Hl Hk Hj;
    [cbn in Hk; lia|].
  inversion Hl as [|w' r' Hw Hr]; subst. unfold u64 in Hw.
  cbn [u1024FromList_loop]. destruct k as [|k].
  - cbn [nth]. rewrite u1024FromList_loop_low by lia.
    rewrite Z.lor_spec, Z.shiftl_spec by lia. do 2 f_equal. lia.
  - cbn [nth List.length] in *.
    replace (i + Z.of_nat (S k)) with (i + 1 + Z.of_nat k) by lia.
    rewrite IH by (try assumption; lia).
    rewrite Z.lor_spec, Z.shiftl_spec by lia.
    rewrite (testbit_above w 64) by lia. rewrite orb_false_r. reflexivity.
Qed.

(** X4.  [bitmapListToU1024] throws unless it is given exactly 16 words.
  On 16 unsigned 64-bit words it gives the 1024-bit value that
  [u1024FromList] also gives (summing and OR-ing agree, the words do not
  overlap), below 2^1024, and bit [j] of word [i] is bit [64 i + j] of the
  result. *)
Theorem bitmapListToU1024_words (bitmapList : list Z) :
  (List.length bitmapList <> 16%nat -> bitmapListToU1024 bitmapList = Throw)
  /\ (List.length bitmapList = 16%nat ->
      Forall u64 bitmapList ->
      exists v,
        bitmapListToU1024 bitmapList = Ret v
        /\ v = u1024FromList bitmapList
        /\ 0 <= v < 2 ^ 1024
        /\ forall (i : nat) j, (i < 16)%nat -> 0 <= j < 64 ->
             Z.testbit v (64 * Z.of_nat i + j)
             = Z.testbit (nth i bitmapList 0) j).
Proof.
  unfold bitmapListToU1024. split.
  - intros Hlen. apply Nat.eqb_neq in Hlen. rewrite Hlen. reflexivity.
  - intros Hlen Hw. rewrite Hlen. cbn [Nat.eqb negb].
    eexists. split; [reflexivity|].
    destruct (bitmapListToU1024_loop_lor bitmapList 0 0 ltac:(lia)
                ltac:(cbn; lia) Hw) as [Heq Hb].
    rewrite Hlen in Hb. change (64 * (0 + Z.of_nat 16)) with 1024 in Hb.
    assert (Hmask : u1024FromList bitmapList
                    = u1024FromList_loop bitmapList 0 0).
    { unfold u1024FromList, U1024_MASK, TOTAL_BITS.
      rewrite Z.shiftl_1_l. change (2 ^ 1024 - 1) with (Z.pred (2 ^ 1024)).
      rewrite <- Z.ones_equiv, Z.land_ones by lia.
      apply Z.mod_small. rewrite <- Heq. exact Hb. }
    split; [rewrite Hmask; exact Heq|]. split; [exact Hb|].
    intros i j Hi Hj. rewrite Heq.
    pose proof (u1024FromList_loop_bits bitmapList 0 0 i j ltac:(lia) Hw
                  ltac:(lia) Hj) as Hbits.
    rewrite Z.add_0_l in Hbits. rewrite Hbits, Z.bits_0. reflexivity.
Qed.

Lemma bitmapListToU1024_words_witness :
  List.length (repeat 5 16) = 16%nat
  /\ Forall u64 (repeat 5 16)
  /\ exists v,
       bitmapListToU1024 (repeat 5 16) = Ret v
       /\ v = u1024FromList (repeat 5 16)
       /\ 0 <= v < 2 ^ 1024
       /\ forall (i : nat) j, (i < 16)%nat -> 0 <= j < 64 ->
            Z.testbit v (64 * Z.of_nat i + j)
            = Z.testbit (nth i (repeat 5 16) 0) j.
Proof.
  assert (Hw : Forall u64 (repeat 5 16)).
  { apply Forall_forall. intros w Hin. apply repeat_spec in Hin. subst w.
    unfold u64. split; [lia|reflexivity]. }
  split; [reflexivity|]. split; [exact Hw|].
  apply (bitmapListToU1024_words (repeat 5 16)); [reflexivity|exact Hw].
Defined.

Section CurrentArrayFacts.

Variable tickSpacing : Z.
Hypothesis spacing_pos : 0 < tickSpacing.

Lemma land_bit (a n : Z) :
  0 <= n -> negb (Z.land a (Z.shiftl 1 n) =? 0) = Z.testbit a n.
Proof.
  intros Hn. rewrite Z.shiftl_1_l.
  destruct (Z.testbit a n) eqn:Hbit.
  - destruct (Z.land a (2 ^ n) =? 0) eqn:Hz; [|reflexivity].
    apply Z.eqb_eq in Hz.
    assert (Hb : Z.testbit (Z.land a (2 ^ n)) n = true)
      by (rewrite Z.land_spec, Hbit, Z.pow2_bits_true by lia; reflexivity).
    rewrite Hz, Z.bits_0 in Hb. discriminate.
  - replace (Z.land a (2 ^ n)) with 0; [reflexivity|].
    symmetry. apply Z.bits_inj'. intros m Hm.
    rewrite Z.land_spec, Z.bits_0, Z.pow2_bits_eqb by lia.
    destruct (Z.eqb_spec n m) as [->|_];
      [rewrite Hbit; reflexivity | apply andb_false_r].
Qed.

Lemma getArrayStartIndex_div (tickIndex : Z) :
  getArrayStartIndex tickIndex tickSpacing
  = (getArrayStartIndex tickIndex tickSpacing / tickCount tickSpacing)
    * tickCount tickSpacing.
Proof.
  pose proof (tickCount_ge tickSpacing spacing_pos) as Htc.
  unfold getArrayStartIndex. cbv zeta. rewrite Z.div_mul by lia. reflexivity.
Qed.

Lemma MIN_TICK_off_boundary : MIN_TICK mod tickCount tickSpacing <> 0.
Proof.
  pose proof (tickCount_ge tickSpacing spacing_pos) as Htc.
  intros Hz. apply Z.mod_divide in Hz; [|lia].
  assert (H3 : (3 | MIN_TICK)).
  { apply Z.divide_trans with (tickCount tickSpacing); [|exact Hz].
    exists (20 * tickSpacing). unfold tickCount, TICK_ARRAY_SIZE. lia. }
  apply Z.mod_divide in H3; [|lia]. discriminate H3.
Qed.

(** The start index of a tick inside the tick bounds lies between the
  start indices of the two bounds. *)
Lemma getArrayStartIndex_range (tickIndex : Z) :
  MIN_TICK <= tickIndex <= MAX_TICK ->
  getArrayStartIndex MIN_TICK tickSpacing
  <= getArrayStartIndex tickIndex tickSpacing
  <= getArrayStartIndex MAX_TICK tickSpacing.
Proof.
  intros Hb.
  pose proof (tickCount_ge tickSpacing spacing_pos) as Htc.
  pose proof MIN_TICK_off_boundary as Hoff.
  rewrite (getArrayStartIndex_negative MIN_TICK tickSpacing spacing_pos)
    by (try exact Hoff; unfold MIN_TICK; lia).
  rewrite (getArrayStartIndex_floor MAX_TICK tickSpacing spacing_pos)
    by (left; unfold MAX_TICK; lia).
  assert (Hlo : MIN_TICK / tickCount tickSpacing <= tickIndex / tickCount tickSpacing)
    by (apply Z.div_le_mono; lia).
  assert (Hhi : tickIndex / tickCount tickSpacing <= MAX_TICK / tickCount tickSpacing)
    by (apply Z.div_le_mono; lia).
  assert (Hmax : 0 <= MAX_TICK / tickCount tickSpacing)
    by (apply Z.div_pos; unfold MAX_TICK; lia).
  pose proof (Z.mul_div_le tickIndex (tickCount tickSpacing) ltac:(lia)) as Hle.
  remember (tickCount tickSpacing) as tc eqn:Etc.
  destruct (Z_lt_le_dec tickIndex 0) as [Hneg|Hnn].
  - destruct (Z.eq_dec (tickIndex mod tc) 0) as [Hz|Hz].
    + rewrite getArrayStartIndex_floor by (try right; subst tc; assumption).
      rewrite <- Etc. nia.
    + rewrite getArrayStartIndex_negative by (subst tc; assumption).
      rewrite <- Etc. nia.
  - rewrite getArrayStartIndex_floor by (try left; assumption).
    rewrite <- Etc. nia.
Qed.

(** What [isOverflowDefaultTickarrayBitmap] decides for one tick inside
  the tick bounds: whether its start index is outside the range
  [-512 arrays, 512 arrays) of the inline bitmap. *)
Lemma isOverflow_single (tickIndex : Z) :
  MIN_TICK <= tickIndex <= MAX_TICK ->
  let start := getArrayStartIndex tickIndex tickSpacing in
  isOverflowDefaultTickarrayBitmap [tickIndex] tickSpacing
  = negb ((- (512 * tickCount tickSpacing) <=? start)
          && (start <? 512 * tickCount tickSpacing)).
Proof.
  intros Hb start.
  pose proof (tickCount_ge tickSpacing spacing_pos) as Htc.
  pose proof (getArrayStartIndex_range tickIndex Hb) as Hr. fold start in Hr.
  pose proof (getArrayStartIndex_MAX_le tickSpacing spacing_pos) as Hmax.
  pose proof (getArrayStartIndex_MIN_gt tickSpacing spacing_pos) as Hmin.
  pose proof (getArrayStartIndex_MIN_le tickSpacing spacing_pos) as Hmin'.
  unfold isOverflowDefaultTickarrayBitmap, tickArrayStartIndexRange.
  cbv zeta. cbn [isOverflow_loop]. fold start.
  rewrite (ticksInOneBitmap_eq tickSpacing).
  assert (Htc60 : tickCount tickSpacing = 60 * tickSpacing)
    by (unfold tickCount, TICK_ARRAY_SIZE; lia).
  unfold MAX_TICK, MIN_TICK in *.
  remember (getArrayStartIndex (-443636) tickSpacing) as lo eqn:Elo.
  remember (getArrayStartIndex 443636 tickSpacing) as hi eqn:Ehi.
  remember (tickCount tickSpacing) as tc eqn:Etc.
  clear Elo Ehi Etc.
  destruct (512 * tc >? 443636) eqn:H1; destruct (- (512 * tc) <? -443636) eqn:H2;
    rewrite Z.gtb_ltb in H1;
    [apply Z.ltb_lt in H1 | apply Z.ltb_lt in H1
    |apply Z.ltb_ge in H1 | apply Z.ltb_ge in H1];
    [apply Z.ltb_lt in H2 | apply Z.ltb_ge in H2
    |apply Z.ltb_lt in H2 | apply Z.ltb_ge in H2];
    try lia;
    rewrite Z.geb_leb;
    destruct (Z.leb_spec (hi + tc) start), (Z.ltb_spec start lo),
             (Z.leb_spec (512 * tc) start), (Z.ltb_spec start (- (512 * tc))),
             (Z.leb_spec (- (512 * tc)) start), (Z.ltb_spec start (512 * tc));
    cbn [orb andb negb]; try reflexivity; try lia.
Qed.

(** The position [checkCurrentTickArrayIsInitialized] computes is the one
  of the start index of the current tick. *)
Lemma checkCurrent_position (tickCurrent : Z) :
  (if (tickCurrent <? 0)
      && negb (Z.rem tickCurrent (tickCount tickSpacing) =? 0)
   then tickCurrent / tickCount tickSpacing + 512 - 1
   else tickCurrent / tickCount tickSpacing + 512)
  = getArrayStartIndex tickCurrent tickSpacing / tickCount tickSpacing + 512.
Proof.
  pose proof (tickCount_ge tickSpacing spacing_pos) as Htc.
  unfold getArrayStartIndex. cbv zeta. rewrite Z.div_mul by lia.
  destruct (_ && _); lia.
Qed.

(** [checkCurrentTickArrayIsInitialized] hands back the start index of the
  current tick. *)
Lemma checkCurrent_start (bitMap tickCurrent : Z) :
  snd (checkCurrentTickArrayIsInitialized bitMap tickCurrent tickSpacing)
  = getArrayStartIndex tickCurrent tickSpacing.
Proof.
  pose proof (tickCount_ge tickSpacing spacing_pos) as Htc.
  unfold checkCurrentTickArrayIsInitialized. cbv zeta.
  rewrite (multiplier_eq tickSpacing). cbn [snd].
  rewrite checkCurrent_position.
  rewrite (getArrayStartIndex_div tickCurrent) at 2. f_equal. lia.
Qed.

(** X5.  [checkCurrentTickArrayIsInitialized] hands back the start index
  that [getArrayStartIndex] gives for the current tick.  When the tick is
  inside the tick bounds and [isOverflowDefaultTickarrayBitmap] says it is
  covered by the inline bitmap, the flag is bit [start / ticksInArray + 512]
  of the bitmap, a position from 0 to 1023. *)
Theorem checkCurrentTickArrayIsInitialized_bit (bitMap tickCurrent : Z) :
  MIN_TICK <= tickCurrent <= MAX_TICK ->
  let start := getArrayStartIndex tickCurrent tickSpacing in
  snd (checkCurrentTickArrayIsInitialized bitMap tickCurrent tickSpacing)
  = start
  /\ (isOverflowDefaultTickarrayBitmap [tickCurrent] tickSpacing = false ->
      let pos := start / tickCount tickSpacing + 512 in
      0 <= pos < 1024
      /\ fst (checkCurrentTickArrayIsInitialized bitMap tickCurrent tickSpacing)
         = Z.testbit bitMap pos).
Proof.
  intros Hb start.
  pose proof (tickCount_ge tickSpacing spacing_pos) as Htc.
  split; [apply checkCurrent_start|].
  intros Hover. set (pos := start / tickCount tickSpacing + 512).
  rewrite (isOverflow_single tickCurrent Hb) in Hover. fold start in Hover.
  apply negb_false_iff, andb_true_iff in Hover.
  destruct Hover as [H1 H2]. apply Z.leb_le in H1. apply Z.ltb_lt in H2.
  pose proof (getArrayStartIndex_div tickCurrent) as Hstart.
  fold start in Hstart.
  assert (Hpos : 0 <= pos < 1024).
  { unfold pos. remember (start / tickCount tickSpacing) as k.
    remember (tickCount tickSpacing) as tc. nia. }
  split; [exact Hpos|].
  unfold checkCurrentTickArrayIsInitialized. cbv zeta.
  rewrite (multiplier_eq tickSpacing). cbn [fst].
  rewrite checkCurrent_position. fold start. fold pos.
  rewrite Z.abs_eq by lia. apply land_bit. lia.
Qed.
End CurrentArrayFacts.

Lemma checkCurrentTickArrayIsInitialized_bit_witness :
  0 < 10
  /\ MIN_TICK <= 1234 <= MAX_TICK
  /\ snd (checkCurrentTickArrayIsInitialized (2 ^ 514) 1234 10)
     = getArrayStartIndex 1234 10
  /\ (isOverflowDefaultTickarrayBitmap [1234] 10 = false ->
      0 <= getArrayStartIndex 1234 10 / tickCount 10 + 512 < 1024
      /\ fst (checkCurrentTickArrayIsInitialized (2 ^ 514) 1234 10)
         = Z.testbit (2 ^ 514) (getArrayStartIndex 1234 10 / tickCount 10 + 512)).
Proof.
  assert (Hb : MIN_TICK <= 1234 <= MAX_TICK) by (unfold MIN_TICK, MAX_TICK; lia).
  split; [lia|]. split; [exact Hb|].
  apply (checkCurrentTickArrayIsInitialized_bit 10 ltac:(lia) (2 ^ 514) 1234 Hb).
Defined.

Section ScanResultFacts.

Variable tickSpacing : Z.
Hypothesis spacing_pos : 0 < tickSpacing.

Lemma Ret_pair_inv {A B : Type} (a c : A) (b d : B) :
  Ret (a, b) = Ret (c, d) -> a = c /\ b = d.
Proof. intros H. inversion H. split; reflexivity. Qed.

Lemma Ret_inv {A : Type} (a b : A) : Ret a = Ret b -> a = b.
Proof. intros H. inversion H. reflexivity. Qed.

Lemma toString2_length_lowest_nonneg (w : Z) :
  w <> 0 -> 0 <= toString2_length (Z.land w (- w)) - 1.
Proof.
  intros Hw. pose proof (lowest_bit_set w Hw) as Hbit.
  destruct (Z_lt_le_dec (toString2_length (Z.land w (- w)) - 1) 0) as [Hneg|]; [|lia].
  rewrite Z.testbit_neg_r in Hbit by exact Hneg. discriminate.
Qed.

Lemma toString2_length_masked (a n : Z) :
  0 <= n ->
  Z.land a (Z.shiftl 1 n - 1) <> 0 ->
  1 <= toString2_length (Z.land a (Z.shiftl 1 n - 1)) <= n.
Proof.
  intros Hn. rewrite Z.shiftl_1_l.
  change (2 ^ n - 1) with (Z.pred (2 ^ n)).
  rewrite <- Z.ones_equiv, Z.land_ones by lia. intros Hnz.
  pose proof (Z.mod_pos_bound a (2 ^ n) ltac:(apply Z.pow_pos_nonneg; lia)) as Hm.
  remember (a mod 2 ^ n) as w eqn:Ew. clear Ew.
  assert (Hlog : Z.log2 w < n) by (apply Z.log2_lt_pow2; lia).
  pose proof (Z.log2_nonneg w).
  destruct w as [|p|p]; try lia. unfold toString2_length. lia.
Qed.

Lemma aligned_no_correction (next tc : Z) :
  0 < tc -> (tc | next) ->
  (next <? 0) && negb (Z.rem next tc =? 0) = false.
Proof.
  intros Htc Hd. apply Z.rem_divide in Hd; [|lia]. rewrite Hd.
  apply andb_false_r.
Qed.

(** A hit of the inline scan is an aligned start index strictly beyond the
  index the scan started from. *)
Lemma inline_scan_hit_beyond bitMap last (zeroForOne : bool) idx :
  (tickCount tickSpacing | last) ->
  nextInitializedTickArrayStartIndexInBitmap bitMap last tickSpacing zeroForOne
    = (true, idx) ->
  (tickCount tickSpacing | idx)
  /\ (if zeroForOne then idx < last else last < idx).
Proof.
  intros Hal.
  pose proof (tickCount_ge tickSpacing spacing_pos) as Htc.
  unfold nextInitializedTickArrayStartIndexInBitmap.
  rewrite (maxTick_eq tickSpacing), (multiplier_eq tickSpacing).
  cbv zeta. remember (tickCount tickSpacing) as tc eqn:Etc. clear Etc.
  set (next := if zeroForOne then last - tc else last + tc).
  assert (Hnal : (tc | next)).
  { unfold next. destruct zeroForOne;
      [apply Z.divide_sub_r | apply Z.divide_add_r];
      try exact Hal; apply Z.divide_refl. }
  assert (Hstep : if zeroForOne then next = last - tc else next = last + tc)
    by (unfold next; destruct zeroForOne; reflexivity).
  clearbody next.
  destruct ((next <? - (512 * tc)) || (next >=? 512 * tc)) eqn:Hout;
    [discriminate|].
  apply orb_false_iff in Hout. destruct Hout as [H1 H2].
  apply Z.ltb_ge in H1. rewrite Z.geb_leb in H2. apply Z.leb_gt in H2.
  rewrite (aligned_no_correction next tc) by (try exact Hnal; lia).
  destruct Hnal as [k Hk].
  assert (Hdiv : next / tc = k) by (subst next; apply Z.div_mul; lia).
  rewrite Hdiv. assert (Hkb : -512 <= k < 512) by nia.
  rewrite Z.abs_eq by lia.
  destruct zeroForOne.
  - unfold mostSignificantBit, U1024_MASK, TOTAL_BITS.
    match goal with |- context [Z.land ?a (Z.shiftl 1 1024 - 1) =? 0] =>
      set (w := Z.land a (Z.shiftl 1 1024 - 1)) end.
    destruct (w =? 0) eqn:Hw; [discriminate|]. apply Z.eqb_neq in Hw.
    pose proof (toString2_length_masked _ 1024 ltac:(lia) Hw) as Hlen.
    fold w in Hlen.
    intros Heq. apply pair_equal_spec in Heq. destruct Heq as [_ Heq].
    subst idx. split; [apply Z.divide_factor_r|]. nia.
  - unfold leastSignificantBit.
    match goal with |- context [?a =? 0] => set (w := a) end.
    destruct (w =? 0) eqn:Hw; [discriminate|]. apply Z.eqb_neq in Hw.
    pose proof (toString2_length_lowest_nonneg w Hw) as Hlen.
    intros Heq. apply pair_equal_spec in Heq. destruct Heq as [_ Heq].
    subst idx. split; [apply Z.divide_factor_r|]. nia.
Qed.

Lemma inline_scan_miss_aligned bitMap last (zeroForOne : bool) idx :
  (tickCount tickSpacing | last) ->
  nextInitializedTickArrayStartIndexInBitmap bitMap last tickSpacing zeroForOne
    = (false, idx) ->
  (tickCount tickSpacing | idx).
Proof.
  intros Hal.
  unfold nextInitializedTickArrayStartIndexInBitmap.
  rewrite (maxTick_eq tickSpacing). cbv zeta.
  assert (HT : (tickCount tickSpacing | 512 * tickCount tickSpacing))
    by apply Z.divide_factor_r.
  destruct (_ || _).
  - intros Heq. apply pair_equal_spec in Heq. destruct Heq as [_ <-]. exact Hal.
  - destruct zeroForOne.
    + destruct (mostSignificantBit _); [discriminate|].
      intros Heq. apply pair_equal_spec in Heq. destruct Heq as [_ <-].
      destruct HT as [k Hk]. exists (- k). lia.
    + destruct (leastSignificantBit _); [discriminate|].
      intros Heq. apply pair_equal_spec in Heq. destruct Heq as [_ <-].
      apply Z.divide_sub_r; [exact HT|apply Z.divide_refl].
Qed.

Lemma bitmap_boundary_aligned next lo hi :
  getBitmapTickBoundary next tickSpacing = (lo, hi) ->
  (tickCount tickSpacing | lo) /\ (tickCount tickSpacing | hi).
Proof.
  unfold getBitmapTickBoundary. rewrite (ticksInOneBitmap_eq tickSpacing).
  cbv zeta.
  match goal with |- context [512 * tickCount tickSpacing * ?m] =>
    remember m as q eqn:Eq end. clear Eq.
  assert (H1 : (tickCount tickSpacing | 512 * tickCount tickSpacing * q))
    by (exists (512 * q); lia).
  assert (H2 : (tickCount tickSpacing | 512 * tickCount tickSpacing))
    by apply Z.divide_factor_r.
  assert (H3 : (tickCount tickSpacing | - (512 * tickCount tickSpacing * q)))
    by (exists (- (512 * q)); lia).
  destruct (next <? 0); intros Heq; apply pair_equal_spec in Heq;
    destruct Heq as [<- <-]; split;
    first [ exact H1 | exact H3
          | apply Z.divide_add_r; [first [exact H1|exact H3]|exact H2] ].
Qed.

(** A result of the scan of one segment is aligned when the scanned index
  is, and a hit is at or beyond the scanned index. *)
Lemma segment_scan_result parts next (zeroForOne : bool) found idx :
  (tickCount tickSpacing | next) ->
  nextInitializedTickArrayInBitmap (Some parts) next tickSpacing zeroForOne
    = Ret (found, idx) ->
  (tickCount tickSpacing | idx)
  /\ (found = true -> if zeroForOne then idx <= next else next <= idx).
Proof.
  intros Hal.
  pose proof (tickCount_ge tickSpacing spacing_pos) as Htc.
  unfold nextInitializedTickArrayInBitmap.
  destruct (getBitmapTickBoundary next tickSpacing) as [lo hi] eqn:Hb.
  apply bitmap_boundary_aligned in Hb. destruct Hb as [Hlo Hhi].
  unfold u512IsZero, u512LeadingZeros, u512TrailingZeros, TICK_ARRAY_BITMAP_SIZE.
  destruct zeroForOne.
  - match goal with |- context [Z.land ?a (Z.shiftl 1 512 - 1) =? 0] =>
      set (w := Z.land a (Z.shiftl 1 512 - 1)) end.
    destruct (w =? 0) eqn:Hw.
    + intros Heq. apply Ret_pair_inv in Heq. destruct Heq as [<- <-]. split; [exact Hlo|discriminate].
    + apply Z.eqb_neq in Hw.
      pose proof (toString2_length_masked _ 512 ltac:(lia) Hw) as Hlen.
      fold w in Hlen.
      intros Heq. apply Ret_pair_inv in Heq. destruct Heq as [<- <-]. split.
      * apply Z.divide_sub_r; [exact Hal|apply Z.divide_factor_r].
      * intros _. nia.
  - match goal with |- context [?a =? 0] => set (w := a) end.
    destruct (w =? 0) eqn:Hw.
    + intros Heq. apply Ret_pair_inv in Heq. destruct Heq as [<- <-].
      split; [|discriminate].
      apply Z.divide_sub_r; [exact Hhi|apply Z.divide_refl].
    + apply Z.eqb_neq in Hw.
      pose proof (toString2_length_lowest_nonneg w Hw) as Hlen.
      intros Heq. apply Ret_pair_inv in Heq. destruct Heq as [<- <-]. split.
      * apply Z.divide_add_r; [exact Hal|apply Z.divide_factor_r].
      * intros _. nia.
Qed.

Lemma extension_scan_result last (zeroForOne : bool) extension found idx :
  (tickCount tickSpacing | last) ->
  nextInitializedTickArrayFromOneBitmap last tickSpacing zeroForOne extension
    = Ret (found, idx) ->
  (tickCount tickSpacing | idx)
  /\ (found = true -> if zeroForOne then idx < last else last < idx).
Proof.
  intros Hal.
  pose proof (tickCount_ge tickSpacing spacing_pos) as Htc.
  unfold nextInitializedTickArrayFromOneBitmap. cbv zeta.
  set (next := if zeroForOne then last - tickCount tickSpacing
               else last + tickCount tickSpacing).
  assert (Hnal : (tickCount tickSpacing | next)).
  { unfold next. destruct zeroForOne;
      [apply Z.divide_sub_r | apply Z.divide_add_r];
      try exact Hal; apply Z.divide_refl. }
  assert (Hstep : if zeroForOne then next = last - tickCount tickSpacing
                  else next = last + tickCount tickSpacing)
    by (unfold next; destruct zeroForOne; reflexivity).
  clearbody next.
  destruct (_ || _).
  - intros Heq. apply Ret_pair_inv in Heq. destruct Heq as [<- <-]. split; [exact Hnal|discriminate].
  - destruct extension as [positiveBitmap negativeBitmap].
    destruct (getBitmap next tickSpacing positiveBitmap negativeBitmap)
      as [offset seg].
    destruct seg as [parts|];
      [|unfold nextInitializedTickArrayInBitmap;
        destruct (getBitmapTickBoundary next tickSpacing); discriminate].
    intros Hseg. apply segment_scan_result in Hseg; [|exact Hnal].
    destruct Hseg as [Hidx Hhit]. split; [exact Hidx|].
    intros Hf. specialize (Hhit Hf). destruct zeroForOne; lia.
Qed.

Section Passes.
Variable tickArrayBitmap : list Z.
Variable tickarrayBitmapExtension : Extension.
Variable zeroForOne : bool.
Hypothesis positive_segments :
  List.length (fst tickarrayBitmapExtension) = 14%nat.
Hypothesis negative_segments :
  List.length (snd tickarrayBitmapExtension) = 14%nat.

(** What one pass does to an aligned index: an index it returns is aligned
  and strictly beyond; an index it goes on with is aligned. *)
Lemma scanPass_aligned last p :
  (tickCount tickSpacing | last) ->
  scanPass tickArrayBitmap tickarrayBitmapExtension last tickSpacing zeroForOne
    = Ret p ->
  match p with
  | Return (Some idx) =>
      (tickCount tickSpacing | idx)
      /\ (if zeroForOne then idx < last else last < idx)
  | Return None => True
  | Again last' => (tickCount tickSpacing | last')
  end.
Proof.
  intros Hal. unfold scanPass.
  destruct (nextInitializedTickArrayStartIndexInBitmap
              (u1024FromList tickArrayBitmap) last tickSpacing zeroForOne)
    as [found idx] eqn:Hinline.
  destruct found.
  - intros Heq. apply Ret_inv in Heq. subst p.
    apply inline_scan_hit_beyond in Hinline; assumption.
  - pose proof (inline_scan_miss_aligned _ _ _ _ Hal Hinline) as Hal1.
    apply (inline_scan_miss tickSpacing spacing_pos) in Hinline.
    cbv zeta in Hinline.
    destruct (nextInitializedTickArrayFromOneBitmap idx tickSpacing zeroForOne
                tickarrayBitmapExtension) as [[found2 idx2]|] eqn:Hext;
      cbn [js_bind]; [|discriminate].
    apply extension_scan_result in Hext; [|exact Hal1].
    destruct Hext as [Hal2 Hhit].
    destruct found2.
    + intros Heq. apply Ret_inv in Heq. subst p. split; [exact Hal2|].
      specialize (Hhit eq_refl). destruct zeroForOne; lia.
    + destruct (_ || _); intros Heq; apply Ret_inv in Heq; subst p;
        [exact I|exact Hal2].
Qed.

Lemma scanLoop_beyond (fuel : nat) :
  forall last idx,
    (tickCount tickSpacing | last) ->
    scanLoop fuel tickArrayBitmap tickarrayBitmapExtension
             last tickSpacing zeroForOne = Some (Ret (Some idx)) ->
    (tickCount tickSpacing | idx)
    /\ (if zeroForOne then idx < last else last < idx).
Proof.
  induction fuel as [|fuel IH]; intros last idx Hal; [discriminate|].
  cbn [scanLoop].
  destruct (scanPass_progress tickSpacing spacing_pos tickArrayBitmap
              tickarrayBitmapExtension zeroForOne positive_segments
              negative_segments last) as (p & Hp & Hagain).
  rewrite Hp. pose proof (scanPass_aligned last p Hal Hp) as Hres.
  destruct p as [r|last'].
  - intros Heq. assert (Hr : r = Some idx) by congruence. subst r. exact Hres.
  - intros Hrun. destruct (Hagain last' eq_refl) as [_ Hlt].
    destruct (IH last' idx Hres Hrun) as [Hidx Hb].
    split; [exact Hidx|]. destruct zeroForOne; lia.
Qed.

(** The scan from any start index ends, with one result for every run
  with enough fuel. *)
Lemma scanLoop_total last :
  exists r, forall fuel, (scan_fuel_bound <= fuel)%nat ->
    scanLoop fuel tickArrayBitmap tickarrayBitmapExtension
             last tickSpacing zeroForOne = Some (Ret r).
Proof.
  assert (Hbound : scan_fuel_bound = S (Z.to_nat (MAX_TICK - MIN_TICK + 1)))
    by reflexivity.
  destruct (scanPass_progress tickSpacing spacing_pos tickArrayBitmap
              tickarrayBitmapExtension zeroForOne positive_segments
              negative_segments last) as (p & Hpass & Hagain).
  destruct p as [r|last'].
  - exists r. intros fuel Hf. destruct fuel as [|fuel]; [rewrite Hbound in Hf; lia|].
    cbn [scanLoop]. rewrite Hpass. reflexivity.
  - destruct (Hagain last' eq_refl) as [Hb _].
    destruct (scanLoop_terminates tickSpacing spacing_pos tickArrayBitmap
                tickarrayBitmapExtension zeroForOne positive_segments
                negative_segments
                (Z.to_nat (MAX_TICK - MIN_TICK + 1)) last' Hb) as [r Hr].
    { unfold remaining. rewrite Z2Nat.id by (unfold MAX_TICK, MIN_TICK; lia).
      destruct zeroForOne; lia. }
    exists r. intros fuel Hf. destruct fuel as [|fuel]; [rewrite Hbound in Hf; lia|].
    cbn [scanLoop]. rewrite Hpass. apply Hr. rewrite Hbound in Hf. lia.
Qed.

(** From an aligned index the scan ends, and an index it returns is
  aligned and strictly beyond the one it started from. *)
Lemma scan_from_aligned (start : Z) :
  (tickCount tickSpacing | start) ->
  exists result : option Z,
    (forall fuel, (scan_fuel_bound <= fuel)%nat ->
       scanLoop fuel tickArrayBitmap tickarrayBitmapExtension
                start tickSpacing zeroForOne = Some (Ret result))
    /\ (forall idx, result = Some idx ->
          (tickCount tickSpacing | idx)
          /\ (if zeroForOne then idx < start else start < idx)).
Proof.
  intros Hal. destruct (scanLoop_total start) as [r Hr].
  exists r. split; [exact Hr|].
  intros idx ->. apply (scanLoop_beyond scan_fuel_bound); [exact Hal|].
  apply Hr. lia.
Qed.

(** X6.  Whatever the bitmaps hold, a start index that
  [nextInitializedTickArrayStartIndex] returns is a multiple of the number
  of ticks in an array and lies strictly beyond the start index of the
  array it was asked about, in the direction of the search: below it when
  [zeroForOne], above it otherwise.  The search never hands back the array
  it started from, nor one behind it. *)
Theorem nextInitializedTickArrayStartIndex_beyond (lastTickArrayStartIndex : Z) :
  exists result : option Z,
    (forall fuel, (scan_fuel_bound <= fuel)%nat ->
       nextInitializedTickArrayStartIndex fuel tickArrayBitmap
         tickarrayBitmapExtension lastTickArrayStartIndex tickSpacing zeroForOne
       = Some (Ret result))
    /\ (forall idx, result = Some idx ->
          (tickCount tickSpacing | idx)
          /\ (if zeroForOne
              then idx < getArrayStartIndex lastTickArrayStartIndex tickSpacing
              else getArrayStartIndex lastTickArrayStartIndex tickSpacing < idx)).
Proof.
  unfold nextInitializedTickArrayStartIndex.
  apply scan_from_aligned. apply getArrayStartIndex_divides.
Qed.

(** X7.  For a tick inside the tick bounds, an inline bitmap of 16 words
  and an extension with its 14 positive and 14 negative segments,
  [getFirstInitializedTickArray] ends without throwing.  With the flag
  set the index is the start index of the array of the current tick;
  without it the index is that same start index (nothing found) or an
  aligned start index strictly beyond it in the search direction. *)
Theorem getFirstInitializedTickArray_total (tickCurrent : Z) :
  MIN_TICK <= tickCurrent <= MAX_TICK ->
  List.length tickArrayBitmap = 16%nat ->
  let start := getArrayStartIndex tickCurrent tickSpacing in
  exists (initialized : bool) (idx : Z),
    (forall fuel, (scan_fuel_bound <= fuel)%nat ->
       getFirstInitializedTickArray fuel tickCurrent tickSpacing
         tickArrayBitmap tickarrayBitmapExtension zeroForOne
       = Some (Ret (initialized, idx)))
    /\ (tickCount tickSpacing | idx)
    /\ (if initialized then idx = start
        else idx = start
             \/ (if zeroForOne then idx < start else start < idx)).
Proof.
  intros Hb Hlen start.
  pose proof (tickCount_ge tickSpacing spacing_pos) as Htc.
  assert (Hal : (tickCount tickSpacing | start))
    by apply getArrayStartIndex_divides.
  assert (Hcur : exists flag,
             (if isOverflowDefaultTickarrayBitmap [tickCurrent] tickSpacing
              then checkTickArrayIsInitialized start tickSpacing
                     tickarrayBitmapExtension
              else (u1024Bitmap <- bitmapListToU1024 tickArrayBitmap ;;
                    Ret (checkCurrentTickArrayIsInitialized u1024Bitmap
                           tickCurrent tickSpacing))%js)
             = Ret (flag, start)).
  { destruct (isOverflowDefaultTickarrayBitmap [tickCurrent] tickSpacing)
      eqn:Hover.
    - rewrite (isOverflow_single tickSpacing spacing_pos tickCurrent Hb)
        in Hover.
      fold start in Hover. apply negb_true_iff, andb_false_iff in Hover.
      assert (Hout : start < - (512 * tickCount tickSpacing)
                     \/ 512 * tickCount tickSpacing <= start).
      { destruct Hover as [H|H];
          [apply Z.leb_gt in H | apply Z.ltb_ge in H]; lia. }
      destruct tickarrayBitmapExtension as [positiveBitmap negativeBitmap].
      cbn [fst snd] in *.
      destruct (getBitmap_defined tickSpacing spacing_pos start
                  positiveBitmap negativeBitmap positive_segments
                  negative_segments Hout
                  (getArrayStartIndex_range tickSpacing spacing_pos
                     tickCurrent Hb)) as [parts Hparts].
      unfold checkTickArrayIsInitialized.
      destruct (getBitmap start tickSpacing positiveBitmap negativeBitmap)
        as [offset seg]. cbn [snd] in Hparts. subst seg.
      eexists. reflexivity.
    - unfold bitmapListToU1024. rewrite Hlen. cbn [Nat.eqb negb js_bind].
      match goal with |- context [checkCurrentTickArrayIsInitialized ?b _ _] =>
        pose proof (checkCurrent_start tickSpacing spacing_pos b tickCurrent)
          as Hsnd;
        destruct (checkCurrentTickArrayIsInitialized b tickCurrent tickSpacing)
          as [flag res] end.
      cbn [snd] in Hsnd. fold start in Hsnd. subst res.
      exists flag. reflexivity. }
  destruct Hcur as [flag Hcur].
  unfold getFirstInitializedTickArray. cbv zeta. fold start. rewrite Hcur.
  destruct flag.
  - exists true, start. split; [reflexivity|]. split; [exact Hal|reflexivity].
  - destruct (scan_from_aligned start Hal) as (r & Hr & Hres).
    unfold nextInitializedTickArrayStartIndex.
    rewrite (getArrayStartIndex_fixed start tickSpacing spacing_pos Hal).
    destruct r as [next|].
    + exists false, next. split.
      * intros fuel Hf. rewrite (Hr fuel Hf). reflexivity.
      * destruct (Hres next eq_refl) as [H1 H2]. split; [exact H1|].
        right. exact H2.
    + exists false, start. split.
      * intros fuel Hf. rewrite (Hr fuel Hf). reflexivity.
      * split; [exact Hal|]. left. reflexivity.
Qed.
End Passes.
End ScanResultFacts.

Lemma nextInitializedTickArrayStartIndex_beyond_witness :
  0 < 1
  /\ List.length (repeat (repeat 0 8) 14) = 14%nat
  /\ List.length (repeat (repeat 1 8) 14) = 14%nat
  /\ exists result : option Z,
       (forall fuel, (scan_fuel_bound <= fuel)%nat ->
          nextInitializedTickArrayStartIndex fuel (repeat 1 16)
            (repeat (repeat 0 8) 14, repeat (repeat 1 8) 14) 7 1 false
          = Some (Ret result))
       /\ (forall idx, result = Some idx ->
             (tickCount 1 | idx)
             /\ getArrayStartIndex 7 1 < idx).
Proof.
  split; [lia|]. split; [reflexivity|]. split; [reflexivity|].
  apply (nextInitializedTickArrayStartIndex_beyond 1 ltac:(lia)
           (repeat 1 16) (repeat (repeat 0 8) 14, repeat (repeat 1 8) 14)
           false eq_refl eq_refl 7).
Defined.

Lemma getFirstInitializedTickArray_total_witness :
  0 < 1
  /\ List.length (repeat (repeat 0 8) 14) = 14%nat
  /\ List.length (repeat (repeat 1 8) 14) = 14%nat
  /\ MIN_TICK <= 7 <= MAX_TICK
  /\ List.length (repeat 1 16) = 16%nat
  /\ exists (initialized : bool) (idx : Z),
       (forall fuel, (scan_fuel_bound <= fuel)%nat ->
          getFirstInitializedTickArray fuel 7 1 (repeat 1 16)
            (repeat (repeat 0 8) 14, repeat (repeat 1 8) 14) true
          = Some (Ret (initialized, idx)))
       /\ (tickCount 1 | idx)
       /\ (if initialized then idx = getArrayStartIndex 7 1
           else idx = getArrayStartIndex 7 1
                \/ idx < getArrayStartIndex 7 1).
Proof.
  assert (Hb : MIN_TICK <= 7 <= MAX_TICK) by (unfold MIN_TICK, MAX_TICK; lia).
  split; [lia|]. split; [reflexivity|]. split; [reflexivity|].
  split; [exact Hb|]. split; [reflexivity|].
  apply (getFirstInitializedTickArray_total 1 ltac:(lia)
           (repeat 1 16) (repeat (repeat 0 8) 14, repeat (repeat 1 8) 14)
           true eq_refl eq_refl 7 Hb eq_refl).
Defined.
Section NextTickFacts.

Lemma js_index_Some_lt {A : Type} (l : list A) (i : Z) (x : A) :
  js_index l i = Some x -> 0 <= i < Z.of_nat (List.length l).
Proof.
  unfold js_index. destruct (i <? 0) eqn:Hi; [discriminate|].
  apply Z.ltb_ge in Hi. intros Hn.
  assert (Hlt : (Z.to_nat i < List.length l)%nat)
    by (apply nth_error_Some; congruence).
  lia.
Qed.

Lemma nextInitializedTick_down_spec (ticks : list Tick) (n : nat) :
  forall offset,
    offset + 1 < Z.of_nat n -> (0 < n)%nat ->
    exists r,
      (forall fuel, (n <= fuel)%nat ->
         nextInitializedTick_down fuel ticks offset = Some r)
      /\ match r with
         | Some tick =>
             exists i, 0 <= i <= offset
               /\ js_index ticks i = Some tick
               /\ liquidity_gross tick <> 0
               /\ forall j t, i < j <= offset ->
                    js_index ticks j = Some t -> liquidity_gross t = 0
         | None =>
             forall j t, 0 <= j <= offset ->
               js_index ticks j = Some t -> liquidity_gross t = 0
         end.
Proof.
  induction n as [|n IH]; intros offset Hn Hpos; [lia|].
  destruct (offset >=? 0) eqn:Hoff.
  - rewrite Z.geb_leb in Hoff. apply Z.leb_le in Hoff.
    assert (Hrec : exists r,
               (forall fuel, (n <= fuel)%nat ->
                  nextInitializedTick_down fuel ticks (offset - 1) = Some r)
               /\ match r with
                  | Some tick =>
                      exists i, 0 <= i <= offset - 1
                        /\ js_index ticks i = Some tick
                        /\ liquidity_gross tick <> 0
                        /\ forall j t, i < j <= offset - 1 ->
                             js_index ticks j = Some t -> liquidity_gross t = 0
                  | None =>
                      forall j t, 0 <= j <= offset - 1 ->
                        js_index ticks j = Some t -> liquidity_gross t = 0
                  end)
      by (apply IH; lia).
    destruct Hrec as (r & Hrun & Hr).
    assert (Hgeb : (offset >=? 0) = true)
      by (rewrite Z.geb_leb; apply Z.leb_le; exact Hoff).
    destruct (js_index ticks offset) as [tick|] eqn:Hidx.
    + destruct (liquidity_gross tick =? 0) eqn:Hliq.
      * apply Z.eqb_eq in Hliq. exists r. split.
        { intros fuel Hf. destruct fuel as [|fuel]; [lia|].
          cbn [nextInitializedTick_down].
          rewrite Hgeb, Hidx. apply Z.eqb_eq in Hliq. rewrite Hliq.
          cbn [negb]. apply Hrun. lia. }
        destruct r as [found|].
        { destruct Hr as (i & Hi & Hfound & Hnz & Hclear).
          exists i. split; [lia|]. split; [exact Hfound|]. split; [exact Hnz|].
          intros j t Hj Ht. destruct (Z.eq_dec j offset) as [->|Hne].
          - congruence.
          - apply (Hclear j t); [lia|exact Ht]. }
        { intros j t Hj Ht. destruct (Z.eq_dec j offset) as [->|Hne].
          - congruence.
          - apply (Hr j t); [lia|exact Ht]. }
      * apply Z.eqb_neq in Hliq. exists (Some tick). split.
        { intros fuel Hf. destruct fuel as [|fuel]; [lia|].
          cbn [nextInitializedTick_down].
          rewrite Hgeb, Hidx. apply Z.eqb_neq in Hliq. rewrite Hliq.
          reflexivity. }
        exists offset. split; [lia|]. split; [exact Hidx|].
        split; [exact Hliq|]. intros j t Hj. lia.
    + exists r. split.
      { intros fuel Hf. destruct fuel as [|fuel]; [lia|].
        cbn [nextInitializedTick_down]. rewrite Hgeb, Hidx. apply Hrun. lia. }
      destruct r as [found|].
      { destruct Hr as (i & Hi & Hfound & Hnz & Hclear).
        exists i. split; [lia|]. split; [exact Hfound|]. split; [exact Hnz|].
        intros j t Hj Ht. destruct (Z.eq_dec j offset) as [->|Hne].
        - congruence.
        - apply (Hclear j t); [lia|exact Ht]. }
      { intros j t Hj Ht. destruct (Z.eq_dec j offset) as [->|Hne].
        - congruence.
        - apply (Hr j t); [lia|exact Ht]. }
  - exists None. split.
    + intros fuel Hf. destruct fuel as [|fuel]; [lia|].
      cbn [nextInitializedTick_down]. rewrite Hoff. reflexivity.
    + rewrite Z.geb_leb in Hoff. apply Z.leb_gt in Hoff. intros j t Hj. lia.
Qed.

Lemma nextInitializedTick_up_spec (ticks : list Tick) (n : nat) :
  forall offset,
    Z.of_nat (List.length ticks) - offset < Z.of_nat n -> (0 < n)%nat ->
    exists r,
      (forall fuel, (n <= fuel)%nat ->
         nextInitializedTick_up fuel ticks offset = Some r)
      /\ match r with
         | Some tick =>
             exists i, offset <= i
               /\ js_index ticks i = Some tick
               /\ liquidity_gross tick <> 0
               /\ forall j t, offset <= j < i ->
                    js_index ticks j = Some t -> liquidity_gross t = 0
         | None =>
             forall j t, offset <= j ->
               js_index ticks j = Some t -> liquidity_gross t = 0
         end.
Proof.
  induction n as [|n IH]; intros offset Hn Hpos; [lia|].
  destruct (offset <? Z.of_nat (List.length ticks)) eqn:Hoff.
  - pose proof Hoff as Hlt. apply Z.ltb_lt in Hlt.
    assert (Hrec : exists r,
               (forall fuel, (n <= fuel)%nat ->
                  nextInitializedTick_up fuel ticks (offset + 1) = Some r)
               /\ match r with
                  | Some tick =>
                      exists i, offset + 1 <= i
                        /\ js_index ticks i = Some tick
                        /\ liquidity_gross tick <> 0
                        /\ forall j t, offset + 1 <= j < i ->
                             js_index ticks j = Some t -> liquidity_gross t = 0
                  | None =>
                      forall j t, offset + 1 <= j ->
                        js_index ticks j = Some t -> liquidity_gross t = 0
                  end)
      by (apply IH; lia).
    destruct Hrec as (r & Hrun & Hr).
    destruct (js_index ticks offset) as [tick|] eqn:Hidx.
    + destruct (liquidity_gross tick =? 0) eqn:Hliq.
      * apply Z.eqb_eq in Hliq. exists r. split.
        { intros fuel Hf. destruct fuel as [|fuel]; [lia|].
          cbn [nextInitializedTick_up].
          rewrite Hoff, Hidx. apply Z.eqb_eq in Hliq. rewrite Hliq.
          cbn [negb]. apply Hrun. lia. }
        destruct r as [found|].
        { destruct Hr as (i & Hi & Hfound & Hnz & Hclear).
          exists i. split; [lia|]. split; [exact Hfound|]. split; [exact Hnz|].
          intros j t Hj Ht. destruct (Z.eq_dec j offset) as [->|Hne].
          - congruence.
          - apply (Hclear j t); [lia|exact Ht]. }
        { intros j t Hj Ht. destruct (Z.eq_dec j offset) as [->|Hne].
          - congruence.
          - apply (Hr j t); [lia|exact Ht]. }
      * apply Z.eqb_neq in Hliq. exists (Some tick). split.
        { intros fuel Hf. destruct fuel as [|fuel]; [lia|].
          cbn [nextInitializedTick_up].
          rewrite Hoff, Hidx. apply Z.eqb_neq in Hliq. rewrite Hliq.
          reflexivity. }
        exists offset. split; [lia|]. split; [exact Hidx|].
        split; [exact Hliq|]. intros j t Hj. lia.
    + exists r. split.
      { intros fuel Hf. destruct fuel as [|fuel]; [lia|].
        cbn [nextInitializedTick_up]. rewrite Hoff, Hidx. apply Hrun. lia. }
      destruct r as [found|].
      { destruct Hr as (i & Hi & Hfound & Hnz & Hclear).
        exists i. split; [lia|]. split; [exact Hfound|]. split; [exact Hnz|].
        intros j t Hj Ht. destruct (Z.eq_dec j offset) as [->|Hne].
        - congruence.
        - apply (Hclear j t); [lia|exact Ht]. }
      { intros j t Hj Ht. destruct (Z.eq_dec j offset) as [->|Hne].
        - congruence.
        - apply (Hr j t); [lia|exact Ht]. }
  - exists None. split.
    + intros fuel Hf. destruct fuel as [|fuel]; [lia|].
      cbn [nextInitializedTick_up]. rewrite Hoff. reflexivity.
    + apply Z.ltb_ge in Hoff. intros j t Hj Ht.
      apply js_index_Some_lt in Ht. lia.
Qed.

(** X8.  [nextInitializedTick] returns [null] at once when the array it
  is given is not the array of the current tick.  Otherwise it ends
  within [ticks.length + 122] rounds of its loop and returns the nearest
  entry of the array with a non-zero [liquidity_gross]: going down
  ([zeroForOne]) the one with the highest index at or below the offset of
  the current tick, going up the one with the lowest index above that
  offset; it returns [null] exactly when no entry on that side holds
  liquidity. *)
Theorem nextInitializedTick_nearest
    (currentTickIndex tickSpacing : Z) (zeroForOne : bool)
    (tickArrayCurrent : TickArray) :
  0 < tickSpacing ->
  let entries := ticks tickArrayCurrent in
  let offset :=
    (currentTickIndex - start_tick_index tickArrayCurrent) / tickSpacing in
  exists r,
    (forall fuel, (List.length entries + 122 <= fuel)%nat ->
       nextInitializedTick fuel currentTickIndex tickSpacing zeroForOne
         tickArrayCurrent = Some r)
    /\ (getArrayStartIndex currentTickIndex tickSpacing
          <> start_tick_index tickArrayCurrent -> r = None)
    /\ (getArrayStartIndex currentTickIndex tickSpacing
          = start_tick_index tickArrayCurrent ->
        match r with
        | Some tick =>
            exists i,
              js_index entries i = Some tick
              /\ liquidity_gross tick <> 0
              /\ (if zeroForOne
                  then 0 <= i <= offset
                       /\ forall j t, i < j <= offset ->
                            js_index entries j = Some t ->
                            liquidity_gross t = 0
                  else offset < i
                       /\ forall j t, offset < j < i ->
                            js_index entries j = Some t ->
                            liquidity_gross t = 0)
        | None =>
            forall j t,
              (if zeroForOne then 0 <= j <= offset else offset < j) ->
              js_index entries j = Some t -> liquidity_gross t = 0
        end).
Proof.
  intros Hs entries offset. unfold nextInitializedTick. cbv zeta.
  fold entries. fold offset.
  destruct (getArrayStartIndex currentTickIndex tickSpacing
            =? start_tick_index tickArrayCurrent) eqn:Hstart; cbn [negb].
  - apply Z.eqb_eq in Hstart.
    pose proof (getArrayStartIndex_below currentTickIndex tickSpacing Hs)
      as Hrange.
    rewrite Hstart in Hrange.
    assert (Hoff : 0 <= offset < 120).
    { unfold offset. split.
      - apply Z.div_pos; lia.
      - apply Z.div_lt_upper_bound; [lia|].
        unfold tickCount, TICK_ARRAY_SIZE in Hrange. lia. }
    destruct zeroForOne.
    + destruct (nextInitializedTick_down_spec entries
                  (List.length entries + 122) offset ltac:(lia) ltac:(lia))
        as (r & Hrun & Hr).
      exists r. split; [exact Hrun|]. split; [intros Hne; contradiction|].
      intros _. destruct r as [tick|].
      * destruct Hr as (i & Hi & Hfound & Hnz & Hclear).
        exists i. split; [exact Hfound|]. split; [exact Hnz|].
        split; [exact Hi|exact Hclear].
      * exact Hr.
    + destruct (nextInitializedTick_up_spec entries
                  (List.length entries + 122) (offset + 1) ltac:(lia)
                  ltac:(lia)) as (r & Hrun & Hr).
      exists r. split; [exact Hrun|]. split; [intros Hne; contradiction|].
      intros _. destruct r as [tick|].
      * destruct Hr as (i & Hi & Hfound & Hnz & Hclear).
        exists i. split; [exact Hfound|]. split; [exact Hnz|].
        split; [lia|]. intros j t Hj. apply Hclear. lia.
      * intros j t Hj. apply Hr. lia.
  - apply Z.eqb_neq in Hstart. exists None.
    split; [reflexivity|]. split; [reflexivity|]. intros Heq. contradiction.
Qed.

Lemma nextInitializedTick_nearest_witness :
  0 < 1
  /\ exists r,
       forall fuel, (2 + 122 <= fuel)%nat ->
         nextInitializedTick fuel 125 1 true
           {| start_tick_index := 120;
              ticks := [ {| liquidity_gross := 7 |};
                         {| liquidity_gross := 0 |} ] |}
         = Some r.
Proof.
  split; [lia|].
  destruct (nextInitializedTick_nearest 125 1 true
              {| start_tick_index := 120;
                 ticks := [ {| liquidity_gross := 7 |};
                            {| liquidity_gross := 0 |} ] |} ltac:(lia))
    as (r & Hrun & _).
  exists r. exact Hrun.
Defined.

End NextTickFacts.

End TickArrayMoreFacts.

(** ** The other swap instructions *)

Section MoreSwapInstructionFacts.
Import PoolUtils.
Import SwapInstructions.

Lemma to_bytes_le_8_value (v : Z) :
  0 <= v < 2 ^ 53 -> BN.of_bytes_le (BN.to_bytes_le 8 v) = v.
Proof.
  intros Hv. rewrite of_to_bytes_le by lia.
  apply Z.mod_small. change (256 ^ Z.of_nat 8) with (2 ^ 64). lia.
Qed.

Lemma packU64_ok (v : Z) : 0 <= v < 2 ^ 53 -> packU64 v = Ret (BN.to_bytes_le 8 v).
Proof.
  intros [Hlo Hhi]. rewrite packU64_spec.
  apply Z.leb_le in Hlo. apply Z.ltb_lt in Hhi. rewrite Hlo, Hhi. reflexivity.
Qed.

Lemma packU64_Ret (v : Z) (b : Buffer) :
  packU64 v = Ret b -> 0 <= v < 2 ^ 53 /\ b = BN.to_bytes_le 8 v.
Proof.
  rewrite packU64_spec.
  destruct (0 <=? v) eqn:Hlo; destruct (v <? 2 ^ 53) eqn:Hhi;
    cbn [andb]; try discriminate.
  intros Heq. apply Z.leb_le in Hlo. apply Z.ltb_lt in Hhi.
  split; [lia|]. inversion Heq. reflexivity.
Qed.

(** X9.  [makeAmmV4SwapInstruction] builds an instruction exactly when both
  amounts are integers from 0 to 2^53 - 1, and throws otherwise.  The
  instruction goes to the AMM v4 program; its data are 17 bytes: the tag
  9, then the amount in and the minimum amount out, 8 little-endian bytes
  each, and both amounts read back from those bytes unchanged.  It names
  18 accounts, the owner last and the only signer. *)
Theorem makeAmmV4SwapInstruction_wire (amountIn minimumAmountOut : Z)
    (tokenAccountIn tokenAccountOut : PublicKey) (poolKeys : AmmV4PoolKeys)
    (owner : PublicKey) :
  (forall ix,
      makeAmmV4SwapInstruction amountIn minimumAmountOut tokenAccountIn
        tokenAccountOut poolKeys owner = Ret ix ->
      data ix = [Byte.x09] ++ BN.to_bytes_le 8 amountIn
                  ++ BN.to_bytes_le 8 minimumAmountOut
      /\ List.length (data ix) = 17%nat
      /\ BN.of_bytes_le (slice (data ix) 1 9) = amountIn
      /\ BN.of_bytes_le (slice (data ix) 9 17) = minimumAmountOut
      /\ List.length (keys ix) = 18%nat
      /\ map isSigner (keys ix) = repeat false 17 ++ [true]
      /\ nth_error (keys ix) 17
         = Some {| pubkey := owner; isSigner := true; isWritable := false |}
      /\ programId ix = RAYDIUM_AMM_V4)
  /\ ((exists ix,
         makeAmmV4SwapInstruction amountIn minimumAmountOut tokenAccountIn
           tokenAccountOut poolKeys owner = Ret ix)
      <-> 0 <= amountIn < 2 ^ 53 /\ 0 <= minimumAmountOut < 2 ^ 53).
Proof.
  unfold makeAmmV4SwapInstruction. split.
  - intros ix Hix.
    destruct (packU64 amountIn) as [a|] eqn:Ha; cbn [js_bind] in Hix;
      [|discriminate].
    destruct (packU64 minimumAmountOut) as [m|] eqn:Hm; cbn [js_bind] in Hix;
      [|discriminate].
    apply packU64_Ret in Ha, Hm. destruct Ha as [Hain ->], Hm as [Hmin ->].
    pose proof (to_bytes_le_8_value amountIn Hain) as Hva.
    pose proof (to_bytes_le_8_value minimumAmountOut Hmin) as Hvm.
    pose proof (to_bytes_le_length 8 amountIn) as Hla.
    pose proof (to_bytes_le_length 8 minimumAmountOut) as Hlm.
    remember (BN.to_bytes_le 8 amountIn) as a eqn:Ea. clear Ea.
    remember (BN.to_bytes_le 8 minimumAmountOut) as m eqn:Em. clear Em.
    destruct a as [|a0 [|a1 [|a2 [|a3 [|a4 [|a5 [|a6 [|a7 [|a8 la]]]]]]]]];
      try discriminate Hla.
    destruct m as [|m0 [|m1 [|m2 [|m3 [|m4 [|m5 [|m6 [|m7 [|m8 lm]]]]]]]]];
      try discriminate Hlm.
    injection Hix as Hix. subst ix. cbn [data keys programId].
    repeat split; try reflexivity; assumption.
  - split.
    + intros [ix Hix].
      destruct (packU64 amountIn) as [a|] eqn:Ha; cbn [js_bind] in Hix;
        [|discriminate].
      destruct (packU64 minimumAmountOut) as [m|] eqn:Hm; cbn [js_bind] in Hix;
        [|discriminate].
      apply packU64_Ret in Ha, Hm. tauto.
    + intros [Ha Hm]. rewrite (packU64_ok _ Ha), (packU64_ok _ Hm).
      cbn [js_bind]. eexists. reflexivity.
Qed.

(** X10.  [makeCpmmSwapInstruction] builds an instruction exactly when both
  amounts are integers from 0 to 2^53 - 1.  Its data are 24 bytes: the
  discriminator 8fbe5adac41e33de, then the two amounts, 8 little-endian
  bytes each, whatever the direction.  It names 13 accounts, the owner
  first and the only signer.  The direction only decides which side of
  the pool is the input: selling is buying on the same pool with its
  token 0 and token 1 exchanged. *)
Theorem makeCpmmSwapInstruction_wire (amountIn minimumAmountOut : Z)
    (tokenAccountIn tokenAccountOut : PublicKey) (poolKeys : CpmmPoolKeys)
    (owner : PublicKey) (action : Direction) :
  (forall ix,
      makeCpmmSwapInstruction amountIn minimumAmountOut tokenAccountIn
        tokenAccountOut poolKeys owner action = Ret ix ->
      data ix = [Byte.x8f; Byte.xbe; Byte.x5a; Byte.xda;
                 Byte.xc4; Byte.x1e; Byte.x33; Byte.xde]
                ++ BN.to_bytes_le 8 amountIn
                ++ BN.to_bytes_le 8 minimumAmountOut
      /\ List.length (data ix) = 24%nat
      /\ BN.of_bytes_le (slice (data ix) 8 16) = amountIn
      /\ BN.of_bytes_le (slice (data ix) 16 24) = minimumAmountOut
      /\ List.length (keys ix) = 13%nat
      /\ map isSigner (keys ix) = true :: repeat false 12
      /\ nth_error (keys ix) 0
         = Some {| pubkey := owner; isSigner := true; isWritable := true |}
      /\ programId ix = RAYDIUM_CPMM)
  /\ ((exists ix,
         makeCpmmSwapInstruction amountIn minimumAmountOut tokenAccountIn
           tokenAccountOut poolKeys owner action = Ret ix)
      <-> 0 <= amountIn < 2 ^ 53 /\ 0 <= minimumAmountOut < 2 ^ 53)
  /\ makeCpmmSwapInstruction amountIn minimumAmountOut tokenAccountIn
       tokenAccountOut poolKeys owner action
     = makeCpmmSwapInstruction amountIn minimumAmountOut tokenAccountIn
         tokenAccountOut (mirrorCpmm poolKeys) owner (otherDirection action).
Proof.
  unfold makeCpmmSwapInstruction. split; [|split].
  - intros ix Hix.
    destruct (packU64 amountIn) as [a|] eqn:Ha;
      [|destruct action; discriminate Hix].
    destruct (packU64 minimumAmountOut) as [m|] eqn:Hm;
      [|destruct action; discriminate Hix].
    apply packU64_Ret in Ha, Hm. destruct Ha as [Hain ->], Hm as [Hmin ->].
    pose proof (to_bytes_le_8_value amountIn Hain) as Hva.
    pose proof (to_bytes_le_8_value minimumAmountOut Hmin) as Hvm.
    pose proof (to_bytes_le_length 8 amountIn) as Hla.
    pose proof (to_bytes_le_length 8 minimumAmountOut) as Hlm.
    remember (BN.to_bytes_le 8 amountIn) as a eqn:Ea. clear Ea.
    remember (BN.to_bytes_le 8 minimumAmountOut) as m eqn:Em. clear Em.
    destruct a as [|a0 [|a1 [|a2 [|a3 [|a4 [|a5 [|a6 [|a7 [|a8 la]]]]]]]]];
      try discriminate Hla.
    destruct m as [|m0 [|m1 [|m2 [|m3 [|m4 [|m5 [|m6 [|m7 [|m8 lm]]]]]]]]];
      try discriminate Hlm.
    destruct action; cbn in Hix; injection Hix as Hix; subst ix;
      cbn [data keys programId];
      repeat split; try reflexivity; assumption.
  - split.
    + intros [ix Hix].
      destruct (packU64 amountIn) as [a|] eqn:Ha;
        [|destruct action; discriminate Hix].
      destruct (packU64 minimumAmountOut) as [m|] eqn:Hm;
        [|destruct action; discriminate Hix].
      apply packU64_Ret in Ha, Hm. tauto.
    + intros [Ha Hm]. rewrite (packU64_ok _ Ha), (packU64_ok _ Hm).
      destruct action; cbn [js_bind]; eexists; reflexivity.
  - destruct poolKeys, action; reflexivity.
Qed.

(** X11.  For the concentrated-liquidity instruction too the direction only
  decides which side of the pool is the input: selling is buying on the
  same pool with its token 0 and token 1 vaults and mints exchanged, and
  the two directions differ in nothing but the accounts at positions 5,
  6, 11 and 12, which trade places pairwise. *)
Theorem makeClmmSwapInstruction_direction (amount : Z)
    (tokenAccountIn tokenAccountOut : PublicKey) (poolKeys : ClmmPoolKeys)
    (payer : PublicKey) (action : Direction) :
  makeClmmSwapInstruction amount tokenAccountIn tokenAccountOut poolKeys
    payer action
  = makeClmmSwapInstruction amount tokenAccountIn tokenAccountOut
      (mirrorClmm poolKeys) payer (otherDirection action)
  /\ forall buyIx sellIx,
       makeClmmSwapInstruction amount tokenAccountIn tokenAccountOut poolKeys
         payer BUY = Ret buyIx ->
       makeClmmSwapInstruction amount tokenAccountIn tokenAccountOut poolKeys
         payer SELL = Ret sellIx ->
       data sellIx = data buyIx
       /\ programId sellIx = programId buyIx
       /\ nth_error (keys sellIx) 5 = nth_error (keys buyIx) 6
       /\ nth_error (keys sellIx) 6 = nth_error (keys buyIx) 5
       /\ nth_error (keys sellIx) 11 = nth_error (keys buyIx) 12
       /\ nth_error (keys sellIx) 12 = nth_error (keys buyIx) 11
       /\ forall i, i <> 5%nat -> i <> 6%nat -> i <> 11%nat -> i <> 12%nat ->
            nth_error (keys sellIx) i = nth_error (keys buyIx) i.
Proof.
  split.
  - destruct poolKeys, action; reflexivity.
  - intros buyIx sellIx. unfold makeClmmSwapInstruction.
    destruct (packU64 amount) as [a|]; cbn [js_bind]; [|discriminate].
    destruct (packU64 0) as [z|]; cbn [js_bind]; [|discriminate].
    intros Hb Hs. injection Hb as Hb. injection Hs as Hs. subst buyIx sellIx.
    cbn [data keys programId].
    repeat split; try reflexivity.
    intros i H5 H6 H11 H12.
    do 17 (destruct i as [|i]; [try reflexivity; congruence|]).
    reflexivity.
Qed.

(** X12.  [packUint64LE], the packer of the bonding-curve engine, never
  throws: it always gives 8 bytes, the little-endian form of the number
  modulo 2^64, so a negative number is silently wrapped (-1 gives eight
  ff bytes).  Wherever the guarded [packU64] of the pool utilities gives
  bytes, the two packers give the same bytes. *)
Theorem packUint64LE_wraps (num : Z) :
  List.length (packUint64LE num) = 8%nat
  /\ BN.of_bytes_le (packUint64LE num) = num mod 2 ^ 64
  /\ (forall bytes, packU64 num = Ret bytes -> bytes = packUint64LE num)
  /\ packUint64LE (-1) = repeat Byte.xff 8.
Proof.
  unfold packUint64LE.
  pose proof (Z.mod_pos_bound num (2 ^ 64) ltac:(lia)) as Hm.
  split; [apply to_bytes_le_length|]. split.
  - rewrite of_to_bytes_le by lia.
    change (256 ^ Z.of_nat 8) with (2 ^ 64). apply Z.mod_mod. lia.
  - split; [|reflexivity].
    intros bytes Hp. apply packU64_Ret in Hp. destruct Hp as [Hr ->].
    rewrite Z.mod_small by lia. reflexivity.
Qed.

End MoreSwapInstructionFacts.

(** ** The parser of the bitmap extension account *)

Section BitmapExtensionFacts.
Import BitmapExtension.

Lemma byte_to_Z_range (b : Byte.byte) : 0 <= byte_to_Z b < 256.
Proof.
  unfold byte_to_Z. pose proof (Byte.to_N_bounded b) as Hb. lia.
Qed.

Lemma of_bytes_le_range (bytes : Buffer) :
  0 <= BN.of_bytes_le bytes < 256 ^ Z.of_nat (List.length bytes).
Proof.
  induction bytes as [|b rest IH].
  - cbn. lia.
  - cbn [BN.of_bytes_le List.length].
    rewrite Nat2Z.inj_succ, Z.pow_succ_r by lia.
    pose proof (byte_to_Z_range b). lia.
Qed.

Lemma slice_length (buffer : Buffer) (start stop : nat) :
  (stop <= List.length buffer)%nat ->
  List.length (slice buffer start stop) = (stop - start)%nat.
Proof.
  intros H. unfold slice. rewrite length_firstn, length_skipn. lia.
Qed.

Lemma wordAt_u64 (buffer : Buffer) (offset : nat) :
  u64 (wordAt buffer offset).
Proof.
  unfold u64, wordAt.
  pose proof (of_bytes_le_range (slice buffer offset (offset + 8))) as Hr.
  assert (Hlen : (List.length (slice buffer offset (offset + 8)) <= 8)%nat).
  { unfold slice. rewrite length_firstn. lia. }
  assert (Hpow : 256 ^ Z.of_nat (List.length (slice buffer offset (offset + 8)))
                 <= 256 ^ 8)
    by (apply Z.pow_le_mono_r; lia).
  change (256 ^ 8) with (2 ^ 64) in Hpow. lia.
Qed.

Lemma parseInt64Array8_loop_spec (view : Buffer) (count : nat) :
  forall offset arr,
    parseInt64Array8_loop count view offset arr
    = if (count =? 0)%nat || (offset + 8 * count <=? List.length view)%nat
      then Ret (arr ++ wordsFrom view offset count, (offset + 8 * count)%nat)
      else Throw.
Proof.
  induction count as [|count IH]; intros offset arr.
  - cbn. rewrite app_nil_r, Nat.add_0_r. reflexivity.
  - cbn [parseInt64Array8_loop Nat.eqb orb]. unfold getBigUint64_le.
    destruct (List.length view <? offset + 8)%nat eqn:Hlt.
    + apply Nat.ltb_lt in Hlt. cbn [js_bind].
      destruct (offset + 8 * S count <=? List.length view)%nat eqn:Hle;
        [apply Nat.leb_le in Hle; lia|reflexivity].
    + apply Nat.ltb_ge in Hlt. cbn [js_bind]. rewrite IH.
      replace (offset + 8 + 8 * count)%nat with (offset + 8 * S count)%nat by lia.
      destruct (offset + 8 * S count <=? List.length view)%nat eqn:Hle.
      * rewrite orb_true_r. rewrite <- app_assoc. do 3 f_equal.
        unfold wordsFrom. cbn [seq map app]. rewrite Nat.mul_0_r, Nat.add_0_r.
        f_equal. fold (wordAt view offset). 
        rewrite <- seq_shift, map_map. apply map_ext. intros k.
        f_equal. lia.
      * rewrite orb_false_r. destruct count as [|count]; [|reflexivity].
        apply Nat.leb_gt in Hle. lia.
Qed.

Lemma parseBitmaps_loop_spec (view : Buffer) (count : nat) :
  forall offset bitmaps,
    parseBitmaps_loop count view offset bitmaps
    = if (count =? 0)%nat || (offset + 64 * count <=? List.length view)%nat
      then Ret (bitmaps ++ segmentsFrom view offset count,
                (offset + 64 * count)%nat)
      else Throw.
Proof.
  induction count as [|count IH]; intros offset bitmaps.
  - cbn. rewrite app_nil_r, Nat.add_0_r. reflexivity.
  - cbn [parseBitmaps_loop Nat.eqb orb]. unfold parseInt64Array8.
    rewrite parseInt64Array8_loop_spec. cbn [Nat.eqb orb app].
    change (8 * 8)%nat with 64%nat.
    destruct (offset + 64 <=? List.length view)%nat eqn:Hfirst.
    + apply Nat.leb_le in Hfirst. cbn [js_bind]. rewrite IH.
      replace (offset + 64 + 64 * count)%nat with (offset + 64 * S count)%nat
        by lia.
      destruct (offset + 64 * S count <=? List.length view)%nat eqn:Hle.
      * rewrite orb_true_r. rewrite <- app_assoc. do 3 f_equal.
        unfold segmentsFrom. cbn [seq map app].
        rewrite Nat.mul_0_r, Nat.add_0_r. f_equal.
        rewrite <- seq_shift, map_map. apply map_ext. intros k.
        f_equal. lia.
      * rewrite orb_false_r. destruct count as [|count]; [|reflexivity].
        apply Nat.leb_gt in Hle. lia.
    + apply Nat.leb_gt in Hfirst. cbn [js_bind].
      destruct (offset + 64 * S count <=? List.length view)%nat eqn:Hle;
        [apply Nat.leb_le in Hle; lia|reflexivity].
Qed.

Lemma segmentsFrom_shape (buffer : Buffer) (offset count : nat) :
  List.length (segmentsFrom buffer offset count) = count
  /\ Forall (fun segment => List.length segment = 8%nat
                            /\ Forall u64 segment)
            (segmentsFrom buffer offset count).
Proof.
  unfold segmentsFrom. split; [rewrite length_map, length_seq; reflexivity|].
  apply Forall_forall. intros segment Hin. apply in_map_iff in Hin.
  destruct Hin as (k & <- & _). unfold wordsFrom. split.
  - rewrite length_map, length_seq. reflexivity.
  - apply Forall_forall. intros w Hw. apply in_map_iff in Hw.
    destruct Hw as (j & <- & _). apply wordAt_u64.
Qed.

Lemma segmentsFrom_word (buffer : Buffer) (offset count i j : nat) :
  (i < count)%nat -> (j < 8)%nat ->
  nth j (nth i (segmentsFrom buffer offset count) []) 0
  = wordAt buffer (offset + 64 * i + 8 * j).
Proof.
  intros Hi Hj. unfold segmentsFrom.
  rewrite (nth_indep _ [] (wordsFrom buffer (offset + 64 * 0) 8))
    by (rewrite length_map, length_seq; exact Hi).
  rewrite (map_nth (fun k => wordsFrom buffer (offset + 64 * k) 8)
             (seq 0 count) 0%nat i).
  rewrite seq_nth by exact Hi. cbn [Nat.add]. unfold wordsFrom.
  rewrite (nth_indep _ 0 (wordAt buffer (offset + 64 * i + 8 * 0)))
    by (rewrite length_map, length_seq; exact Hj).
  rewrite (map_nth (fun k => wordAt buffer (offset + 64 * i + 8 * k))
             (seq 0 8) 0%nat j).
  rewrite seq_nth by exact Hj. reflexivity.
Qed.

(** X13.  [parseTickArrayBitmapExtension] succeeds exactly on a buffer of
  at least 1832 bytes (8 of padding, 32 of pool id, 2 x 14 x 8 words of 8
  bytes) and throws on a shorter one.  What it returns is the pool id
  taken from bytes 8 to 39 and two lists of exactly 14 segments of
  exactly 8 unsigned 64-bit words: word [j] of positive segment [i] is
  the little-endian value of the 8 bytes at [40 + 64 i + 8 j], the one of
  negative segment [i] that of the 8 bytes at [936 + 64 i + 8 j]. *)
Theorem parseTickArrayBitmapExtension_layout (buffer : Buffer) :
  ((exists ext, parseTickArrayBitmapExtension buffer = Ret ext)
   <-> (1832 <= List.length buffer)%nat)
  /\ ((List.length buffer < 1832)%nat ->
      parseTickArrayBitmapExtension buffer = Throw)
  /\ forall ext,
       parseTickArrayBitmapExtension buffer = Ret ext ->
       poolId ext = slice buffer 8 40
       /\ List.length (poolId ext) = 32%nat
       /\ List.length (positiveTickArrayBitmap ext) = 14%nat
       /\ List.length (negativeTickArrayBitmap ext) = 14%nat
       /\ Forall (fun segment => List.length segment = 8%nat
                                 /\ Forall u64 segment)
                 (positiveTickArrayBitmap ext ++ negativeTickArrayBitmap ext)
       /\ forall i j, (i < 14)%nat -> (j < 8)%nat ->
            nth j (nth i (positiveTickArrayBitmap ext) []) 0
            = wordAt buffer (40 + 64 * i + 8 * j)
            /\ nth j (nth i (negativeTickArrayBitmap ext) []) 0
               = wordAt buffer (936 + 64 * i + 8 * j).
Proof.
  assert (Hrun : parseTickArrayBitmapExtension buffer
                 = if (1832 <=? List.length buffer)%nat
                   then Ret {| poolId := slice buffer 8 40;
                               positiveTickArrayBitmap :=
                                 segmentsFrom buffer 40 14;
                               negativeTickArrayBitmap :=
                                 segmentsFrom buffer 936 14 |}
                   else Throw).
  { unfold parseTickArrayBitmapExtension, Uint8Array_view,
      EXTENSION_TICKARRAY_BITMAP_SIZE. cbv zeta.
    change (0 + 8)%nat with 8%nat. change (8 + 32)%nat with 40%nat.
    destruct (1832 <=? List.length buffer)%nat eqn:Hlen.
    - apply Nat.leb_le in Hlen.
      assert (H40 : (List.length buffer <? 40)%nat = false)
        by (apply Nat.ltb_ge; lia).
      rewrite H40. cbn [js_bind]. rewrite !parseBitmaps_loop_spec.
      change (14 =? 0)%nat with false. cbn [orb].
      change (40 + 64 * 14)%nat with 936%nat.
      assert (H936 : (936 <=? List.length buffer)%nat = true)
        by (apply Nat.leb_le; lia).
      rewrite H936. cbn [js_bind]. rewrite parseBitmaps_loop_spec.
      change (14 =? 0)%nat with false. cbn [orb].
      change (936 + 64 * 14)%nat with 1832%nat.
      assert (H1832 : (1832 <=? List.length buffer)%nat = true)
        by (apply Nat.leb_le; lia).
      rewrite H1832. reflexivity.
    - apply Nat.leb_gt in Hlen.
      destruct (List.length buffer <? 40)%nat; [reflexivity|].
      cbn [js_bind]. rewrite parseBitmaps_loop_spec.
      change (14 =? 0)%nat with false. cbn [orb].
      change (40 + 64 * 14)%nat with 936%nat.
      destruct (936 <=? List.length buffer)%nat; [|reflexivity].
      cbn [js_bind]. rewrite parseBitmaps_loop_spec.
      change (14 =? 0)%nat with false. cbn [orb].
      change (936 + 64 * 14)%nat with 1832%nat.
      assert (H1832 : (1832 <=? List.length buffer)%nat = false)
        by (apply Nat.leb_gt; lia).
      rewrite H1832. reflexivity. }
  rewrite Hrun.
  destruct (1832 <=? List.length buffer)%nat eqn:Hlen.
  - apply Nat.leb_le in Hlen. split; [|split].
    + split; [intros _; exact Hlen|]. intros _. eexists. reflexivity.
    + intros Hshort. lia.
    + intros ext Hext. injection Hext as <-.
      cbn [poolId positiveTickArrayBitmap negativeTickArrayBitmap].
      destruct (segmentsFrom_shape buffer 40 14) as [Hpl Hps].
      destruct (segmentsFrom_shape buffer 936 14) as [Hnl Hns].
      split; [reflexivity|]. split; [apply slice_length; lia|].
      split; [exact Hpl|]. split; [exact Hnl|].
      split; [apply Forall_app; split; assumption|].
      intros i j Hi Hj. split; apply segmentsFrom_word; assumption.
  - apply Nat.leb_gt in Hlen. split; [|split].
    + split; [intros [ext Hext]; discriminate|]. intros Hge. lia.
    + intros _. reflexivity.
    + intros ext Hext. discriminate.
Qed.

End BitmapExtensionFacts.

(** ** More on the 128-bit codec *)

Section MoreUInt128Facts.
Import UInt128.

Lemma byte_of_to_Z (b : Byte.byte) (r : Z) :
  byte_of_Z (byte_to_Z b + 256 * r) = b.
Proof.
  unfold byte_of_Z. pose proof (byte_to_Z_range b) as Hb.
  replace ((byte_to_Z b + 256 * r) mod 256) with (byte_to_Z b).
  - unfold byte_to_Z. rewrite N2Z.id, Byte.of_to_N. reflexivity.
  - replace (byte_to_Z b + 256 * r) with (byte_to_Z b + r * 256) by lia.
    rewrite Z.mod_add by lia. symmetry. apply Z.mod_small. exact Hb.
Qed.

Lemma to_of_bytes_le (bytes : Buffer) :
  BN.to_bytes_le (List.length bytes) (BN.of_bytes_le bytes) = bytes.
Proof.
  induction bytes as [|b rest IH]; [reflexivity|].
  cbn [List.length BN.to_bytes_le BN.of_bytes_le].
  rewrite byte_of_to_Z. f_equal.
  pose proof (byte_to_Z_range b) as Hb.
  replace ((byte_to_Z b + 256 * BN.of_bytes_le rest) / 256)
    with (BN.of_bytes_le rest); [exact IH|].
  replace (byte_to_Z b + 256 * BN.of_bytes_le rest)
    with (byte_to_Z b + BN.of_bytes_le rest * 256) by lia.
  rewrite Z.div_add by lia.
  rewrite (Z.div_small (byte_to_Z b)) by exact Hb. lia.
Qed.

Lemma word_of_slice (buffer : Buffer) (start : nat) :
  (start + 8 <= List.length buffer)%nat ->
  0 <= BN.of_bytes_le (slice buffer start (start + 8)) < 2 ^ 64
  /\ BN.to_bytes_le 8 (BN.of_bytes_le (slice buffer start (start + 8)))
     = slice buffer start (start + 8).
Proof.
  intros Hlen.
  pose proof (slice_length buffer start (start + 8) Hlen) as Hl.
  replace (start + 8 - start)%nat with 8%nat in Hl by lia.
  pose proof (of_bytes_le_range (slice buffer start (start + 8))) as Hr.
  rewrite Hl in Hr. change (256 ^ Z.of_nat 8) with (2 ^ 64) in Hr.
  split; [exact Hr|]. rewrite <- Hl at 1. apply to_of_bytes_le.
Qed.

(** X14.  Encoding is the inverse of decoding on the wire format: for
  every buffer of exactly 16 bytes, [encodeUInt128 (decodeUInt128 buffer)]
  succeeds and gives the same 16 bytes back, and the decoded number is in
  the 128-bit range. *)
Theorem encode_decode_UInt128 (buffer : Buffer) :
  List.length buffer = 16%nat ->
  0 <= decodeUInt128 buffer < 2 ^ 128
  /\ encodeUInt128 (decodeUInt128 buffer) = Ret buffer.
Proof.
  intros Hlen.
  destruct (word_of_slice buffer 0 ltac:(lia)) as [Hlow Hlowb].
  destruct (word_of_slice buffer 8 ltac:(lia)) as [Hhigh Hhighb].
  change (0 + 8)%nat with 8%nat in *. change (8 + 8)%nat with 16%nat in *.
  assert (Hcat : slice buffer 0 8 ++ slice buffer 8 16 = buffer).
  { unfold slice. change (8 - 0)%nat with 8%nat.
    change (16 - 8)%nat with 8%nat. change (skipn 0 buffer) with buffer.
    rewrite (firstn_all2 (n := 8) (skipn 8 buffer))
      by (rewrite length_skipn; lia).
    apply firstn_skipn. }
  unfold decodeUInt128, BN.add, BN.shln.
  rewrite Z.shiftl_mul_pow2 by lia.
  remember (BN.of_bytes_le (slice buffer 0 8)) as low eqn:El.
  remember (BN.of_bytes_le (slice buffer 8 16)) as high eqn:Eh.
  assert (Hmod : (high * 2 ^ 64 + low) mod 2 ^ 64 = low).
  { rewrite Z.add_comm, Z.mod_add by lia. apply Z.mod_small. exact Hlow. }
  assert (Hdiv : (high * 2 ^ 64 + low) / 2 ^ 64 = high).
  { rewrite Z.add_comm, Z.div_add by lia.
    rewrite (Z.div_small low) by exact Hlow. lia. }
  split.
  - change (2 ^ 128) with (2 ^ 64 * 2 ^ 64). nia.
  - unfold encodeUInt128, BN.maskn, BN.shrn.
    destruct (high * 2 ^ 64 + low <? 0) eqn:Hneg;
      [apply Z.ltb_lt in Hneg; nia|].
    cbn [js_bind]. rewrite Z.land_ones by lia. rewrite Hmod.
    rewrite (toArrayLike_le_fits low 8 ltac:(lia))
      by (change (256 ^ Z.of_nat 8) with (2 ^ 64); exact Hlow).
    cbn [js_bind]. rewrite Z.shiftr_div_pow2 by lia. rewrite Hdiv.
    rewrite (toArrayLike_le_fits high 8 ltac:(lia))
      by (change (256 ^ Z.of_nat 8) with (2 ^ 64); exact Hhigh).
    cbn [js_bind]. rewrite Hlowb, Hhighb, Hcat. reflexivity.
Qed.

Lemma encode_decode_UInt128_witness :
  List.length (repeat Byte.xa5 16) = 16%nat
  /\ 0 <= decodeUInt128 (repeat Byte.xa5 16) < 2 ^ 128
  /\ encodeUInt128 (decodeUInt128 (repeat Byte.xa5 16))
     = Ret (repeat Byte.xa5 16).
Proof.
  split; [reflexivity|].
  apply (encode_decode_UInt128 (repeat Byte.xa5 16)). reflexivity.
Defined.

Lemma byteLength_over (n : Z) (len : nat) :
  256 ^ Z.of_nat len <= n -> Z.of_nat len < BN.byteLength n.
Proof.
  intros Hn.
  assert (Hpos : 0 < 256 ^ Z.of_nat len) by (apply Z.pow_pos_nonneg; lia).
  unfold BN.byteLength.
  destruct (n =? 0) eqn:Hz; [apply Z.eqb_eq in Hz; lia|].
  rewrite Z.abs_eq by lia.
  assert (Hlog : 8 * Z.of_nat len <= Z.log2 n).
  { apply Z.log2_le_pow2; [lia|].
    replace (2 ^ (8 * Z.of_nat len)) with (256 ^ Z.of_nat len); [exact Hn|].
    change 256 with (2 ^ 8). rewrite <- Z.pow_mul_r by lia. reflexivity. }
  assert (Z.of_nat len <= Z.log2 n / 8)
    by (apply Z.div_le_lower_bound; lia).
  lia.
Qed.

(** X15.  [encodeUInt128] gives bytes exactly for the numbers of the
  128-bit range: it throws on a negative number (bn.js refuses to mask
  one) and on every number from 2^128 on (the high word no longer fits
  the 8 bytes asked for), so it never truncates silently; and what it
  gives is always 16 bytes long. *)
Theorem encodeUInt128_range (n : Z) :
  ((exists buffer, encodeUInt128 n = Ret buffer) <-> 0 <= n < 2 ^ 128)
  /\ (n < 0 \/ 2 ^ 128 <= n -> encodeUInt128 n = Throw)
  /\ forall buffer, encodeUInt128 n = Ret buffer ->
       List.length buffer = 16%nat.
Proof.
  assert (Hrun : encodeUInt128 n
                 = if (0 <=? n) && (n <? 2 ^ 128)
                   then Ret (BN.to_bytes_le 8 (n mod 2 ^ 64)
                             ++ BN.to_bytes_le 8 (n / 2 ^ 64))
                   else Throw).
  { unfold encodeUInt128, BN.maskn, BN.shrn.
    destruct (n <? 0) eqn:Hneg.
    - apply Z.ltb_lt in Hneg.
      assert (H0 : (0 <=? n) = false) by (apply Z.leb_gt; lia).
      rewrite H0. reflexivity.
    - apply Z.ltb_ge in Hneg.
      assert (H0 : (0 <=? n) = true) by (apply Z.leb_le; lia).
      rewrite H0. cbn [js_bind andb].
      rewrite Z.land_ones by lia.
      pose proof (Z.mod_pos_bound n (2 ^ 64) ltac:(lia)) as Hlow.
      rewrite (toArrayLike_le_fits _ 8 ltac:(lia))
        by (change (256 ^ Z.of_nat 8) with (2 ^ 64); exact Hlow).
      cbn [js_bind]. rewrite Z.shiftr_div_pow2 by lia.
      destruct (n <? 2 ^ 128) eqn:Hhi.
      + apply Z.ltb_lt in Hhi.
        rewrite (toArrayLike_le_fits _ 8 ltac:(lia)); [reflexivity|].
        change (256 ^ Z.of_nat 8) with (2 ^ 64). split.
        * apply Z.div_pos; lia.
        * apply Z.div_lt_upper_bound; [lia|].
          change (2 ^ 64 * 2 ^ 64) with (2 ^ 128). exact Hhi.
      + apply Z.ltb_ge in Hhi.
        assert (Hq : 256 ^ Z.of_nat 8 <= n / 2 ^ 64).
        { change (256 ^ Z.of_nat 8) with (2 ^ 64).
          apply Z.div_le_lower_bound; [lia|].
          change (2 ^ 64 * 2 ^ 64) with (2 ^ 128). exact Hhi. }
        apply byteLength_over in Hq.
        unfold BN.toArrayLike_le.
        assert (Hle : (BN.byteLength (n / 2 ^ 64) <=? Z.of_nat 8) = false)
          by (apply Z.leb_gt; exact Hq).
        rewrite Hle. reflexivity. }
  rewrite Hrun.
  destruct (0 <=? n) eqn:Hlo; destruct (n <? 2 ^ 128) eqn:Hhi; cbn [andb];
    [apply Z.leb_le in Hlo | apply Z.leb_le in Hlo
    |apply Z.leb_gt in Hlo | apply Z.leb_gt in Hlo];
    [apply Z.ltb_lt in Hhi | apply Z.ltb_ge in Hhi
    |apply Z.ltb_lt in Hhi | apply Z.ltb_ge in Hhi].
  - split; [|split].
    + split; [intros _; lia|]. intros _. eexists. reflexivity.
    + intros [H|H]; lia.
    + intros buffer Hb. apply Ret_inv in Hb. subst buffer.
      rewrite length_app, !to_bytes_le_length. reflexivity.
  - split; [|split]; [split; [intros [b Hb]; discriminate|lia]
                     |reflexivity|intros b Hb; discriminate].
  - split; [|split]; [split; [intros [b Hb]; discriminate|lia]
                     |reflexivity|intros b Hb; discriminate].
  - split; [|split]; [split; [intros [b Hb]; discriminate|lia]
                     |reflexivity|intros b Hb; discriminate].
Qed.

End MoreUInt128Facts.

(** ** More on transaction confirmation *)

Section MoreConfirmationFacts.
Import Confirmation.

(** Whatever the polls answer, the loop ends within the rounds that are
  left, and its outcome accounts for every poll made. *)
Lemma pollLoop_bounded (attempt : nat -> Triage) (maxRetries retryInterval : Z)
    (fuel : nat) :
  forall (retries : Z) (polls : nat) (waited : Z),
    (Z.to_nat (maxRetries - retries) < fuel)%nat ->
    exists out,
      pollLoop fuel attempt maxRetries retryInterval retries polls waited
      = Some out
      /\ (polls <= Confirmation.polls out)%nat
      /\ Z.of_nat (Confirmation.polls out - polls)
         <= Z.max 0 (maxRetries - retries)
      /\ (forall i, (polls <= i)%nat -> (S i < Confirmation.polls out)%nat ->
            attempt i = Retry)
      /\ match verdict out with
         | Some b =>
             (polls < Confirmation.polls out)%nat
             /\ attempt (Confirmation.polls out - 1)%nat
                = (if b then Confirmed else Failed)
             /\ Confirmation.waited out
                = waited
                  + Z.of_nat (Confirmation.polls out - polls - 1)
                    * retryInterval
         | None =>
             Confirmation.polls out
             = (polls + Z.to_nat (maxRetries - retries))%nat
             /\ (forall i, (polls <= i)%nat ->
                   (i < Confirmation.polls out)%nat -> attempt i = Retry)
             /\ Confirmation.waited out
                = waited
                  + Z.of_nat (Confirmation.polls out - polls) * retryInterval
         end.
Proof.
  induction fuel as [|fuel IH]; intros retries polls waited Hfuel; [lia|].
  cbn [pollLoop].
  destruct (retries <? maxRetries) eqn:Hlt.
  - apply Z.ltb_lt in Hlt.
    destruct (attempt polls) eqn:Hp.
    + eexists. split; [reflexivity|]. cbn [Confirmation.polls verdict
                                            Confirmation.waited].
      split; [lia|]. split; [lia|]. split; [intros i H1 H2; lia|].
      split; [lia|]. split.
      * replace (S polls - 1)%nat with polls by lia. exact Hp.
      * replace (S polls - polls - 1)%nat with 0%nat by lia. cbn. lia.
    + eexists. split; [reflexivity|]. cbn [Confirmation.polls verdict
                                            Confirmation.waited].
      split; [lia|]. split; [lia|]. split; [intros i H1 H2; lia|].
      split; [lia|]. split.
      * replace (S polls - 1)%nat with polls by lia. exact Hp.
      * replace (S polls - polls - 1)%nat with 0%nat by lia. cbn. lia.
    + destruct (IH (retries + 1) (S polls) (waited + retryInterval))
        as (out & Hrun & Hge & Hle & Hretry & Hv); [lia|].
      exists out. split; [exact Hrun|]. split; [lia|]. split; [lia|].
      split.
      * intros i H1 H2. destruct (Nat.eq_dec i polls) as [->|Hne];
          [exact Hp|]. apply Hretry; lia.
      * destruct (verdict out) as [b|].
        -- destruct Hv as (Hv1 & Hv2 & Hv3). split; [lia|].
           split; [exact Hv2|]. rewrite Hv3.
           replace (Z.of_nat (Confirmation.polls out - polls - 1))
             with (Z.of_nat (Confirmation.polls out - S polls - 1) + 1)
             by lia.
           lia.
        -- destruct Hv as (Hv1 & Hv2 & Hv3). split; [lia|]. split.
           ++ intros i H1 H2. destruct (Nat.eq_dec i polls) as [->|Hne];
                [exact Hp|]. apply Hv2; lia.
           ++ rewrite Hv3.
              replace (Z.of_nat (Confirmation.polls out - polls))
                with (Z.of_nat (Confirmation.polls out - S polls) + 1)
                by lia.
              lia.
  - apply Z.ltb_ge in Hlt. eexists. split; [reflexivity|].
    cbn [Confirmation.polls verdict Confirmation.waited].
    split; [lia|]. split; [lia|]. split; [intros i H1 H2; lia|].
    split; [lia|]. split; [intros i H1 H2; lia|].
    replace (polls - polls)%nat with 0%nat by lia. cbn. lia.
Qed.

Variable TransactionError : Type.

(** X16.  Whatever the lookups answer or throw, and for every
  [maxRetries] and [retryInterval], [confirmTxn] of either bot ends
  (fuel for [maxRetries] rounds, at least one, is enough) after at most
  [maxRetries - 1] lookups, none at all when [maxRetries <= 1].  It
  returns [true] or [false] only on the lookup that found the
  transaction, every lookup before it having decided nothing and having
  been followed by one sleep of [retryInterval]; it returns [null] only
  after exactly [maxRetries - 1] undecided lookups, each followed by one
  sleep. *)
Theorem confirmTxn_always_ends (maxRetries retryInterval : Z) (fuel : nat) :
  (Z.to_nat (Z.max maxRetries 1) <= fuel)%nat ->
  let bounded (attempt : nat -> Triage) (out : Outcome) : Prop :=
    Z.of_nat (polls out) <= Z.max 0 (maxRetries - 1)
    /\ match verdict out with
       | Some b =>
           (0 < polls out)%nat
           /\ attempt (polls out - 1)%nat = (if b then Confirmed else Failed)
           /\ (forall i, (S i < polls out)%nat -> attempt i = Retry)
           /\ waited out = Z.of_nat (polls out - 1) * retryInterval
       | None =>
           polls out = Z.to_nat (maxRetries - 1)
           /\ (forall i, (i < polls out)%nat -> attempt i = Retry)
           /\ waited out = Z.of_nat (polls out) * retryInterval
       end in
  (forall getTransaction : nat -> js (option (Response TransactionError)),
      exists out,
        confirmTxn_raydium fuel getTransaction maxRetries retryInterval
        = Some out
        /\ bounded (fun k => triage_raydium (getTransaction k)) out)
  /\ (forall getTransaction
             : nat -> js (option (ParsedTransactionWithMeta TransactionError)),
      exists out,
        confirmTxn_pumpfun fuel getTransaction maxRetries retryInterval
        = Some out
        /\ bounded (fun k => triage_pumpfun (getTransaction k)) out).
Proof.
  intros Hfuel bounded.
  assert (Hgen : forall attempt, exists out,
             pollLoop fuel attempt maxRetries retryInterval 1 0 0 = Some out
             /\ bounded attempt out).
  { intros attempt.
    destruct (pollLoop_bounded attempt maxRetries retryInterval fuel 1 0%nat 0
                ltac:(lia)) as (out & Hrun & _ & Hle & Hretry & Hv).
    exists out. split; [exact Hrun|]. unfold bounded.
    rewrite Nat.sub_0_r in Hle. split; [exact Hle|].
    destruct (verdict out) as [b|].
    - destruct Hv as (Hv1 & Hv2 & Hv3). split; [exact Hv1|].
      split; [exact Hv2|]. split; [intros i Hi; apply Hretry; lia|].
      rewrite Hv3, Nat.sub_0_r. lia.
    - destruct Hv as (Hv1 & Hv2 & Hv3). split; [exact Hv1|].
      split; [intros i Hi; apply Hv2; lia|].
      rewrite Hv3, Nat.sub_0_r. lia. }
  split; intros getTransaction; apply Hgen.
Qed.
End MoreConfirmationFacts.

Lemma confirmTxn_always_ends_witness :
  (Z.to_nat (Z.max 3 1) <= 3)%nat
  /\ exists out,
       Confirmation.confirmTxn_pumpfun (TransactionError := string) 3
         (fun k => if Nat.eqb k 1
                   then Ret (Some {| Confirmation.meta :=
                                       Some {| Confirmation.err := None |} |})
                   else Throw)
         3 3000 = Some out
       /\ Z.of_nat (Confirmation.polls out) <= Z.max 0 (3 - 1).
Proof.
  split; [vm_compute; lia|].
  destruct (confirmTxn_always_ends string 3 3000 3 ltac:(vm_compute; lia))
    as [_ Hpump].
  destruct (Hpump (fun k => if Nat.eqb k 1
                   then Ret (Some {| Confirmation.meta :=
                                       Some {| Confirmation.err := None |} |})
                   else Throw)) as (out & Hrun & Hb & _).
  exists out. split; [exact Hrun|exact Hb].
Defined.

(** ** More on the pricing helpers *)

Section MorePricingFacts.
Import Double.
Local Open Scope Q_scope.

(** X17.  The sell quote of the AMM engines in double arithmetic.  For
  reserves and a token amount between 2^-200 and 2^200, with the default
  fee, [tokensForSol] of the classic engine and of the fee-vault engine
  return the same finite number, within [2^-49 * quoteReserve + 10^-9] of
  the exact constant-product amount [quoteReserve - baseReserve *
  quoteReserve / (baseReserve + tokenAmount * (1 - swapFee / 100))],
  which lies between 0 and the quote reserve. *)
Theorem amm_tokensForSol_accuracy (tokenAmount baseReserve quoteReserve : Q) :
  within 200 tokenAmount -> within 200 baseReserve ->
  within 200 quoteReserve ->
  let exact :=
    quoteReserve - baseReserve * quoteReserve
                   / (baseReserve + tokenAmount * (1 - default_swapFee / 100)) in
  0 <= exact <= quoteReserve
  /\ exists sol,
       AmmV4.tokensForSol tokenAmount baseReserve quoteReserve default_swapFee
       = Some sol
       /\ Cpmm.tokensForSol tokenAmount baseReserve quoteReserve
            default_swapFee = Some sol
       /\ Qabs (sol - exact) <= (1 # 2 ^ 49) * quoteReserve + (1 # 10 ^ 9).
Proof.
  intros Ha HB HS exact.
  pose proof (within_pos _ _ Ha) as Hapos.
  pose proof (within_pos _ _ HB) as HBpos.
  pose proof (within_pos _ _ HS) as HSpos.
  assert (Hg : 1 - default_swapFee / 100 == 399 # 400) by reflexivity.
  assert (Hden : 0 < baseReserve + tokenAmount * (1 - default_swapFee / 100)).
  { rewrite Hg. nra. }
  split.
  { unfold exact.
    set (D := baseReserve + tokenAmount * (1 - default_swapFee / 100)) in *.
    assert (HBD : baseReserve <= D) by (unfold D; rewrite Hg; nra).
    assert (HQ : 0 <= baseReserve * quoteReserve / D <= quoteReserve).
    { split.
      - apply Qle_shift_div_l; [exact Hden|]. nra.
      - apply Qle_shift_div_r; [exact Hden|]. nra. }
    lra. }
  destruct (tokensForSol_amm_run tokenAmount baseReserve quoteReserve Ha HB HS)
    as (rate & kept & eff & d & k & q & t & r & Hrate & Hkept & Heff & Hk & Hd
        & Hq & Ht & Hr & Herr).
  exists r.
  assert (Hrun : AmmV4.tokensForSol tokenAmount baseReserve quoteReserve
                   default_swapFee = Some r).
  { unfold AmmV4.tokensForSol. rewrite Hrate. cbn [bind].
    rewrite Hkept. cbn [bind]. rewrite Heff. cbn [bind].
    rewrite Hk. cbn [bind]. rewrite Hd. cbn [bind].
    rewrite Hq. cbn [bind]. rewrite Ht. cbn [bind]. exact Hr. }
  split; [exact Hrun|]. split; [exact Hrun|]. exact Herr.
Qed.

(** X18.  The sell quote of the bonding curve in double arithmetic.  For
  reserves and a token amount between 2^-200 and 2^200, [tokensForSol]
  returns a finite number within [2^-49 * solReserves] of the amount that
  keeps the constant product exactly, and that amount is positive and
  smaller than the SOL reserve. *)
Theorem tokensForSol_bonding_curve_accuracy
    (tokensToSell solReserves tokenReserves : Q) :
  within 200 tokensToSell -> within 200 solReserves ->
  within 200 tokenReserves ->
  let exact := solReserves
               - solReserves * tokenReserves / (tokenReserves + tokensToSell) in
  solReserves * tokenReserves
  == (solReserves - exact) * (tokenReserves + tokensToSell)
  /\ 0 < exact < solReserves
  /\ exists solOut,
       BondingCurve.tokensForSol tokensToSell solReserves tokenReserves
       = Some solOut
       /\ Qabs (solOut - exact) <= (1 # 2 ^ 49) * solReserves.
Proof.
  intros Hx HS HT exact.
  destruct u_bounds as [Hu0 Hu1].
  pose proof (within_pos _ _ Hx) as Hxpos.
  pose proof (within_pos _ _ HS) as HSpos.
  pose proof (within_pos _ _ HT) as HTpos.
  assert (Hden : 0 < tokenReserves + tokensToSell) by lra.
  assert (Hexact : solReserves * tokenReserves
                   == (solReserves - exact) * (tokenReserves + tokensToSell))
    by (unfold exact; field; lra).
  split; [exact Hexact|].
  split.
  { assert (HQ : 0 < solReserves * tokenReserves
                     / (tokenReserves + tokensToSell) < solReserves).
    { split.
      - apply Qlt_shift_div_l; [exact Hden|]. nra.
      - apply Qlt_shift_div_r; [exact Hden|]. nra. }
    unfold exact. lra. }
  destruct (round_within 201 (tokenReserves + tokensToSell) ltac:(lia)
              (within_add 200 200 200 _ _ ltac:(lia) ltac:(lia) HT Hx))
    as (Hn & Hnrel & Hnw).
  set (n := round (tokenReserves + tokensToSell)) in *.
  destruct (constant_product_quote solReserves tokenReserves
              (tokenReserves + tokensToSell) n u HS HT
              (within_weaken 202 210 n ltac:(lia) Hnw)
              ltac:(lra) ltac:(lra) ltac:(lra) Hnrel)
    as (k & q & t & Hk & Hq & Ht & Herr).
  exists t. split.
  - unfold BondingCurve.tokensForSol. unfold add. rewrite Hn. cbn [bind].
    rewrite Hk. cbn [bind]. rewrite Hq. cbn [bind]. rewrite Ht. reflexivity.
  - fold exact in Herr.
    assert (Hc : 13 * u * solReserves <= (1 # 2 ^ 49) * solReserves).
    { apply Qmult_le_compat_r; [vm_compute; discriminate|lra]. }
    lra.
Qed.

End MorePricingFacts.

Lemma amm_tokensForSol_accuracy_witness :
  Double.within 200 1 /\ Double.within 200 1000000 /\ Double.within 200 100
  /\ exists sol,
       AmmV4.tokensForSol 1 1000000 100 default_swapFee = Some sol
       /\ (Qabs (sol
                 - (100 - 1000000 * 100
                          / (1000000 + 1 * (1 - default_swapFee / 100))))
           <= (1 # 2 ^ 49) * 100 + (1 # 10 ^ 9))%Q.
Proof.
  assert (H1 : Double.within 200 1) by (split; vm_compute; discriminate).
  assert (H6 : Double.within 200 1000000) by (split; vm_compute; discriminate).
  assert (H2 : Double.within 200 100) by (split; vm_compute; discriminate).
  split; [exact H1|]. split; [exact H6|]. split; [exact H2|].
  destruct (amm_tokensForSol_accuracy 1 1000000 100 H1 H6 H2)
    as [_ (sol & Hrun & _ & Hnear)].
  exists sol. split; [exact Hrun|exact Hnear].
Defined.

Lemma tokensForSol_bonding_curve_accuracy_witness :
  Double.within 200 5000 /\ Double.within 200 30
  /\ Double.within 200 1000000000
  /\ exists solOut,
       BondingCurve.tokensForSol 5000 30 1000000000 = Some solOut
       /\ (Qabs (solOut - (30 - 30 * 1000000000 / (1000000000 + 5000)))
           <= (1 # 2 ^ 49) * 30)%Q.
Proof.
  assert (H5 : Double.within 200 5000) by (split; vm_compute; discriminate).
  assert (H30 : Double.within 200 30) by (split; vm_compute; discriminate).
  assert (H9 : Double.within 200 1000000000)
    by (split; vm_compute; discriminate).
  split; [exact H5|]. split; [exact H30|]. split; [exact H9|].
  destruct (tokensForSol_bonding_curve_accuracy 5000 30 1000000000 H5 H30 H9)
    as (_ & _ & solOut & Hrun & Hnear).
  exists solOut. split; [exact Hrun|exact Hnear].
Defined.

(** ** More on the orchestrator *)

Section MoreOrchestratorFacts.
Import Orchestrator.
Local Open Scope string_scope.
Local Open Scope list_scope.

Variable cfg : Config.
Variable world : World.

Lemma Some_eq_inv {A : Type} (a b : A) : Some a = Some b -> a = b.
Proof. intros H. inversion H. reflexivity. Qed.

Lemma sellCalls_app (tr1 tr2 : list Event) :
  sellCalls (tr1 ++ tr2) = (sellCalls tr1 + sellCalls tr2)%nat.
Proof. unfold sellCalls. rewrite filter_app, length_app. reflexivity. Qed.

(** [k] failing answers take the sell loop [k] rounds further: [k] more
  calls of the protocol's sell, nothing bought, nothing spent. *)
Lemma sellToken_loop_failures (dex name address : string) (slippage : Z)
    (k : nat) :
  forall (fuel : nat) (attempts : Z) (st : State),
    (forall i, (i < k)%nat -> sellFails (world (tradeCalls st + i)%nat)) ->
    exists st_k,
      sellToken_loop (k + fuel) world dex name address slippage attempts st
      = sellToken_loop fuel world dex name address slippage
                       (attempts + Z.of_nat k) st_k
      /\ tradeCalls st_k = (tradeCalls st + k)%nat
      /\ buyList st_k = buyList st
      /\ spent st_k = spent st
      /\ sellCalls (trace st_k) = (sellCalls (trace st) + k)%nat
      /\ allBuyCalls (trace st_k) = allBuyCalls (trace st).
Proof.
  induction k as [|k IH]; intros fuel attempts st Hfail.
  - exists st. cbn [Nat.add Z.of_nat]. rewrite Z.add_0_r, !Nat.add_0_r.
    repeat split; reflexivity.
  - pose proof (Hfail 0%nat ltac:(lia)) as H0. rewrite Nat.add_0_r in H0.
    cbn [Nat.add sellToken_loop]. unfold callTrade, log.
    cbn [tradeCalls trace buyList spent].
    destruct H0 as [H0|H0]; rewrite H0.
    + match goal with
      | |- context [sellToken_loop (k + fuel) _ _ _ _ _ _ ?s] =>
          destruct (IH fuel (attempts + 1) s) as (st_k & Hrun & Hc & Hb & Hs & Hn & Ha)
      end.
      { intros i Hi. cbn [tradeCalls].
        replace (S (tradeCalls st) + i)%nat with (tradeCalls st + S i)%nat
          by lia.
        apply Hfail. lia. }
      exists st_k. cbn [tradeCalls buyList spent trace] in *.
      split; [rewrite Hrun; f_equal; lia|].
      split; [lia|]. split; [exact Hb|]. split; [exact Hs|].
      split.
      * rewrite Hn, !sellCalls_app. cbn. lia.
      * rewrite Ha, !allBuyCalls_app. cbn. lia.
    + match goal with
      | |- context [sellToken_loop (k + fuel) _ _ _ _ _ _ ?s] =>
          destruct (IH fuel (attempts + 1) s) as (st_k & Hrun & Hc & Hb & Hs & Hn & Ha)
      end.
      { intros i Hi. cbn [tradeCalls].
        replace (S (tradeCalls st) + i)%nat with (tradeCalls st + S i)%nat
          by lia.
        apply Hfail. lia. }
      exists st_k. cbn [tradeCalls buyList spent trace] in *.
      split; [rewrite Hrun; f_equal; lia|].
      split; [lia|]. split; [exact Hb|]. split; [exact Hs|].
      split.
      * rewrite Hn, !sellCalls_app. cbn. lia.
      * rewrite Ha, !allBuyCalls_app. cbn. lia.
Qed.

(** X20.  [sellToken] has no attempt cap: it calls the protocol's sell
  again after every [false] and every exception, and stops at the first
  [true] or [undefined].  After [k] failing answers and one that stops
  it, it has made exactly [k + 1] sell calls, bought nothing and left
  the buy list and the spent total as they were; and however large [k]
  is, it does not return before those [k] failures are through. *)
Theorem sellToken_retries_until_sold
    (dex name address : string) (slippage : Z) (st : State) (k : nat) :
  (forall i, (i < k)%nat -> sellFails (world (tradeCalls st + i)%nat)) ->
  (forall fuel, (fuel <= k)%nat ->
     sellToken fuel world dex name address slippage st = None)
  /\ (sellStops (world (tradeCalls st + k)%nat) ->
      forall fuel, (k < fuel)%nat ->
        exists st',
          sellToken fuel world dex name address slippage st = Some st'
          /\ tradeCalls st' = (tradeCalls st + k + 1)%nat
          /\ sellCalls (trace st') = (sellCalls (trace st) + k + 1)%nat
          /\ allBuyCalls (trace st') = allBuyCalls (trace st)
          /\ buyList st' = buyList st
          /\ spent st' = spent st).
Proof.
  intros Hfail. unfold sellToken. split.
  - intros fuel Hf.
    destruct (sellToken_loop_failures dex name address slippage fuel 0 0 st)
      as (st_k & Hrun & _).
    { intros i Hi. apply Hfail. lia. }
    rewrite Nat.add_0_r in Hrun. rewrite Hrun. reflexivity.
  - intros Hstop fuel Hf.
    destruct (sellToken_loop_failures dex name address slippage k
                (fuel - k) 0 st Hfail)
      as (st_k & Hrun & Hc & Hb & Hs & Hn & Ha).
    replace (k + (fuel - k))%nat with fuel in Hrun by lia.
    rewrite Hrun.
    destruct (fuel - k)%nat as [|rest] eqn:Hrest; [lia|].
    cbn [sellToken_loop]. unfold callTrade, log.
    cbn [tradeCalls trace buyList spent]. rewrite Hc.
    destruct Hstop as [H|H]; rewrite H; eexists; (split; [reflexivity|]);
      cbn [tradeCalls trace buyList spent];
      rewrite !sellCalls_app, !allBuyCalls_app, Hn, Ha; cbn;
      repeat split; try lia; assumption.
Qed.



(** Whenever a buy loop ends, it has added to the trace only log lines
  and buys with its own arguments, and has added the amount to the spent
  total at most once. *)
Lemma buyToken_loop_trace (dex name address : string) (solAmount : Q)
    (slippage : Z) (fuel : nat) :
  forall (attempts : Z) (st st' : State),
    buyToken_loop fuel cfg world dex name address solAmount slippage
                  attempts st = Some st' ->
    (exists added,
        trace st' = trace st ++ added
        /\ Forall (fun e =>
                     match e with
                     | Logged _ => True
                     | UnderlyingBuy d _ amount s =>
                         d = dex /\ amount = solAmount /\ s = slippage
                     | UnderlyingSell _ _ _ _ => False
                     end) added)
    /\ (spent st' = spent st \/ spent st' = (spent st + solAmount)%Q).
Proof.
  induction fuel as [|fuel IH]; intros attempts st st'; [discriminate|].
  cbn [buyToken_loop].
  destruct (negb (allowRebuy cfg) && Array_includes (buyList st) address).
  { intros H. apply Some_eq_inv in H. subst st'. unfold log. cbn [trace spent].
    split; [|left; reflexivity].
    eexists. split; [reflexivity|]. repeat constructor. }
  destruct (attempts >? maxBuyAttempts cfg).
  { intros H. apply Some_eq_inv in H. subst st'. unfold log. cbn [trace spent].
    split; [|left; reflexivity].
    eexists. split; [reflexivity|]. repeat constructor. }
  unfold callTrade, log. cbn [tradeCalls trace buyList spent].
  destruct (world (tradeCalls st)).
  - intros H. apply Some_eq_inv in H. subst st'. cbn [trace spent].
    split; [|right; reflexivity].
    eexists. split; [rewrite <- !app_assoc; reflexivity|].
    repeat constructor.
  - intros H. apply IH in H. cbn [trace spent] in H.
    destruct H as [(added & Htr & Hall) Hsp]. split; [|exact Hsp].
    eexists. split; [rewrite Htr, <- !app_assoc; reflexivity|].
    repeat (constructor; [first [exact I | repeat split]|]). exact Hall.
  - intros H. apply IH in H. cbn [trace spent] in H.
    destruct H as [(added & Htr & Hall) Hsp]. split; [|exact Hsp].
    eexists. split; [rewrite Htr, <- !app_assoc; reflexivity|].
    repeat (constructor; [first [exact I | repeat split]|]). exact Hall.
  - intros H. apply IH in H. cbn [trace spent] in H.
    destruct H as [(added & Htr & Hall) Hsp]. split; [|exact Hsp].
    eexists. split; [rewrite Htr, <- !app_assoc; reflexivity|].
    repeat (constructor; [first [exact I | repeat split]|]). exact Hall.
Qed.

Lemma sellToken_loop_trace (dex name address : string) (slippage : Z)
    (fuel : nat) :
  forall (attempts : Z) (st st' : State),
    sellToken_loop fuel world dex name address slippage attempts st
    = Some st' ->
    (exists added,
        trace st' = trace st ++ added
        /\ Forall (fun e =>
                     match e with
                     | Logged _ => True
                     | UnderlyingBuy _ _ _ _ => False
                     | UnderlyingSell d _ percentage s =>
                         d = dex /\ percentage = 100 /\ s = slippage
                     end) added)
    /\ spent st' = spent st.
Proof.
  induction fuel as [|fuel IH]; intros attempts st st'; [discriminate|].
  cbn [sellToken_loop]. unfold callTrade, log.
  cbn [tradeCalls trace buyList spent].
  destruct (world (tradeCalls st)).
  - intros H. apply Some_eq_inv in H. subst st'. cbn [trace spent].
    split; [|reflexivity].
    eexists. split; [rewrite <- !app_assoc; reflexivity|].
    repeat constructor.
  - intros H. apply IH in H. cbn [trace spent] in H.
    destruct H as [(added & Htr & Hall) Hsp]. split; [|exact Hsp].
    eexists. split; [rewrite Htr, <- !app_assoc; reflexivity|].
    repeat (constructor; [first [exact I | repeat split]|]). exact Hall.
  - intros H. apply Some_eq_inv in H. subst st'. cbn [trace spent].
    split; [|reflexivity].
    eexists. split; [rewrite <- !app_assoc; reflexivity|].
    repeat constructor.
  - intros H. apply IH in H. cbn [trace spent] in H.
    destruct H as [(added & Htr & Hall) Hsp]. split; [|exact Hsp].
    eexists. split; [rewrite Htr, <- !app_assoc; reflexivity|].
    repeat (constructor; [first [exact I | repeat split]|]). exact Hall.
Qed.

Lemma protocolMap_actions (filtered : TransactionDetails) (action : Action) :
  protocolMap filtered = Some action ->
  match action with
  | BuyAction dex _ _ => dex = "pf"
  | SellAction dex _ _ => dex = "pf" \/ dex = "ra"
  end.
Proof.
  unfold protocolMap. cbv zeta.
  repeat match goal with
         | |- context [if ?c then _ else _] => destruct c
         end;
    intros H; try discriminate H; apply Some_eq_inv in H; subst action;
    auto.
Qed.

(** What one handled message does: it adds to the trace only what the
  handler may do, and it spends nothing or, the budget being open when
  the message came, one configured amount. *)
Lemma onMessage_effect (fuel : nat) (message : string) (st st' : State) :
  onMessage fuel cfg world message st = Some st' ->
  (exists added,
      trace st' = trace st ++ added /\ Forall (handlerEvent cfg) added)
  /\ (spent st' = spent st
      \/ (spent st < maxSolSpend cfg)%Q
         /\ spent st' = (spent st + solIn cfg)%Q).
Proof.
  unfold onMessage.
  destruct (decide cfg st message) as [| |filtered|action] eqn:Hd.
  - intros H. apply Some_eq_inv in H. subst st'. unfold log. cbn [trace spent].
    split; [|left; reflexivity].
    eexists. split; [reflexivity|]. repeat constructor.
  - intros H. apply Some_eq_inv in H. subst st'.
    split; [|left; reflexivity].
    exists []. split; [rewrite app_nil_r; reflexivity|constructor].
  - intros H. apply Some_eq_inv in H. subst st'. unfold log. cbn [trace spent].
    split; [|left; reflexivity].
    eexists. split; [reflexivity|]. repeat constructor.
  - assert (Hopen : (spent st < maxSolSpend cfg)%Q
                    /\ exists filtered, protocolMap filtered = Some action).
    { unfold decide in Hd.
      destruct (Qle_bool (maxSolSpend cfg) (spent st)) eqn:Hb;
        [discriminate|].
      split.
      - apply Qnot_le_lt. intros Hle. apply Qle_bool_iff in Hle. congruence.
      - destruct (filterMessages cfg message) as [filtered|];
          [|discriminate].
        destruct (maker_address filtered) as [maker|]; [|discriminate].
        destruct (_ || _); [discriminate|].
        destruct (protocolMap filtered) as [a|] eqn:Hp; [|discriminate].
        exists filtered. congruence. }
    destruct Hopen as [Hopen (filtered & Hp)].
    apply protocolMap_actions in Hp.
    destruct action as [dex name address|dex name address];
      cbn [runAction]; unfold buyToken, sellToken; intros H.
    + apply buyToken_loop_trace in H.
      destruct H as [(added & Htr & Hall) Hsp]. split.
      * exists added. split; [exact Htr|].
        eapply Forall_impl; [|exact Hall].
        intros [line|d a amount s|d a p s]; cbn; try tauto.
        intros (-> & -> & ->). auto.
      * destruct Hsp as [Hsp|Hsp]; [left; exact Hsp|right; auto].
    + apply sellToken_loop_trace in H.
      destruct H as [(added & Htr & Hall) Hsp]. split; [|left; exact Hsp].
      exists added. split; [exact Htr|].
      eapply Forall_impl; [|exact Hall].
      intros [line|d a amount s|d a p s]; cbn; try tauto.
      intros (-> & -> & ->). auto.
Qed.

(** X22.  Over any messages handled one after the other, each to its end,
  and whatever the protocols answer: the handler never calls a buy of the
  AMM protocol, every buy it makes is a bonding-curve buy of exactly the
  configured amount and slippage, and every sell it makes sells 100
  percent with the configured slippage. *)
Theorem handler_never_buys_on_amm
    (fuel : nat) (messages : list string) (st st' : State) :
  onMessages fuel cfg world messages st = Some st' ->
  exists added,
    trace st' = trace st ++ added /\ Forall (handlerEvent cfg) added.
Proof.
  revert st. induction messages as [|m rest IH]; intros st.
  - intros H. apply Some_eq_inv in H. subst st'.
    exists []. split; [rewrite app_nil_r; reflexivity|constructor].
  - cbn [onMessages].
    destruct (onMessage fuel cfg world m st) as [st1|] eqn:H1;
      [|discriminate].
    intros H. apply IH in H. destruct H as (added2 & Htr2 & Hall2).
    apply onMessage_effect in H1. destruct H1 as [(added1 & Htr1 & Hall1) _].
    exists (added1 ++ added2). split.
    + rewrite Htr2, Htr1, app_assoc. reflexivity.
    + apply Forall_app. split; assumption.
Qed.



End MoreOrchestratorFacts.

Lemma sellToken_retries_until_sold_witness :
  (forall i, (i < 2)%nat ->
     Orchestrator.sellFails
       ((fun k => if (k <? 2)%nat then Orchestrator.ReturnsFalse
                  else Orchestrator.ReturnsTrue)
          (Orchestrator.tradeCalls Orchestrator.initialState + i)%nat))
  /\ Orchestrator.sellToken 2
       (fun k => if (k <? 2)%nat then Orchestrator.ReturnsFalse
                 else Orchestrator.ReturnsTrue)
       "pf" "T" "Mint1" 5 Orchestrator.initialState = None.
Proof.
  assert (Hfail : forall i, (i < 2)%nat ->
            Orchestrator.sellFails
              ((fun k => if (k <? 2)%nat then Orchestrator.ReturnsFalse
                         else Orchestrator.ReturnsTrue)
                 (Orchestrator.tradeCalls Orchestrator.initialState + i)%nat)).
  { intros i Hi. left. cbn [Orchestrator.tradeCalls Orchestrator.initialState
                             Nat.add].
    destruct i as [|[|i]]; [reflexivity|reflexivity|lia]. }
  split; [exact Hfail|].
  apply (sellToken_retries_until_sold
           (fun k => if (k <? 2)%nat then Orchestrator.ReturnsFalse
                     else Orchestrator.ReturnsTrue)
           "pf" "T" "Mint1" 5 Orchestrator.initialState 2 Hfail).
  lia.
Defined.


Lemma handler_never_buys_on_amm_witness :
  exists st',
    Orchestrator.onMessages 5 OrchestratorExamples.cfg_empty
      (fun _ => Orchestrator.ReturnsTrue)
      [OrchestratorExamples.message_buy] Orchestrator.initialState = Some st'
    /\ exists added,
         Orchestrator.trace st'
         = Orchestrator.trace Orchestrator.initialState ++ added
         /\ Forall (Orchestrator.handlerEvent OrchestratorExamples.cfg_empty)
                   added.
Proof.
  eexists. split; [vm_compute; reflexivity|].
  apply (handler_never_buys_on_amm OrchestratorExamples.cfg_empty
           (fun _ => Orchestrator.ReturnsTrue) 5
           [OrchestratorExamples.message_buy] Orchestrator.initialState).
  vm_compute. reflexivity.
Defined.


(** ** The feed parser *)

Section FeedParserFacts.
Import Orchestrator.
Local Open Scope string_scope.

Lemma append_assoc (a b c : string) : (a ++ b) ++ c = a ++ (b ++ c).
Proof. induction a as [|x a IH]; cbn; [reflexivity|]. rewrite IH. reflexivity. Qed.

Lemma prefix_append (p r : string) : String.prefix p (p ++ r) = true.
Proof.
  induction p as [|a p IH]; cbn; [destruct r; reflexivity|].
  destruct (ascii_dec a a) as [_|Hne]; [exact IH|contradiction].
Qed.

Lemma prefix_split (p s : string) :
  String.prefix p s = true -> exists r, s = p ++ r.
Proof.
  revert s. induction p as [|a p IH]; intros s.
  - intros _. exists s. reflexivity.
  - destruct s as [|b s]; cbn; [discriminate|].
    destruct (ascii_dec a b) as [->|Hne]; [|discriminate].
    intros H. destruct (IH s H) as [r ->]. exists r. reflexivity.
Qed.

Lemma includes_iff (needle hay : string) :
  includes needle hay = true
  <-> exists pre post, hay = pre ++ needle ++ post.
Proof.
  split.
  - induction hay as [|c hay IH]; cbn [includes].
    + rewrite orb_false_r. intros H. apply prefix_split in H.
      destruct H as [r Hr]. exists "", r. exact Hr.
    + intros H. apply orb_true_iff in H. destruct H as [H|H].
      * apply prefix_split in H. destruct H as [r Hr]. exists "", r. exact Hr.
      * destruct (IH H) as (pre & post & ->).
        exists (String c pre), post. reflexivity.
  - intros (pre & post & ->). induction pre as [|c pre IH].
    + cbn [append]. destruct (needle ++ post) eqn:E; cbn [includes];
        rewrite <- E, prefix_append; reflexivity.
    + cbn [append includes]. rewrite IH. apply orb_true_r.
Qed.

Lemma includes_prefix_part (a b hay : string) :
  includes (a ++ b) hay = true -> includes a hay = true.
Proof.
  intros H. apply includes_iff in H. destruct H as (pre & post & ->).
  apply includes_iff. exists pre, (b ++ post).
  rewrite append_assoc. reflexivity.
Qed.

Lemma dropPrefix_split (p s rest : string) :
  dropPrefix p s = Some rest -> s = p ++ rest.
Proof.
  revert s. induction p as [|a p IH]; intros s; cbn [dropPrefix].
  - intros H. inversion H. reflexivity.
  - destruct s as [|b s]; [discriminate|].
    destruct (Ascii.eqb a b) eqn:Hab; [|discriminate].
    apply Ascii.eqb_eq in Hab. subst b. intros H.
    rewrite (IH s H). reflexivity.
Qed.

Lemma lazyUntilQuote_split (s v : string) :
  lazyUntilQuote s = Some v ->
  (exists tail, s = v ++ String dquote tail)
  /\ allChars (fun c => negb (Ascii.eqb c dquote)
                        && negb (isLineTerminator c)) v = true.
Proof.
  revert v. induction s as [|c s IH]; intros v; cbn [lazyUntilQuote];
    [discriminate|].
  destruct (Ascii.eqb c dquote) eqn:Hq.
  - intros H. inversion H. subst v. apply Ascii.eqb_eq in Hq. subst c.
    split; [exists s; reflexivity|reflexivity].
  - destruct (isLineTerminator c) eqn:Hl; [discriminate|].
    destruct (lazyUntilQuote s) as [w|]; cbn [option_map]; [|discriminate].
    intros H. inversion H. subst v.
    destruct (IH w eq_refl) as [[tail ->] Hall].
    split; [exists tail; reflexivity|].
    cbn [allChars]. rewrite Hq, Hl, Hall. reflexivity.
Qed.

Lemma takeNumeric_split (s : string) :
  (exists tail, s = takeNumeric s ++ tail)
  /\ allChars isDigitOrDot (takeNumeric s) = true.
Proof.
  induction s as [|c s [[tail IH] Hall]]; cbn [takeNumeric].
  - split; [exists ""; reflexivity|reflexivity].
  - destruct (isDigitOrDot c) eqn:Hc.
    + split; [exists tail; cbn [append]; rewrite <- IH; reflexivity|].
      cbn [allChars]. rewrite Hc, Hall. reflexivity.
    + split; [exists (String c s); reflexivity|reflexivity].
Qed.

Lemma execFirst_found (attempt : string -> option string) (data v : string) :
  execFirst attempt data = Some v ->
  exists pre s, data = pre ++ s /\ attempt s = Some v.
Proof.
  induction data as [|c data IH]; cbn [execFirst].
  - destruct (attempt "") eqn:Ha; [|discriminate].
    intros H. inversion H. subst. exists "", "". split; [reflexivity|exact Ha].
  - destruct (attempt (String c data)) eqn:Ha.
    + intros H. inversion H. subst.
      exists "", (String c data). split; [reflexivity|exact Ha].
    + intros H. destruct (IH H) as (pre & s & -> & Hs).
      exists (String c pre), s. split; [reflexivity|exact Hs].
Qed.

Lemma matchQuoted_sound (name data : string) :
  quotedCapture name data (matchQuoted name data).
Proof.
  unfold quotedCapture.
  destruct (matchQuoted name data) as [v|] eqn:Hm; [|exact I].
  unfold matchQuoted in Hm. apply execFirst_found in Hm.
  destruct Hm as (pre & s & -> & Hs).
  destruct (dropPrefix (quotedKey name) s) as [rest|] eqn:Hd; [|discriminate].
  apply dropPrefix_split in Hd. subst s.
  apply lazyUntilQuote_split in Hs. destruct Hs as [[tail ->] Hall].
  split; [|exact Hall].
  apply includes_iff. exists pre, tail.
  rewrite !append_assoc. reflexivity.
Qed.

Lemma matchNumeric_sound (name data : string) :
  numericCapture name data (matchNumeric name data).
Proof.
  unfold numericCapture.
  destruct (matchNumeric name data) as [v|] eqn:Hm; [|exact I].
  unfold matchNumeric in Hm. apply execFirst_found in Hm.
  destruct Hm as (pre & s & -> & Hs).
  destruct (dropPrefix (numericKey name) s) as [rest|] eqn:Hd; [|discriminate].
  apply dropPrefix_split in Hd. subst s.
  destruct (takeNumeric_split rest) as [[tail Htail] Hall].
  destruct (takeNumeric rest) as [|c w] eqn:Ht; [discriminate|].
  inversion Hs. subst v. split; [|split; [discriminate|exact Hall]].
  apply includes_iff. exists pre, tail.
  rewrite Htail, !append_assoc. reflexivity.
Qed.

Lemma matchType_sound (data : string) : typeCapture data (matchType data).
Proof.
  unfold typeCapture.
  destruct (matchType data) as [v|] eqn:Hm; [|exact I].
  unfold matchType in Hm. apply execFirst_found in Hm.
  destruct Hm as (pre & s & -> & Hs).
  destruct (dropPrefix (quotedKey "type") s) as [rest|] eqn:Hd;
    [|discriminate].
  apply dropPrefix_split in Hd. subst s.
  destruct (dropPrefix ("buy" ++ String dquote "") rest) as [tail|] eqn:Hb.
  - inversion Hs. subst v. split; [left; reflexivity|].
    apply dropPrefix_split in Hb. subst rest.
    apply includes_iff. exists pre, tail. rewrite !append_assoc. reflexivity.
  - destruct (dropPrefix ("sell" ++ String dquote "") rest) as [tail|] eqn:Hsell;
      [|discriminate].
    inversion Hs. subst v. split; [right; reflexivity|].
    apply dropPrefix_split in Hsell. subst rest.
    apply includes_iff. exists pre, tail. rewrite !append_assoc. reflexivity.
Qed.

(** X25.  [extractTransactionDetails] only reports what the message
  holds.  A text field is present only if the message contains its key,
  the captured text and a closing double quote in a row, and the capture
  has no double quote and no line break in it; a numeric field only if
  the message contains its key followed by the capture, a non-empty run
  of digits and dots; the transaction type is [buy] or [sell] and
  nothing else.  A field whose key does not occur in the message is
  absent. *)
Theorem extractTransactionDetails_sound (data : string) :
  let details := extractTransactionDetails data in
  typeCapture data (transaction_type details)
  /\ quotedCapture "trader_level" data (trader_level details)
  /\ numericCapture "token_amount" data (token_amount details)
  /\ quotedCapture "maker_address" data (maker_address details)
  /\ numericCapture "price_sol" data (price_sol details)
  /\ numericCapture "price_usd" data (price_usd details)
  /\ numericCapture "total_sol" data (total_sol details)
  /\ numericCapture "total_usd" data (total_usd details)
  /\ quotedCapture "created_at" data (created_at details)
  /\ quotedCapture "tokenAddress" data (token_address details)
  /\ quotedCapture "pair_address" data (pair_address details)
  /\ quotedCapture "tokenName" data (token_name details)
  /\ quotedCapture "tokenTicker" data (token_code details)
  /\ quotedCapture "protocol" data (protocol details)
  /\ (forall name, includes (quotedKey name) data = false ->
        matchQuoted name data = None)
  /\ (forall name, includes (numericKey name) data = false ->
        matchNumeric name data = None)
  /\ (includes (quotedKey "type") data = false ->
      transaction_type details = None).
Proof.
  cbv zeta. unfold extractTransactionDetails.
  cbn [transaction_type trader_level token_amount maker_address price_sol
       price_usd total_sol total_usd created_at token_address pair_address
       token_name token_code protocol].
  repeat (split; [first [apply matchType_sound | apply matchQuoted_sound
                        | apply matchNumeric_sound]|]).
  split; [|split].
  - intros name Habsent. pose proof (matchQuoted_sound name data) as Hs.
    destruct (matchQuoted name data) as [v|]; [|reflexivity].
    destruct Hs as [Hs _]. apply includes_prefix_part in Hs. congruence.
  - intros name Habsent. pose proof (matchNumeric_sound name data) as Hs.
    destruct (matchNumeric name data) as [v|]; [|reflexivity].
    destruct Hs as [Hs _]. apply includes_prefix_part in Hs. congruence.
  - intros Habsent. pose proof (matchType_sound data) as Hs.
    destruct (matchType data) as [v|]; [|reflexivity].
    destruct Hs as [_ Hs]. apply includes_prefix_part in Hs. congruence.
Qed.

End FeedParserFacts.

(** ** Account layouts and the constants that depend on them *)

Section LayoutFacts.
Import Layouts.
Local Open Scope string_scope.

(** X26.  The numbers written out in the pair lookups and in the engines
  agree with the account layouts of the repository.  Each pair lookup
  filters on the size of its pool-state layout and compares the mints at
  the offsets of the two 32-byte mint fields of that layout (752, 400 and
  432 for the classic pool; 637, 168 and 200 for the fee-vault pool; 1544,
  73 and 105 for the concentrated-liquidity pool).  Every field that
  [fetchCpmmPoolKeys] and [fetchClmmPoolKeys] turn into a public key is a
  32-byte field of the layout they decode with.  The token account
  layout takes [ACCOUNT_LAYOUT_LEN] = 165 bytes.  The inline bitmap field
  of the concentrated-liquidity pool holds the 16 words of 64 bits, 1024
  bits in all, that the tick engine asks for, a tick array holds
  [TICK_ARRAY_SIZE] ticks, and the swap layout of the classic pool is the
  17 bytes that [makeAmmV4SwapInstruction] writes: tag at 0, amount in at
  1, minimum amount out at 9. *)
Theorem layouts_match_constants :
  filterReads ammV4PairFilter LIQUIDITY_STATE_LAYOUT_V4
              "coinMintAddress" "pcMintAddress"
  /\ filterReads cpmmPairFilter CPMM_POOL_STATE_LAYOUT
                 "token_0_mint" "token_1_mint"
  /\ filterReads clmmPairFilter CLMM_POOL_STATE_LAYOUT
                 "token_mint_0" "token_mint_1"
  /\ Forall (fun name => fieldOf CPMM_POOL_STATE_LAYOUT name = Some (blob 32))
            fetchCpmmPoolKeys_addresses
  /\ Forall (fun name => fieldOf CLMM_POOL_STATE_LAYOUT name = Some (blob 32))
            fetchClmmPoolKeys_addresses
  /\ span ACCOUNT_LAYOUT = ACCOUNT_LAYOUT_LEN
  /\ fieldOf CLMM_POOL_STATE_LAYOUT "tick_array_bitmap"
     = Some (seq (blob 8) 16)
  /\ Z.of_nat (16 * (8 * 8)) = TickArrayBitmap.TOTAL_BITS
  /\ (exists tick, fieldOf TICK_ARRAY_STATE_LAYOUT "ticks"
                   = Some (seq tick (Z.to_nat TickArrayBitmap.TICK_ARRAY_SIZE)))
  /\ span SWAP_LAYOUT = 17%nat
  /\ offsetOf SWAP_LAYOUT "instruction" = Some 0%nat
  /\ offsetOf SWAP_LAYOUT "amount_in" = Some 1%nat
  /\ offsetOf SWAP_LAYOUT "min_amount_out" = Some 9%nat.
Proof.
  unfold filterReads.
  repeat split; try reflexivity;
    try (repeat constructor).
  eexists. reflexivity.
Qed.

End LayoutFacts.
